(** * referee.fyi: consistency primitives, sync server and scratchpad edits

    A shallow embedding of the parts of the referee.fyi code base that the
    specification talks about:

    - [LWW], [GrowSet], [ConsistentMap]: the replicated-map merge of
      [lib/consistency] ([lww.ts], [gset.ts], [map.ts]);
    - [Sync]: the per-event durable object of [worker/sync/src/incidents.ts]
      (storage, HTTP handlers, socket sessions, broadcast, CSV export);
    - [Client]: the local edit paths of [src/utils/data/scratchpad.ts] and
      [src/utils/data/incident.ts], and the incident indices of the device.

    JavaScript strings are modelled by [string]; every character stands for
    one code unit below 256.  JavaScript objects used as dictionaries are
    finite maps ([gmap string _]); the enumeration order of their keys is the
    one of [elements] and [map_to_list] and carries no meaning. *)

From stdpp Require Import gmap strings list fin_maps sorting.
From Stdlib Require Import DecimalString.

Set Warnings "-register-all,-clear-no-such-hyp".

(** ** JSON values *)

Inductive Json : Type :=
  | JNull
  | JBool (b : bool)
  | JNum (n : Z)
  | JStr (s : string)
  | JArr (xs : list Json)
  | JObj (ms : list (string * Json)).

Fixpoint json_eq_dec (a b : Json) {struct a} : {a = b} + {a <> b}.
Proof.
  decide equality.
  - apply bool_eq_dec.
  - apply Z.eq_dec.
  - apply String.string_dec.
  - apply (List.list_eq_dec json_eq_dec).
  - apply List.list_eq_dec. decide equality. apply String.string_dec.
Defined.

#[global] Instance json_eq_decision : EqDecision Json := json_eq_dec.

(** [Object.fromEntries]: a later entry overwrites an earlier one with the
    same key. *)
Definition fromEntries {A : Type} (entries : list (string * A)) : gmap string A :=
  list_to_map (reverse entries).

(** ** lib/consistency/lww.ts *)

Module LWW.

(** [FieldMeta = { count, peer, history: [{prev, peer}] }] *)
Record FieldMeta : Type := {
  count : N;
  peer : string;
  history : list (Json * string);
}.

#[global] Instance fieldmeta_eq_decision : EqDecision FieldMeta.
Proof. solve_decision. Defined.

(** [WithLWWConsistency<T, U>]: the record's own keys and the [consistency]
    entry of every key that is not ignored. *)
Record Envelope : Type := {
  fields : gmap string Json;
  consistency : gmap string FieldMeta;
}.

#[global] Instance envelope_eq_decision : EqDecision Envelope.
Proof. solve_decision. Defined.

(** [x.id] of a record [x : HasId]; a missing or non-string id reads as the
    property key JavaScript would build from it. *)
Definition env_id (e : Envelope) : string :=
  match fields e !! "id" with
  | Some (JStr s) => s
  | _ => "undefined"
  end.

(** Modelled from the spec: [initLWW] of [lww.ts], which is not part of the
    sources at hand (section 3.1, "init": count 0 and an empty history for
    every key that is not immutable). *)
Definition initLWW (value : gmap string Json) (p : string)
    (ignore : list string) : Envelope :=
  {| fields := value;
     consistency :=
       (λ _, {| count := 0; peer := p; history := [] |})
         <$> filter (λ kv, kv.1 ∉ ignore) value |}.

(** Modelled from the spec: [updateLWW] of [lww.ts], which is not part of the
    sources at hand (section 3.1, "update": unchanged when the value is
    deep-equal; otherwise the count is incremented, the previous value and its
    writer are pushed on the history, the value and the writer are set). *)
Definition updateLWW (env : Envelope) (key : string) (value : Json)
    (p : string) : Envelope :=
  match fields env !! key, consistency env !! key with
  | Some old, Some m =>
      if decide (old = value) then env
      else
        {| fields := <[key := value]> (fields env);
           consistency :=
             <[key := {| count := count m + 1;
                         peer := p;
                         history := history m ++ [(old, peer m)] |}]>
               (consistency env) |}
  | _, _ => env
  end.

Record LWWMergeResult : Type := {
  resolved : option Envelope;
  changed : list string;
  rejected : list string;
}.

(** The outcome of the per-key selection of section 4.1. *)
Inductive Verdict : Type :=
  | KeepLocal      (* local wins, nothing to report *)
  | RejectRemote   (* local wins, the key is reported in [rejected] *)
  | TakeRemote.    (* remote wins, the key is reported in [changed] *)

#[global] Instance verdict_eq_decision : EqDecision Verdict.
Proof. solve_decision. Defined.

(** Modelled from the spec: step 2 of section 4.1, read literally: a key won
    by a larger local count is reported in [rejected] when the remote count
    is not negative and the remote history has an entry the local history
    lacks. *)
Definition reports_by_history (lm rm : FieldMeta) : bool :=
  (0 <=? count rm)%N
  && existsb (λ h, bool_decide (h ∉ history lm)) (history rm).

(** The reading under which the expectations of [map.test.ts] hold: "local
    update handled" wants the id pushed to the remote side although the
    remote history is empty. *)
Definition reports_always (lm rm : FieldMeta) : bool := true.

Section Merge.

(** Whether a key won by a larger local count is reported in [rejected].
    The wording of the specification ([reports_by_history]) and the tests of
    the repository ([reports_always]) disagree; the merge is stated for any
    such rule. *)
Variable reports : FieldMeta → FieldMeta → bool.

(** Modelled from the spec: the per-key rule of [mergeLWW] (section 4.1,
    steps 1 to 4), [lww.ts] not being part of the sources at hand.  A remote
    side without metadata for the key counts as older than any local count.
    On a tie of the counts with different values the larger writer id wins;
    the remote side wins only when its writer id is strictly larger. *)
Definition verdict (l r : Envelope) (k : string) : Verdict :=
  match consistency l !! k, consistency r !! k with
  | Some lm, Some rm =>
      if (count rm <? count lm)%N then
        if reports lm rm then RejectRemote else KeepLocal
      else if (count lm <? count rm)%N then TakeRemote
      else if decide (fields l !! k = fields r !! k) then KeepLocal
      else if String.ltb (peer lm) (peer rm) then TakeRemote
      else RejectRemote
  | _, _ => KeepLocal
  end.

(** The keys that take part in a merge: those that carry metadata and are
    not immutable. *)
Definition lww_keys (ignore : list string) (e : Envelope) : list string :=
  filter (λ k, k ∉ ignore) (elements (dom (consistency e))).

Definition takes_remote (ignore : list string) (l r : Envelope)
    (k : string) : bool :=
  bool_decide (k ∉ ignore) && bool_decide (verdict l r k = TakeRemote).

(** Modelled from the spec: [mergeLWW] of [lww.ts], which is not part of the
    sources at hand (section 4.1, contract and null rules).  The resolved
    envelope is the local one in which every key won by the remote side
    carries the remote value and the remote metadata; immutable keys are
    those of the local side. *)
Definition mergeLWW (ignore : list string) (local remote : option Envelope)
    : LWWMergeResult :=
  match local, remote with
  | None, None => {| resolved := None; changed := []; rejected := [] |}
  | Some x, None => {| resolved := Some x; changed := []; rejected := [] |}
  | None, Some y =>
      {| resolved := Some y; changed := lww_keys ignore y; rejected := [] |}
  | Some l, Some r =>
      {| resolved :=
           Some {| fields :=
                     map_imap (λ k v, if takes_remote ignore l r k
                                      then fields r !! k else Some v)
                              (fields l);
                   consistency :=
                     map_imap (λ k m, if takes_remote ignore l r k
                                      then consistency r !! k else Some m)
                              (consistency l) |};
         changed := filter (λ k, verdict l r k = TakeRemote) (lww_keys ignore l);
         rejected :=
           filter (λ k, verdict l r k = RejectRemote) (lww_keys ignore l) |}
  end.

End Merge.

End LWW.

(** ** lib/consistency/gset.ts *)

Module GrowSet.

Record GrowSetMergeResult : Type := {
  resolved : list string;
  localOnly : list string;
  remoteOnly : list string;
}.

(** Modelled from the spec: [mergeGrowSet] of [gset.ts], which is not part of
    the sources at hand (section 4.2: the resolved set is the union).  The
    two difference fields are named as [mergeMap] and its test "deleted
    values merged" use them: [remoteOnly] holds the ids that only the remote
    side has, and the union lists the local ids first. *)
Definition mergeGrowSet (local remote : list string) : GrowSetMergeResult :=
  let remoteOnly := filter (λ id, id ∉ local) remote in
  {| resolved := local ++ remoteOnly;
     localOnly := filter (λ id, id ∉ remote) local;
     remoteOnly := remoteOnly |}.

End GrowSet.

(** ** lib/consistency/map.ts *)

Module ConsistentMap.

Import LWW.

Record ConsistentMap : Type := {
  deleted : list string;
  values : gmap string Envelope;
}.

(** The [{ deleted: string[]; values: string[] }] halves of a merge result. *)
Module Ids.
Record t : Type := { deleted : list string; values : list string }.
End Ids.

Record ConsistentMapMergeResult : Type := {
  resolved : ConsistentMap;
  local : Ids.t;
  remote : Ids.t;
}.

Section Merge.

(** The reporting rule of [mergeLWW], see [LWW.verdict]. *)
Variable reports : FieldMeta → FieldMeta → bool.

(** [result.resolved!.id] for every result; the non-null assertion never
    fails on shared ids, see [mergeLWW_present]. *)
Definition resolved_ids (results : list LWWMergeResult) : list string :=
  omap (λ result, env_id <$> LWW.resolved result) results.

Definition mergeMap (local remote : ConsistentMap) (ignore : list string)
    : ConsistentMapMergeResult :=
  let localIds : gset string := dom (values local) in
  let remoteIds : gset string := dom (values remote) in

  let localOnlyIds := localIds ∖ remoteIds in
  let remoteOnlyIds := remoteIds ∖ localIds in

  let sharedIds := elements (localIds ∩ remoteIds) in
  let mergeResults :=
    (λ id, mergeLWW reports ignore (values local !! id) (values remote !! id))
      <$> sharedIds in

  let notifyRemote :=
    filter (λ result, 0 < length (rejected result)) mergeResults in
  let updateLocal :=
    filter (λ result, 0 < length (changed result)) mergeResults in

  let deleted := GrowSet.mergeGrowSet (deleted local) (deleted remote) in

  let localOnlyValues :=
    fromEntries (omap (λ id, pair id <$> values local !! id)
                      (elements localOnlyIds)) in
  let remoteOnlyValues :=
    fromEntries (omap (λ id, pair id <$> values remote !! id)
                      (elements remoteOnlyIds)) in
  let sharedValues :=
    fromEntries (omap (λ result, (λ e, (env_id e, e)) <$> LWW.resolved result)
                      mergeResults) in

  {| resolved :=
       {| deleted := GrowSet.resolved deleted;
          (* { ...localOnlyValues, ...remoteOnlyValues, ...sharedValues } *)
          values := sharedValues ∪ (remoteOnlyValues ∪ localOnlyValues) |};
     local :=
       {| Ids.values := elements remoteOnlyIds ++ resolved_ids updateLocal;
          Ids.deleted := GrowSet.remoteOnly deleted |};
     remote :=
       {| Ids.values := elements localOnlyIds ++ resolved_ids notifyRemote;
          Ids.deleted := GrowSet.localOnly deleted |} |}.

End Merge.

(** *** Consistent maps

    Every envelope is stored under its own id, carries metadata exactly for
    the keys that are not immutable (section 3.1), and no tombstoned id is
    among the values (section 3.3). *)

Definition wf_envelope (ignore : list string) (e : Envelope) : Prop :=
  dom (consistency e) = filter (λ k, k ∉ ignore) (dom (fields e)).

Definition keyed (m : ConsistentMap) : Prop :=
  map_Forall (λ id e, fields e !! "id" = Some (JStr id)) (values m).

Definition consistent (ignore : list string) (m : ConsistentMap) : Prop :=
  keyed m
  ∧ map_Forall (λ _ e, wf_envelope ignore e) (values m)
  ∧ Forall (λ id, values m !! id = None) (deleted m).

(** A key on which the two envelopes do not tie: the counts differ, or the
    values differ and so do the writers, or value and metadata coincide. *)
Definition untied (l r : Envelope) (k : string) : Prop :=
  match consistency l !! k, consistency r !! k with
  | Some lm, Some rm =>
      LWW.count lm ≠ LWW.count rm
      ∨ (fields l !! k ≠ fields r !! k ∧ peer lm ≠ peer rm)
      ∨ (fields l !! k = fields r !! k ∧ lm = rm)
  | _, _ => True
  end.

(** Two envelopes of the same record: the same keys, the same immutable
    values (the precondition of section 4.1), and no tie on any key. *)
Definition compatible (ignore : list string) (l r : Envelope) : Prop :=
  dom (fields l) = dom (fields r)
  ∧ Forall (λ k, fields l !! k = fields r !! k) ignore
  ∧ set_Forall (untied l r) (dom (consistency l)).

Definition tie_free (ignore : list string) (a b : ConsistentMap) : Prop :=
  map_Forall (λ id l, from_option (compatible ignore l) True (values b !! id))
             (values a).

(** The predicates above are decidable. *)

#[global] Instance wf_envelope_dec ig e : Decision (wf_envelope ig e).
Proof. unfold wf_envelope. apply _. Defined.

#[global] Instance keyed_dec m : Decision (keyed m).
Proof. unfold keyed. apply _. Defined.

#[global] Instance consistent_dec ig m : Decision (consistent ig m).
Proof. unfold consistent. apply _. Defined.

#[global] Instance untied_dec l r k : Decision (untied l r k).
Proof.
  unfold untied.
  destruct (consistency l !! k), (consistency r !! k); apply _.
Defined.

#[global] Instance compatible_dec ig l r : Decision (compatible ig l r).
Proof. unfold compatible. apply _. Defined.

#[global] Instance tie_free_dec ig a b : Decision (tie_free ig a b).
Proof.
  unfold tie_free. apply map_Forall_dec. intros i x.
  destruct (values b !! i); apply _.
Defined.

End ConsistentMap.

(** ** ~types/api: the wire and storage types

    The declaring files are not part of the sources at hand; the records
    below list the fields that [incidents.ts], [incident.ts] and
    [scratchpad.ts] read and write. *)

Module Api.

(** [WebSocketSender]: [{ type: "client", name, id }] or [{ type: "server" }] *)
Inductive WebSocketSender : Type :=
  | SenderClient (name id : string)
  | SenderServer.

(** One entry of a revision's change list.  A property that is missing on one
    side reads as [undefined], here [None]. *)
Record Change : Type := {
  property : string;
  old : option Json;
  new : option Json;
}.

Record HistoryItem : Type := {
  item_user : WebSocketSender;
  item_date : string;
  changes : list Change;
}.

Record Revision : Type := {
  count : Z;
  user : WebSocketSender;
  history : list HistoryItem;
}.

Inductive SkillsType : Type := programming | driver.

(** [IncidentMatch]: a league-match reference or a skills-attempt reference. *)
Inductive IncidentMatch : Type :=
  | MatchRef (division : N) (name : string) (id : N)
  | SkillsRef (skillsType : SkillsType) (attempt : N).

Record Incident : Type := {
  id : string;
  time : string;
  event : string;
  match_ : option IncidentMatch;
  team : string;
  outcome : string;
  rules : list string;
  notes : string;
  revision : option Revision;
}.

Record ShareUser : Type := { user_id : string; user_name : string }.

Record InvitationListItem : Type := {
  invited : ShareUser;
  admin : bool;
}.

Record EventIncidentsData : Type := {
  data_sku : string;
  data_incidents : list Incident;
  data_deleted : list string;
}.

(** [WebSocketMessage]: the peer messages and the server messages. *)
Inductive WebSocketMessage : Type :=
  | add_incident (incident : Incident)
  | update_incident (incident : Incident)
  | remove_incident (id : string)
  | scratchpad_update (id : string) (scratchpad : Json)
  | message (text : string)
  | server_share_info (activeUsers : list ShareUser)
      (invitations : list InvitationListItem) (data : EventIncidentsData)
      (scratchpads : gmap string Json)
  | server_user_add (user : ShareUser) (activeUsers : list ShareUser)
      (invitations : list InvitationListItem)
  | server_user_remove (user : ShareUser) (activeUsers : list ShareUser)
      (invitations : list InvitationListItem).

(** [WebSocketPayload<T> = T & { sender, date }] *)
Record WebSocketPayload : Type := {
  body : WebSocketMessage;
  sender : WebSocketSender;
  date : string;
}.

(** Modelled from the spec: the [reason] union of an unsuccessful response
    (section 6.2); its declaration is not part of the sources at hand. *)
Inductive Reason : Type :=
  | bad_request
  | bad_signature
  | incorrect_code
  | server_error
  | stale
  | forbidden.

Inductive ResponseData : Type :=
  | DataIncident (incident : Incident)
  | DataRevision (revision : Revision)
  | DataEmpty
  | DataShareInfo (info : WebSocketMessage)
  | DataIncidents (incidents : list Incident).

(** [{ success: true, data }] or [{ success: false, reason, details }] *)
Inductive Response : Type :=
  | Success (data : ResponseData)
  | Failure (reason : Reason) (details : string).

Definition success (r : Response) : bool :=
  match r with Success _ => true | Failure _ _ => false end.

End Api.

(** ** worker/sync/src/incidents.ts *)

Module Sync.

Import Api.

(** [SessionClient].  The mutable [active] flag of a client object is kept in
    the server state ([inactive]), keyed by the client's socket: the object
    is shared between [this.clients] and the closures of its listeners. *)
Record SessionClient : Type := {
  user : ShareUser;
  socket : nat;
  ip : string;
}.

(** The durable object: its storage and its session list.  The storage of
    the code is one key-value store: the incident records live under their
    id, the scratchpads under [scratchpad_<id>] and the rest under fixed keys
    ([storageKeys]).  Here every kind of value has a field of its own:
    [records] for what is stored under incident ids, [scratchpad_store] for
    what is stored under scratchpad keys, [incidents], [deleted_incidents],
    [scratchpad_list] and [sku] for the fixed keys.  The fields and the store
    of the code agree as long as no incident is stored under a key of
    another kind ([incidentKey]); the statements about ids say so. *)
Record Server : Type := {
  sku : option string;
  records : gmap string Incident;
  incidents : list string;
  deleted_incidents : gset string;
  scratchpad_list : gset string;
  scratchpad_store : gmap string Json;
  clients : list SessionClient;
  inactive : gset nat;
}.

(** The fixed keys of the storage. *)
Definition storageKeys : list string :=
  ["sku"; "instance_secret"; "scratchpads"; "incidents"; "deleted_incidents"].

(** An id under which an incident is stored without touching another value
    of the storage: it is no fixed key and no key of a scratchpad. *)
Definition incidentKey (id : string) : Prop :=
  (id ∉ storageKeys) ∧ String.prefix "scratchpad_" id = false.

#[global] Instance incidentKey_dec id : Decision (incidentKey id).
Proof. unfold incidentKey. apply _. Defined.

(** What a handler does to the outside world. *)
Inductive Effect : Type :=
  | Send (socket : nat) (payload : WebSocketPayload)
  | Close (socket : nat) (code : nat) (reason : string).

(** What a handler reads from the outside world: the clock, the sockets whose
    [send] throws, the invitation list kept in the key-value namespace, and
    the ISO rendering of a stored time ([None] when [toISOString] throws). *)
Record Env : Type := {
  now : string;
  throws : nat → bool;
  invitationList : list InvitationListItem;
  toISOString : string → option string;
}.

(** Handlers run one at a time; they read the environment, update the
    server and emit effects in order. *)
Definition Handler (A : Type) : Type :=
  Env → Server → A * Server * list Effect.

#[global] Instance handler_ret : MRet Handler :=
  λ A (x : A) _ st, (x, st, []).

#[global] Instance handler_bind : MBind Handler :=
  λ A B (f : A → Handler B) (m : Handler A) env st,
    let '(x, st1, out1) := m env st in
    let '(y, st2, out2) := f x env st1 in
    (y, st2, out1 ++ out2).

Definition gets {A : Type} (f : Server → A) : Handler A :=
  λ _ st, (f st, st, []).

Definition asks {A : Type} (f : Env → A) : Handler A :=
  λ env st, (f env, st, []).

Definition modify (f : Server → Server) : Handler unit :=
  λ _ st, (tt, f st, []).

Definition emit (e : Effect) : Handler unit :=
  λ _ st, (tt, st, [e]).

Definition set_records (f : gmap string Incident → gmap string Incident)
    (st : Server) : Server :=
  {| sku := sku st; records := f (records st); incidents := incidents st;
     deleted_incidents := deleted_incidents st;
     scratchpad_list := scratchpad_list st;
     scratchpad_store := scratchpad_store st;
     clients := clients st; inactive := inactive st |}.

Definition set_incidents (f : list string → list string)
    (st : Server) : Server :=
  {| sku := sku st; records := records st; incidents := f (incidents st);
     deleted_incidents := deleted_incidents st;
     scratchpad_list := scratchpad_list st;
     scratchpad_store := scratchpad_store st;
     clients := clients st; inactive := inactive st |}.

Definition set_deleted_incidents (f : gset string → gset string)
    (st : Server) : Server :=
  {| sku := sku st; records := records st; incidents := incidents st;
     deleted_incidents := f (deleted_incidents st);
     scratchpad_list := scratchpad_list st;
     scratchpad_store := scratchpad_store st;
     clients := clients st; inactive := inactive st |}.

Definition set_scratchpads (f : gset string → gset string)
    (g : gmap string Json → gmap string Json) (st : Server) : Server :=
  {| sku := sku st; records := records st; incidents := incidents st;
     deleted_incidents := deleted_incidents st;
     scratchpad_list := f (scratchpad_list st);
     scratchpad_store := g (scratchpad_store st);
     clients := clients st; inactive := inactive st |}.

Definition set_clients (f : list SessionClient → list SessionClient)
    (st : Server) : Server :=
  {| sku := sku st; records := records st; incidents := incidents st;
     deleted_incidents := deleted_incidents st;
     scratchpad_list := scratchpad_list st;
     scratchpad_store := scratchpad_store st;
     clients := f (clients st); inactive := inactive st |}.

Definition set_inactive (f : gset nat → gset nat) (st : Server) : Server :=
  {| sku := sku st; records := records st; incidents := incidents st;
     deleted_incidents := deleted_incidents st;
     scratchpad_list := scratchpad_list st;
     scratchpad_store := scratchpad_store st;
     clients := clients st; inactive := f (inactive st) |}.

(** *** Storage *)

Definition getScratchpad (id : string) : Handler (option Json) :=
  gets (λ st, scratchpad_store st !! ("scratchpad_" +:+ id)).

Definition setScratchpad (id : string) (scratchpad : Json) : Handler unit :=
  modify (set_scratchpads (λ list, list ∪ {[id]})
                          (<["scratchpad_" +:+ id := scratchpad]>)).

(** The order of the keys of the storage: the order of their UTF-8
    encodings, which on code units below 256 is the order of the code
    units. *)
Definition keyLe (a b : string) : Prop := String.leb a b = true.

#[global] Instance keyLe_dec a b : Decision (keyLe a b).
Proof. unfold keyLe. apply _. Defined.

(** The bulk [storage.get(ids)]: a [Map] of the entries found, which lists
    every key once and by increasing key, whatever the order of the
    request. *)
Definition getMany {A : Type} (store : gmap string A) (ids : list string)
    : list (string * A) :=
  omap (λ id, pair id <$> store !! id)
       (merge_sort keyLe (remove_dups ids)).

(** [groupIds]: [Math.ceil(ids.length / size)] slices of [size] ids. *)
Definition groupIds (ids : list string) (size : nat) : list (list string) :=
  let chunkCount := (length ids + size - 1) `div` size in
  (λ i, take size (drop (i * size) ids)) <$> seq 0 chunkCount.

Definition getAllScratchpads : Handler (gmap string Json) :=
  listSet ← gets scratchpad_list;
  let list := elements listSet in
  let bulkOps := groupIds list 128 in
  store ← gets scratchpad_store;
  let result := (λ ids, getMany store ids) <$> bulkOps in
  mret (fromEntries (mjoin result)).

Definition addIncident (incident : Incident) : Handler unit :=
  modify (set_records (<[id incident := incident]>)) ;;
  list ← gets incidents;
  let list := if decide (id incident ∈ list) then list
              else list ++ [id incident] in
  modify (set_incidents (λ _, list)).

Definition editIncident (incident : Incident) : Handler bool :=
  current ← gets (λ st, records st !! id incident);
  match current with
  | None => mret false
  | Some _ =>
      modify (set_records (<[id incident := incident]>)) ;;
      mret true
  end.

Definition getDeletedIncidents : Handler (gset string) :=
  gets deleted_incidents.

Definition deleteIncident (id : string) : Handler bool :=
  list ← gets incidents;
  let filtered := filter (λ value, value ≠ id) list in
  modify (set_incidents (λ _, filtered)) ;;
  deletedIncidents ← getDeletedIncidents;
  (if decide (id ∈ deletedIncidents) then mret tt
   else modify (set_deleted_incidents (λ _, deletedIncidents ∪ {[id]}))) ;;
  mret (negb (length list =? length filtered)).

Definition getIncident (id : string) : Handler (option Incident) :=
  gets (λ st, records st !! id).

Definition getIncidentList : Handler (list string) := gets incidents.

Definition getAllIncidents : Handler (list Incident) :=
  ids ← getIncidentList;
  let bulkOps := groupIds ids 128 in
  store ← gets records;
  let result := (λ ids, getMany store ids) <$> bulkOps in
  mret (mjoin ((λ map, snd <$> map) <$> result)).

Definition getData : Handler EventIncidentsData :=
  sku ← gets sku;
  incidents ← getAllIncidents;
  deleted ← getDeletedIncidents;
  mret {| data_sku := default "" sku;
          data_incidents := incidents;
          data_deleted := elements deleted |}.

Definition getInvitationList : Handler (list InvitationListItem) :=
  asks invitationList.

Definition getActiveUsers : Handler (list ShareUser) :=
  gets (λ st, user <$> filter (λ client, socket client ∉ inactive st)
                              (clients st)).

Definition createServerShareMessage : Handler WebSocketMessage :=
  data ← getData;
  activeUsers ← getActiveUsers;
  invitations ← getInvitationList;
  scratchpads ← getAllScratchpads;
  mret (server_share_info activeUsers invitations data scratchpads).

Definition createPayload (message : WebSocketMessage)
    (sender : WebSocketSender) : Handler WebSocketPayload :=
  date ← asks now;
  mret {| body := message; sender := sender; date := date |}.

(** *** Requests *)

Record Request : Type := {
  content : option Incident;     (* the parsed X-Referee-Content header *)
  header_user_name : string;     (* X-Referee-User-Name, "" when missing *)
  header_user_key : string;      (* X-Referee-User-Key, "" when missing *)
  param_id : option string;      (* the id parameter of the URL *)
}.

Record User : Type := { name : string; key : string }.

Definition getRequestBody (request : Request) : option Incident :=
  content request.

Definition getRequestUser (request : Request) : User :=
  {| name := header_user_name request; key := header_user_key request |}.

(** The sender attached to a broadcast that an HTTP request causes. *)
Definition senderOf (client : option SessionClient) : WebSocketSender :=
  match client with
  | Some client =>
      SenderClient (user_name (user client)) (user_id (user client))
  | None => SenderServer
  end.

Definition findClient (key : string) : Handler (option SessionClient) :=
  gets (λ st, List.find (λ v, bool_decide (user_id (user v) = key))
                        (clients st)).

(** *** Broadcast *)

Fixpoint forEach {A : Type} (l : list A) (f : A → Handler unit)
    : Handler unit :=
  match l with
  | [] => mret tt
  | x :: l => f x ;; forEach l f
  end.

(** The callback of [this.clients.filter] in [broadcast]: the payload is
    sent, or the [send] throws and the client is marked inactive. *)
Definition trySend (payload : WebSocketPayload) (client : SessionClient)
    : Handler unit :=
  failing ← asks (λ env, throws env (socket client));
  if failing : bool
  then modify (set_inactive (λ s, s ∪ {[socket client]}))
  else emit (Send (socket client) payload).

(** [broadcast]: every client is sent the payload; a client whose [send]
    throws is marked inactive, dropped from [this.clients] and announced to
    the remaining clients by a nested broadcast of [server_user_remove].
    The nesting is bounded by the fuel. *)
Fixpoint broadcast_fuel (fuel : nat) (message : WebSocketMessage)
    (sender : WebSocketSender) {struct fuel} : Handler unit :=
  match fuel with
  | 0 => mret tt
  | S fuel =>
      payload ← createPayload message sender;
      current ← gets clients;
      forEach current (trySend payload) ;;
      failing ← asks throws;
      let clientLefts :=
        filter (λ client, failing (socket client) = true) current in
      modify (set_clients
                (λ _, filter (λ client, failing (socket client) = false)
                             current)) ;;
      activeUsers ← getActiveUsers;
      invitations ← getInvitationList;
      forEach clientLefts (λ client,
        broadcast_fuel fuel
          (server_user_remove (user client) activeUsers invitations)
          SenderServer)
  end.

(** A nested broadcast runs on clients whose [send] went through, so one
    level of nesting per dropped client is all there is; the fuel below is
    never used up ([broadcast_fuel_enough]). *)
Definition broadcast (message : WebSocketMessage) (sender : WebSocketSender)
    : Handler unit :=
  current ← gets clients;
  broadcast_fuel (S (length current)) message sender.

(** *** HTTP handlers *)

Definition handleGet : Handler Response :=
  data ← createServerShareMessage;
  mret (Success (DataShareInfo data)).

Definition LF : string := String (Ascii.ascii_of_nat 10) EmptyString.

(** The characters matched by [/[\s\r\n]/] among the code units below 256. *)
Definition isSpace (c : Ascii.ascii) : bool :=
  bool_decide (Ascii.nat_of_ascii c ∈ [9; 10; 11; 12; 13; 32; 160]).

(** [s.replaceAll(/[...]/g, by)] for a character class. *)
Fixpoint replaceAll (class : Ascii.ascii → bool) (by_ : string) (s : string)
    : string :=
  match s with
  | EmptyString => EmptyString
  | String c s =>
      (if class c then by_ else String c EmptyString)
        +:+ replaceAll class by_ s
  end.

(** The decimal rendering of a non-negative integer, as a template literal
    or [Array.prototype.join] renders it. *)
Definition numberToString (n : N) : string :=
  NilZero.string_of_uint (N.to_uint n).

Definition matchToString (match_ : IncidentMatch) : string :=
  match match_ with
  | MatchRef _ name _ => name
  | SkillsRef skillsType attempt =>
      let display :=
        match skillsType with
        | programming => "Auto"
        | driver => "Driver"
        end in
      display +:+ " Skills " +:+ numberToString attempt
  end.

(** The cells of one data row, before they are joined by a comma. *)
Definition csvCells (isoTime : string) (incident : Incident) : list string :=
  let notes := replaceAll isSpace " " (notes incident) in
  let division :=
    match match_ incident with
    | Some (MatchRef division _ _) => numberToString division
    | _ => ""
    end in
  [ isoTime;
    isoTime;
    id incident;
    event incident;
    division;
    match match_ incident with
    | Some m => matchToString m
    | None => ""
    end;
    team incident;
    outcome incident;
    String.concat " " (rules incident);
    notes ].

Definition csvRow (iso : string → option string) (incident : Incident)
    : option string :=
  isoTime ← iso (time incident);
  Some (String.concat "," (csvCells isoTime incident)).

Definition csvHeader : string :=
  "Date,Time,ID,SKU,Division,Match,Team,Outcome,Rules,Notes".

(** [handleCSV]; the result is [None] when a stored time is not a valid date
    and [toISOString] throws. *)
Definition handleCSV : Handler (option string) :=
  incidents ← getAllIncidents;
  iso ← asks toISOString;
  let output := csvHeader +:+ LF in
  mret (rows ← mapM (csvRow iso) incidents;
        Some (output +:+ String.concat LF rows)).

Definition handleJSON : Handler Response :=
  incidents ← getAllIncidents;
  mret (Success (DataIncidents incidents)).

Definition handleAddIncident (request : Request) : Handler Response :=
  let user := getRequestUser request in
  client ← findClient (key user);
  let sender := senderOf client in
  match getRequestBody request with
  | None => mret (Failure bad_request "Must specify a valid incident.")
  | Some incident =>
      deleted ← getDeletedIncidents;
      if decide (id incident ∈ deleted) then
        mret (Failure bad_request "That incident has been deleted.")
      else
        addIncident incident ;;
        broadcast (add_incident incident) sender ;;
        mret (Success (DataIncident incident))
  end.

Definition with_revision (incident : Incident) (revision : Revision)
    : Incident :=
  {| id := id incident; time := time incident; event := event incident;
     match_ := match_ incident; team := team incident;
     outcome := outcome incident; rules := rules incident;
     notes := notes incident; revision := Some revision |}.

Definition handleEditIncident (request : Request) : Handler Response :=
  match getRequestBody request with
  | None =>
      mret (Failure bad_request "Must specify a valid incident to edit.")
  | Some incident =>
      deletedIncidents ← getDeletedIncidents;
      if decide (id incident ∈ deletedIncidents) then
        mret (Failure bad_request "That incident has been deleted.")
      else
        let user := getRequestUser request in
        client ← findClient (key user);
        currentIncident ← getIncident (id incident);
        let sender := senderOf client in
        let currentRevision :=
          default 0%Z (count <$> (currentIncident ≫= revision)) in
        if match revision incident with
           | Some r => bool_decide (count r < currentRevision)%Z
           | None => false
           end
        then
          mret (Failure bad_request
                  "The incident has been edited more recently.")
        else
          let revision :=
            match revision incident with
            | Some r => r
            | None => {| count := 1; Api.user := sender; history := [] |}
            end in
          let incident := with_revision incident revision in
          success ← editIncident incident;
          if negb success then
            mret (Failure bad_request "Could not edit incident with that ID")
          else
            broadcast (update_incident incident) sender ;;
            mret (Success (DataRevision revision))
  end.

Definition handleDeleteIncident (request : Request) : Handler Response :=
  let user := getRequestUser request in
  client ← findClient (key user);
  let sender := senderOf client in
  match param_id request with
  | None | Some EmptyString =>
      mret (Failure bad_request "Must specify `id` of incident to delete")
  | Some id =>
      success ← deleteIncident id;
      if negb success then
        mret (Failure bad_request "Could not find incident with that ID")
      else
        broadcast (remove_incident id) sender ;;
        mret (Success DataEmpty)
  end.

(** *** Socket sessions *)

(** The [message] listener of a session.  [client] is the client object the
    listener closes over; a frame that does not parse is not modelled. *)
Definition onMessage (client : SessionClient) (data : WebSocketMessage)
    : Handler unit :=
  active ← gets (λ st, bool_decide (socket client ∉ inactive st));
  if negb active then emit (Close (socket client) 1011 "WebSocket broken.")
  else
    let sender :=
      SenderClient (user_name (user client)) (user_id (user client)) in
    match data with
    | add_incident incident =>
        addIncident incident ;;
        broadcast (add_incident incident) sender
    | update_incident incident =>
        editIncident incident ;;
        broadcast (update_incident incident) sender
    | remove_incident id =>
        deleteIncident id ;;
        broadcast (remove_incident id) sender
    | scratchpad_update id scratchpad =>
        setScratchpad id scratchpad ;;
        broadcast (scratchpad_update id scratchpad) sender
    | message text => broadcast (message text) sender
    | _ => mret tt
    end.

(** The [close] and [error] listener of a session. *)
Definition quitHandler (client : SessionClient) : Handler unit :=
  modify (set_inactive (λ s, s ∪ {[socket client]})) ;;
  modify (set_clients
            (filter (λ member, socket member ≠ socket client))) ;;
  activeUsers ← getActiveUsers;
  invitations ← getInvitationList;
  broadcast (server_user_remove (user client) activeUsers invitations)
            SenderServer.

(** [handleSession]; the result tells whether the snapshot was sent, that
    is, whether the final [socket.send] did not throw. *)
Definition handleSession (socket : nat) (ip : string) (user : ShareUser)
    : Handler bool :=
  let client := {| socket := socket; ip := ip; user := user |} in
  modify (set_inactive (λ s, s ∖ {[socket]})) ;;

  (* Ensure that clients aren't listed twice *)
  modify (set_clients
            (λ clients,
               filter (λ c, user_id (Sync.user c) ≠ user_id user) clients
                 ++ [client])) ;;

  activeUsers ← getActiveUsers;
  invitations ← getInvitationList;

  broadcast (server_user_add user activeUsers invitations) SenderServer ;;

  activeUsers ← getActiveUsers;
  data ← getData;
  scratchpads ← getAllScratchpads;
  let state := server_share_info activeUsers invitations data scratchpads in

  payload ← createPayload state SenderServer;
  failing ← asks (λ env, throws env socket);
  if failing : bool then mret false
  else emit (Send socket payload) ;; mret true.

(** *** Vocabulary for the statements about handlers *)

(** A client whose socket accepts a [send]. *)
Definition healthy (env : Env) (client : SessionClient) : Prop :=
  throws env (socket client) = false.

#[global] Instance healthy_dec env client : Decision (healthy env client).
Proof. unfold healthy. apply _. Defined.

(** The payload [createPayload] builds in the environment [env]. *)
Definition payloadOf (env : Env) (message : WebSocketMessage)
    (sender : WebSocketSender) : WebSocketPayload :=
  {| body := message; sender := sender; date := now env |}.

(** One [send] of the payload per client, in the order of the list. *)
Definition sends (payload : WebSocketPayload) (cs : list SessionClient)
    : list Effect :=
  (λ client, Send (socket client) payload) <$> cs.

(** The state a broadcast leaves: the clients whose [send] threw are marked
    inactive and dropped. *)
Definition afterBroadcast (env : Env) (st : Server) : Server :=
  set_clients (λ _, filter (healthy env) (clients st))
    (set_inactive
       (λ s, s ∪ list_to_set
                   (socket <$> filter (λ c, throws env (socket c) = true)
                                      (clients st)))
       st).

(** What a broadcast emits: the payload to every healthy client, then one
    [server_user_remove] round per dropped client. *)
Definition broadcastTrace (env : Env) (st : Server) (m : WebSocketMessage)
    (s : WebSocketSender) : list Effect :=
  let kept := filter (healthy env) (clients st) in
  let activeUsers :=
    user <$> filter (λ c, socket c ∉ inactive (afterBroadcast env st)) kept in
  sends (payloadOf env m s) kept
  ++ mjoin ((λ client,
               sends (payloadOf env
                        (server_user_remove (user client) activeUsers
                           (invitationList env))
                        SenderServer) kept)
            <$> filter (λ c, throws env (socket c) = true) (clients st)).

(** [currentIncident?.revision?.count ?? 0] *)
Definition currentRevision (st : Server) (id : string) : Z :=
  default 0%Z (count <$> (records st !! id ≫= revision)).

(** The sender [handleEditIncident] and its siblings attach to a broadcast. *)
Definition requestSender (st : Server) (request : Request)
    : WebSocketSender :=
  senderOf (List.find
              (λ v, bool_decide (user_id (user v) = key (getRequestUser request)))
              (clients st)).

(** The revision a PATCH body ends up with. *)
Definition effectiveRevision (st : Server) (request : Request)
    (incident : Incident) : Revision :=
  match revision incident with
  | Some r => r
  | None => {| count := 1; Api.user := requestSender st request;
               history := [] |}
  end.

(** The server once a joining client replaced the sessions of its peer id:
    the first two steps of [handleSession]. *)
Definition joined (socket : nat) (ip : string) (user : ShareUser)
    (st : Server) : Server :=
  set_clients
    (λ clients,
       filter (λ c, user_id (Sync.user c) ≠ user_id user) clients
         ++ [{| socket := socket; ip := ip; user := user |}])
    (set_inactive (λ s, s ∖ {[socket]}) st).

(** The peer ids of the registered sessions. *)
Definition sessionIds (st : Server) : list string :=
  (λ c, user_id (user c)) <$> clients st.

(** The text before the first line feed. *)
Fixpoint firstLine (s : string) : string :=
  match s with
  | EmptyString => EmptyString
  | String c s =>
      if Ascii.eqb c (Ascii.ascii_of_nat 10) then EmptyString
      else String c (firstLine s)
  end.

(** The characters the specification of the export names. *)
Definition TAB : Ascii.ascii := Ascii.ascii_of_nat 9.
Definition NL : Ascii.ascii := Ascii.ascii_of_nat 10.
Definition CR : Ascii.ascii := Ascii.ascii_of_nat 13.
Definition SPACE : Ascii.ascii := Ascii.ascii_of_nat 32.

(** *** The server as a transition system *)

(** What the durable object reacts to: a routed HTTP request, a socket that
    is opened, a frame on a session, a session that is closed. *)
Inductive Event : Type :=
  | HttpGet
  | HttpCSV
  | HttpJSON
  | HttpAdd (request : Request)
  | HttpEdit (request : Request)
  | HttpDelete (request : Request)
  | SocketOpen (socket : nat) (ip : string) (user : ShareUser)
  | SocketMessage (client : SessionClient) (data : WebSocketMessage)
  | SocketClose (client : SessionClient).

Definition handle (event : Event) : Handler unit :=
  match event with
  | HttpGet => handleGet ;; mret tt
  | HttpCSV => handleCSV ;; mret tt
  | HttpJSON => handleJSON ;; mret tt
  | HttpAdd request => handleAddIncident request ;; mret tt
  | HttpEdit request => handleEditIncident request ;; mret tt
  | HttpDelete request => handleDeleteIncident request ;; mret tt
  | SocketOpen socket ip user => handleSession socket ip user ;; mret tt
  | SocketMessage client data => onMessage client data
  | SocketClose client => quitHandler client
  end.

(** A fresh durable object: empty storage, no session. *)
Definition initial : Server :=
  {| sku := None; records := ∅; incidents := []; deleted_incidents := ∅;
     scratchpad_list := ∅; scratchpad_store := ∅; clients := [];
     inactive := ∅ |}.

(** The states the server goes through, whatever the events and whatever
    the environment of each. *)
Inductive reachable : Server → Prop :=
  | reachable_initial : reachable initial
  | reachable_step st env event :
      reachable st → reachable ((handle event env st).1.2).

(** A handler that never adds a session. *)
Definition shrinks {A : Type} (h : Handler A) : Prop :=
  ∀ env st, clients (h env st).1.2 `sublist_of` clients st.

(** The server after a run of events, each in the environment it meets. *)
Fixpoint drive (events : list (Env * Event)) (st : Server) : Server :=
  match events with
  | [] => st
  | (env, event) :: events => drive events (handle event env st).1.2
  end.

(** [Q] holds of the result of a handler, of the state it leaves and of the
    effects it emits. *)
Definition wp {A : Type} (h : Handler A) (env : Env) (st : Server)
    (Q : A → Server → list Effect → Prop) : Prop :=
  Q (h env st).1.1 (h env st).1.2 (h env st).2.

(** The ids under which an event stores an incident, if it stores one. *)
Definition storedIds (event : Event) : list string :=
  match event with
  | HttpAdd request | HttpEdit request =>
      match getRequestBody request with
      | Some incident => [id incident]
      | None => []
      end
  | SocketMessage _ (add_incident incident)
  | SocketMessage _ (update_incident incident) => [id incident]
  | _ => []
  end.

(** An event that stores no incident under a key of another kind. *)
Definition plain (event : Event) : Prop :=
  Forall incidentKey (storedIds event).

#[global] Instance plain_dec event : Decision (plain event).
Proof. unfold plain. apply _. Defined.

(** No record is stored under a key of another kind. *)
Definition records_apart (st : Server) : Prop :=
  map_Forall (λ key _, incidentKey key) (records st).

#[global] Instance records_apart_dec st : Decision (records_apart st).
Proof. unfold records_apart. apply _. Defined.

(** The incident list names no id twice, every record is stored under its
    own id, and every listed id has a record. *)
Definition listed_stored (st : Server) : Prop :=
  NoDup (incidents st)
  ∧ map_Forall (λ key incident, id incident = key) (records st)
  ∧ Forall (λ id, is_Some (records st !! id)) (incidents st).

#[global] Instance listed_stored_dec st : Decision (listed_stored st).
Proof. unfold listed_stored. apply _. Defined.

(** Every registered session is active. *)
Definition sessions_active (st : Server) : Prop :=
  Forall (λ client, socket client ∉ inactive st) (clients st).

#[global] Instance sessions_active_dec st : Decision (sessions_active st).
Proof. unfold sessions_active. apply _. Defined.

(** No listed id is tombstoned. *)
Definition apart (st : Server) : Prop :=
  Forall (λ id, id ∉ deleted_incidents st) (incidents st).

#[global] Instance apart_dec st : Decision (apart st).
Proof. unfold apart. apply _. Defined.

(** An [add_incident] frame on a session. *)
Definition isSocketAdd (event : Event) : bool :=
  match event with
  | SocketMessage _ (add_incident _) => true
  | _ => false
  end.

(** The scratchpad entries of the storage are those of the listed ids, each
    under its prefixed key. *)
Definition scratchpads_indexed (st : Server) : Prop :=
  dom (scratchpad_store st)
  = set_map (String.append "scratchpad_") (scratchpad_list st).

#[global] Instance scratchpads_indexed_dec st
  : Decision (scratchpads_indexed st).
Proof. unfold scratchpads_indexed. apply _. Defined.

End Sync.

(** ** src/utils/data/scratchpad.ts and src/utils/data/incident.ts *)

Module Client.

Import Api.

(** A stored object that carries a revision: a [MatchScratchpad] or an
    [IncidentWithID].  [props] holds every own property but [revision]. *)
Record Revised : Type := {
  props : gmap string Json;
  revision : option Revision;
}.

(** The key-value store of the device.  In the code it is one store: the
    scratchpads and the incidents live under their id, the lists and sets of
    ids under [incidents] and under keys that end in [_idx].  Here [objects]
    holds what is stored under ids and [scratchpad_idx] the sets stored under
    [scratchpad_<event>_idx], by event.  The two agree with the store of the
    code as long as no object is stored under a key of a list ([listKey]);
    the statements about ids say so. *)
Record Store : Type := {
  objects : gmap string Revised;
  scratchpad_idx : gmap string (gset string);
}.

(** [s.endsWith(suffix)] *)
Definition endsWith (s suffix : string) : bool :=
  String.eqb
    (String.substring (String.length s - String.length suffix)
                      (String.length suffix) s)
    suffix.

(** A key under which the store holds a list or a set of ids. *)
Definition listKey (key : string) : bool :=
  String.eqb key "incidents" || endsWith key "_idx".

(** What an edit sends to the share connection. *)
Inductive Outbound : Type :=
  | updateScratchpad (id : string) (value : Revised)
  | editServerIncident (value : Revised).

(** [{ ...object, ...patch }] on the properties other than [revision]. *)
Definition spread (object : gmap string Json) (patch : list (string * Json))
    : gmap string Json :=
  foldl (λ m kv, if decide (kv.1 = "revision") then m
                 else <[kv.1 := kv.2]> m)
        object patch.

(** [current.revision ?? { count: 0, user, history: [] }], then
    [revision.count += 1] and [revision.history.push(...)]. *)
Definition bump (current : option Revision) (user : WebSocketSender)
    (date : string) (changes : list Change) : Revision :=
  let revision :=
    default {| count := 0; Api.user := user; history := [] |} current in
  {| count := count revision + 1;
     Api.user := Api.user revision;
     history := history revision
                  ++ [{| item_user := user; item_date := date;
                         changes := changes |}] |}.

Section Edits.

(** [JSON.stringify] on a defined value; on [undefined] it is [undefined]. *)
Variable JSON_stringify : Json → string.

Definition stringify (value : option Json) : option string :=
  JSON_stringify <$> value.

(** The loop of [editScratchpad] over [Object.entries(scratchpad)]. *)
Definition scratchpadChanges (current : Revised)
    (scratchpad : list (string * Json)) : list Change :=
  omap (λ entry,
          let key := entry.1 in
          let currentValue := Some entry.2 in
          if decide (key ∈ ["event"; "match"; "revision"; "game"]) then None
          else
            let newValue := props current !! key in
            if decide (stringify currentValue ≠ stringify newValue) then
              Some {| property := key; old := currentValue;
                      new := newValue |}
            else None)
       scratchpad.

Definition setMatchScratchpad (id : string) (scratchpad : Revised)
    (store : Store) : Store :=
  let event :=
    match props scratchpad !! "event" with
    | Some (JStr sku) => sku
    | _ => "undefined"
    end in
  {| objects := <[id := scratchpad]> (objects store);
     scratchpad_idx :=
       <[event := default ∅ (scratchpad_idx store !! event) ∪ {[id]}]>
         (scratchpad_idx store) |}.

(** [editScratchpad(id, scratchpad)], with the sender and the clock it
    reads.  The result is the new store and what was sent. *)
Definition editScratchpad (id : string) (scratchpad : list (string * Json))
    (user : WebSocketSender) (date : string) (store : Store)
    : Store * list Outbound :=
  match objects store !! id with
  | None => (store, [])
  | Some current =>
      let changes := scratchpadChanges current scratchpad in
      if length changes <? 1 then (store, [])
      else
        let revision := bump (revision current) user date changes in
        let value :=
          {| props := spread (props current) scratchpad;
             revision := Some revision |} in
        (setMatchScratchpad id value store, [updateScratchpad id value])
  end.

(** The loop of [editIncident] over [Object.entries(current)]. *)
Definition incidentChanges (current : Revised)
    (incident : list (string * Json)) : list Change :=
  omap (λ entry,
          let key := entry.1 in
          let currentValue := Some entry.2 in
          if decide (key = "revision" ∨ key = "team" ∨ key = "event")
          then None
          else
            let newValue := fromEntries incident !! key in
            if decide (stringify currentValue ≠ stringify newValue) then
              Some {| property := key; old := currentValue;
                      new := newValue |}
            else None)
       (map_to_list (props current)).

(** [getIncident(id)]: the stored value with its [id] property set. *)
Definition getIncident (id : string) (store : Store) : option Revised :=
  value ← objects store !! id;
  Some {| props := <["id" := JStr id]> (props value);
          revision := revision value |}.

(** [editIncident(id, incident, updateRemote)] *)
Definition editIncident (id : string) (incident : list (string * Json))
    (updateRemote : bool) (user : WebSocketSender) (date : string)
    (store : Store) : Store * list Outbound :=
  match getIncident id store with
  | None => (store, [])
  | Some current =>
      let changes := incidentChanges current incident in
      let revision := bump (revision current) user date changes in
      let updatedIncident :=
        {| props := spread (props current) incident;
           revision := Some revision |} in
      ({| objects := <[id := updatedIncident]> (objects store);
          scratchpad_idx := scratchpad_idx store |},
       if updateRemote then [editServerIncident updatedIncident] else [])
  end.

End Edits.

(** *** Reading scratchpads *)

Definition getMatchScratchpad (id : string) (store : Store)
    : option Revised :=
  objects store !! id.

Definition getScratchpadIdsForEvent (sku : string) (store : Store)
    : gset string :=
  default ∅ (scratchpad_idx store !! sku).

(** *** getDefaultScratchpad *)

(** The fields of [MatchData] that the scratchpads read. *)
Record MatchData : Type := {
  match_event_code : string;
  match_division_id : Z;
  match_name : string;
  match_id : Z;
}.

Inductive SupportedGame : Type := HighStakes | RapidRelay.

Definition gameName (game : SupportedGame) : string :=
  match game with
  | HighStakes => "High Stakes"
  | RapidRelay => "Rapid Relay"
  end.

Definition getDefaultScratchpad (match_ : MatchData) (user : WebSocketSender)
    (game : SupportedGame) : Revised :=
  let base : gmap string Json :=
    list_to_map
      [("event", JStr (match_event_code match_));
       ("match",
        JObj [("type", JStr "match");
              ("division", JNum (match_division_id match_));
              ("name", JStr (match_name match_));
              ("id", JNum (match_id match_))]);
       ("game", JStr (gameName game));
       ("notes", JStr "")] in
  let revision := {| count := 0; Api.user := user; history := [] |} in
  match game with
  | HighStakes =>
      {| props :=
           <["auto" := JStr "none"]>
             (<["awp" := JObj [("red", JBool false); ("blue", JBool false)]]>
                base);
         revision := Some revision |}
  | RapidRelay => {| props := base; revision := Some revision |}
  end.

(** A revision whose count is the number of its history items. *)
Definition counted (value : Revised) : Prop :=
  match revision value with
  | Some r => count r = Z.of_nat (length (history r))
  | None => True
  end.

#[global] Instance counted_dec value : Decision (counted value).
Proof. unfold counted. destruct (revision value); apply _. Defined.

(** *** The incident indices of src/utils/data/incident.ts *)

(** The key-value store of the device with its lists of ids: the list of all
    incidents ([incidents]) and the indices by event and by team, live and
    deleted ([event_<sku>_idx], [team_<number>_idx], [deleted_event_<sku>_idx],
    [deleted_team_<number>_idx]), each under its key.  In the code the lists
    live in the same store as the objects; [kv_lists] keeps them apart, which
    agrees with the code as long as no object is stored under the key of a
    list ([listKey]); the statements about ids say so. *)
Record KeyVal : Type := {
  kv_store : Store;
  kv_lists : gmap string (list string);
}.

Definition set_store (f : Store → Store) (kv : KeyVal) : KeyVal :=
  {| kv_store := f (kv_store kv); kv_lists := kv_lists kv |}.

Definition set_lists
    (f : gmap string (list string) → gmap string (list string))
    (kv : KeyVal) : KeyVal :=
  {| kv_store := kv_store kv; kv_lists := f (kv_lists kv) |}.

(** What the incident functions send to the share server. *)
Inductive Remote : Type :=
  | addServerIncident (value : Revised)
  | deleteServerIncident (id : string) (event : string).

(** A string property inside a template literal; [event] and [team] are
    strings in every incident. *)
Definition render (value : option Json) : string :=
  match value with
  | Some (JStr s) => s
  | _ => "undefined"
  end.

Definition eventOf (incident : Revised) : string :=
  render (props incident !! "event").

Definition teamOf (incident : Revised) : string :=
  render (props incident !! "team").

Record IncidentIndices : Type := {
  idx_event : list string;
  idx_team : list string;
}.

(** [{ id: ids[i], ...v }]: the id of the key unless the value has its own. *)
Definition getManyIncidents (ids : list string) (kv : KeyVal)
    : list (option Revised) :=
  (λ id, (λ v, {| props := props v ∪ {[ "id" := JStr id ]};
                  revision := revision v |})
           <$> objects (kv_store kv) !! id) <$> ids.

Definition getIncidentIndices (incident : Revised) (kv : KeyVal)
    : IncidentIndices :=
  {| idx_event :=
       default [] (kv_lists kv !! ("event_" +:+ eventOf incident +:+ "_idx"));
     idx_team :=
       default [] (kv_lists kv !! ("team_" +:+ teamOf incident +:+ "_idx")) |}.

Definition setIncidentIndices (incident : Revised)
    (indices : IncidentIndices) (kv : KeyVal) : KeyVal :=
  set_lists
    (λ lists,
       <["team_" +:+ teamOf incident +:+ "_idx" := idx_team indices]>
         (<["event_" +:+ eventOf incident +:+ "_idx" := idx_event indices]>
            lists))
    kv.

Definition getDeletedIncidentIndices (incident : Revised) (kv : KeyVal)
    : IncidentIndices :=
  {| idx_event :=
       default []
         (kv_lists kv !! ("deleted_event_" +:+ eventOf incident +:+ "_idx"));
     idx_team :=
       default []
         (kv_lists kv !! ("deleted_team_" +:+ teamOf incident +:+ "_idx")) |}.

Definition setDeletedIncidentIndices (incident : Revised)
    (indices : IncidentIndices) (kv : KeyVal) : KeyVal :=
  set_lists
    (λ lists,
       <["deleted_team_" +:+ teamOf incident +:+ "_idx" := idx_team indices]>
         (<["deleted_event_" +:+ eventOf incident +:+ "_idx"
              := idx_event indices]> lists))
    kv.

Definition repairIndices (id : string) (incident : Revised) (kv : KeyVal)
    : KeyVal :=
  let indices := getIncidentIndices incident kv in
  let event :=
    if decide (id ∈ idx_event indices) then idx_event indices
    else idx_event indices ++ [id] in
  let team :=
    if decide (id ∈ idx_team indices) then idx_team indices
    else idx_team indices ++ [id] in
  let dirty :=
    negb (bool_decide (id ∈ idx_event indices))
    || negb (bool_decide (id ∈ idx_team indices)) in
  if dirty
  then setIncidentIndices incident {| idx_event := event; idx_team := team |}
                          kv
  else kv.

Definition hasIncident (id : string) (kv : KeyVal) : bool :=
  bool_decide (is_Some (objects (kv_store kv) !! id)).

Definition setIncident (id : string) (incident : Revised) (kv : KeyVal)
    : KeyVal :=
  set_store (λ store, {| objects := <[id := incident]> (objects store);
                         scratchpad_idx := scratchpad_idx store |})
            kv.

(** [newIncident(incident, updateRemote, id)]; the id is the one given or the
    one generated. *)
Definition newIncident (incident : Revised) (updateRemote : bool)
    (id : string) (kv : KeyVal) : KeyVal * list Remote :=
  let kv := setIncident id incident kv in

  (* Index Properly *)
  let indices := getIncidentIndices incident kv in
  let event := idx_event indices ++ [id] in
  let team := idx_team indices ++ [id] in
  let kv :=
    setIncidentIndices incident {| idx_event := event; idx_team := team |}
                       kv in

  let all := default [] (kv_lists kv !! "incidents") in
  let kv := set_lists (<["incidents" := all ++ [id]]>) kv in
  (kv,
   if updateRemote
   then [addServerIncident {| props := <["id" := JStr id]> (props incident);
                              revision := revision incident |}]
   else []).

(** [deleteIncident(id, updateRemote)]; [accepted] tells whether the event
    has an invitation and the invitation is accepted. *)
Definition deleteIncident (id : string) (updateRemote : bool)
    (accepted : bool) (kv : KeyVal) : KeyVal * list Remote :=
  match getIncident id (kv_store kv) with
  | None => (kv, [])
  | Some incident =>
      let indices := getIncidentIndices incident kv in
      let kv :=
        setIncidentIndices incident
          {| idx_event := filter (λ i, i ≠ id) (idx_event indices);
             idx_team := filter (λ i, i ≠ id) (idx_team indices) |}
          kv in
      let deleted := getDeletedIncidentIndices incident kv in
      let kv :=
        setDeletedIncidentIndices incident
          {| idx_event := idx_event deleted ++ [id];
             idx_team := idx_team deleted ++ [id] |}
          kv in
      (kv,
       if updateRemote && accepted
       then [deleteServerIncident id (eventOf incident)]
       else [])
  end.

Definition getAllIncidents (kv : KeyVal) : list Revised :=
  match kv_lists kv !! "incidents" with
  | None => []
  | Some ids =>
      let incidents := getManyIncidents ids kv in
      omap (λ i, i) incidents
  end.

Definition getIncidentsByEvent (event : string) (kv : KeyVal)
    : list Revised :=
  match kv_lists kv !! ("event_" +:+ event +:+ "_idx") with
  | None => []
  | Some ids =>
      let incidents := getManyIncidents ids kv in
      omap (λ i, i) incidents
  end.

Definition getIncidentsByTeam (team : string) (kv : KeyVal) : list Revised :=
  match kv_lists kv !! ("team_" +:+ team +:+ "_idx") with
  | None => []
  | Some ids =>
      let incidents := getManyIncidents ids kv in
      omap (λ i, i) incidents
  end.

End Client.

(** ** Fixtures: the maps of map.test.ts and of the scenarios of section 8 *)

Module Fixtures.

Import LWW ConsistentMap.

Definition ignore : list string := ["id"; "event"; "team"].

Definition incident1 : gmap string Json :=
  list_to_map [("id", JStr "incident1"); ("event", JStr "RE-VRC-23-3690");
               ("team", JStr "3796B"); ("rule", JStr "<SG11>");
               ("note", JStr "Expansion")].

(** "new local entries uploaded" *)
Definition uploaded_local : ConsistentMap :=
  {| deleted := [];
     values := {[ "incident1" := initLWW incident1 "LOCAL" ignore ]} |}.

Definition uploaded_remote : ConsistentMap :=
  {| deleted := ["incident12"]; values := ∅ |}.

(** Scenario A: the incident a peer still holds was deleted by another. *)
Definition tombstoned_remote : ConsistentMap :=
  {| deleted := ["incident1"]; values := ∅ |}.

(** "remote update handled" *)
Definition edited_local : ConsistentMap :=
  {| deleted := ["incident12"];
     values :=
       {[ "incident1" :=
            updateLWW (initLWW incident1 "REMOTE" ignore) "note"
                      (JStr "Expansion BMM EDIT") "LOCAL" ]} |}.

Definition edited_remote : ConsistentMap :=
  {| deleted := [];
     values :=
       {[ "incident1" :=
            updateLWW (initLWW incident1 "REMOTE" ignore) "rule"
                      (JStr "<SG8>") "REMOTE" ]} |}.

(** "deleted values merged" *)
Definition deleted_local : ConsistentMap :=
  {| deleted := ["incident1"; "incident2"; "incident3"]; values := ∅ |}.

Definition deleted_remote : ConsistentMap :=
  {| deleted := ["incident3"; "incident4"; "incident5"]; values := ∅ |}.

(** Two peers write the same note independently: the counts tie, the values
    are equal, the writers differ. *)
Definition same_edit (writer : string) : ConsistentMap :=
  {| deleted := [];
     values :=
       {[ "incident1" :=
            updateLWW (initLWW incident1 "P" ignore) "note"
                      (JStr "Expansion, 2 rings") writer ]} |}.

(** The same incident initialised twice by one peer with different notes:
    the counts tie, the values differ and the writers are equal. *)
Definition initialised (note : string) : ConsistentMap :=
  {| deleted := [];
     values :=
       {[ "incident1" :=
            initLWW (<["note" := JStr note]> incident1) "P" ignore ]} |}.

(** The objects of lww.test.ts: [{ a, constant }] with [constant] ignored. *)
Definition baseObject (a : Json) (writer : string) (count : N)
    (history : list (Json * string)) : Envelope :=
  {| fields := list_to_map [("a", a); ("constant", JStr "Constant")];
     consistency :=
       {[ "a" := {| LWW.count := count; peer := writer;
                    LWW.history := history |} ]} |}.

(** [{ a: { b }, c, constant }] with the metadata of [a] and of [c]. *)
Definition complexObject (b : Z) (c : string) (metaA metaC : FieldMeta)
    : Envelope :=
  {| fields := list_to_map [("a", JObj [("b", JNum b)]); ("c", JStr c);
                            ("constant", JStr "Constant")];
     consistency := list_to_map [("a", metaA); ("c", metaC)] |}.

(** A server with one stored incident, one tombstone and two sessions; the
    socket of the second session is broken. *)

Definition alice : Api.ShareUser :=
  {| Api.user_id := "key-alice"; Api.user_name := "Alice" |}.

Definition bob : Api.ShareUser :=
  {| Api.user_id := "key-bob"; Api.user_name := "Bob" |}.

Definition stored1 : Api.Incident :=
  {| Api.id := "incident1";
     Api.time := "2024-03-09T15:04:05.000Z";
     Api.event := "RE-VRC-23-3690";
     Api.match_ := Some (Api.MatchRef 1 "Qualifier 12" 77);
     Api.team := "3796B";
     Api.outcome := "Minor";
     Api.rules := ["<SG11>"; "<G1>"];
     Api.notes := "Expansion" +:+ String Sync.TAB "early"
                  +:+ String Sync.CR (String Sync.NL "second line");
     Api.revision :=
       Some {| Api.count := 3; Api.user := Api.SenderServer;
               Api.history := [] |} |}.

(** An edit of [stored1] made from its second revision. *)
Definition stalePatch : Api.Incident :=
  {| Api.id := "incident1";
     Api.time := "2024-03-09T15:04:05.000Z";
     Api.event := "RE-VRC-23-3690";
     Api.match_ := Some (Api.SkillsRef Api.programming 2);
     Api.team := "3796B";
     Api.outcome := "Major";
     Api.rules := ["<SG11>"];
     Api.notes := "late";
     Api.revision :=
       Some {| Api.count := 2; Api.user := Api.SenderServer;
               Api.history := [] |} |}.

(** An edit sent without any revision. *)
Definition barePatch : Api.Incident :=
  {| Api.id := "incident1";
     Api.time := "2024-03-09T15:04:05.000Z";
     Api.event := "RE-VRC-23-3690";
     Api.match_ := None;
     Api.team := "3796B";
     Api.outcome := "Major";
     Api.rules := [];
     Api.notes := "late";
     Api.revision := None |}.

(** An incident whose id is tombstoned on [server0]. *)
Definition revived : Api.Incident :=
  {| Api.id := "incident0";
     Api.time := "2024-03-09T14:00:00.000Z";
     Api.event := "RE-VRC-23-3690";
     Api.match_ := None;
     Api.team := "3796B";
     Api.outcome := "General";
     Api.rules := [];
     Api.notes := "";
     Api.revision := None |}.

Definition session1 : Sync.SessionClient :=
  {| Sync.user := alice; Sync.socket := 1; Sync.ip := "10.0.0.1" |}.

Definition session2 : Sync.SessionClient :=
  {| Sync.user := bob; Sync.socket := 2; Sync.ip := "10.0.0.2" |}.

Definition server0 : Sync.Server :=
  {| Sync.sku := Some "RE-VRC-23-3690";
     Sync.records := {[ "incident1" := stored1 ]};
     Sync.incidents := ["incident1"];
     Sync.deleted_incidents := {[ "incident0" ]};
     Sync.scratchpad_list := ∅;
     Sync.scratchpad_store := ∅;
     Sync.clients := [session1; session2];
     Sync.inactive := ∅ |}.

Definition env0 : Sync.Env :=
  {| Sync.now := "2024-03-09T16:00:00.000Z";
     Sync.throws := λ socket, socket =? 2;
     Sync.invitationList := [];
     Sync.toISOString := Some |}.

Definition requestOf (body : option Api.Incident) (id : option string)
    : Sync.Request :=
  {| Sync.content := body;
     Sync.header_user_name := "Alice";
     Sync.header_user_key := "key-alice";
     Sync.param_id := id |}.

(** A scratchpad on the device, and a serializer to compare values with. *)
Definition quote (s : string) : string :=
  String (Ascii.ascii_of_nat 34) s +:+ String (Ascii.ascii_of_nat 34) "".

Definition showAtom (value : Json) : string :=
  match value with
  | JNull => "null"
  | JBool true => "true"
  | JBool false => "false"
  | JNum n => if (n <? 0)%Z then "-" +:+ Sync.numberToString (Z.to_N (- n))
              else Sync.numberToString (Z.to_N n)
  | JStr s => quote s
  | JArr _ => "[...]"
  | JObj _ => "{...}"
  end.

Definition scratchpad1 : Client.Revised :=
  {| Client.props :=
       list_to_map [("event", JStr "RE-VRC-23-3690"); ("game", JStr "High Stakes");
                    ("notes", JStr ""); ("auto", JStr "none")];
     Client.revision := None |}.

Definition store0 : Client.Store :=
  {| Client.objects := {[ "scratchpad_RE-VRC-23-3690_1_Q12" := scratchpad1 ]};
     Client.scratchpad_idx := ∅ |}.

(** An incident that [server0] has never seen. *)
Definition fresh : Api.Incident :=
  {| Api.id := "incident2";
     Api.time := "2024-03-09T15:30:00.000Z";
     Api.event := "RE-VRC-23-3690";
     Api.match_ := Some (Api.MatchRef 1 "Qualifier 14" 79);
     Api.team := "8059A";
     Api.outcome := "Major";
     Api.rules := ["<G1>"];
     Api.notes := "";
     Api.revision := None |}.

(** A run of events on [server0]: an incident is added over HTTP, two
    scratchpads are written from the first session, the stored incident is
    deleted over HTTP and the first session goes away. *)
Definition script : list (Sync.Env * Sync.Event) :=
  [(env0, Sync.HttpAdd (requestOf (Some fresh) None));
   (env0, Sync.SocketMessage session1
            (Api.scratchpad_update "Q12"
               (JObj [("notes", JStr "red won the autonomous bonus")])));
   (env0, Sync.SocketMessage session1
            (Api.scratchpad_update "scratchpad_Q12"
               (JObj [("notes", JStr "replayed")])));
   (env0, Sync.HttpDelete (requestOf None (Some "incident1")));
   (env0, Sync.SocketClose session1)].

(** An incident whose time is no date, and an environment in which
    [new Date("yesterday")] is an invalid date, whose [toISOString]
    throws. *)
Definition undated : Api.Incident :=
  {| Api.id := "incident3";
     Api.time := "yesterday";
     Api.event := "RE-VRC-23-3690";
     Api.match_ := None;
     Api.team := "8059A";
     Api.outcome := "Minor";
     Api.rules := ["<G1>"];
     Api.notes := "";
     Api.revision := None |}.

Definition env1 : Sync.Env :=
  {| Sync.now := "2024-03-09T16:00:00.000Z";
     Sync.throws := λ socket, socket =? 2;
     Sync.invitationList := [];
     Sync.toISOString :=
       λ time, if String.eqb time "yesterday" then None else Some time |}.

(** An incident on the device, and the store that holds it. *)
Definition incidentA : Client.Revised :=
  {| Client.props :=
       list_to_map [("event", JStr "RE-VRC-23-3690"); ("team", JStr "3796B");
                    ("outcome", JStr "Minor"); ("notes", JStr "Expansion")];
     Client.revision := None |}.

Definition store1 : Client.Store :=
  {| Client.objects := {[ "incident_a" := incidentA ]};
     Client.scratchpad_idx := ∅ |}.

End Fixtures.

(** * Properties of the consistency primitives *)

(** Closes a decidable closed goal by evaluation. *)
Ltac by_compute :=
  cbv zeta; refine (bool_decide_unpack _ _); vm_compute; exact I.

Section FromEntries.
Context {A : Type}.

(** A list of entries with distinct keys is read back as it was written. *)
Lemma lookup_fromEntries (entries : list (string * A)) k v :
  NoDup entries.*1 →
  fromEntries entries !! k = Some v ↔ (k, v) ∈ entries.
Proof.
  intros Hnd. unfold fromEntries.
  rewrite <- elem_of_list_to_map by (by rewrite fmap_reverse, reverse_Permutation).
  by rewrite elem_of_reverse.
Qed.

(** The object built from [[id, g id]] for the ids of a duplicate-free list
    on which [g] is defined. *)
Lemma lookup_fromEntries_omap (g : string → option A) (ids : list string) k :
  NoDup ids →
  fromEntries (omap (λ id, pair id <$> g id) ids) !! k
  = if decide (k ∈ ids) then g k else None.
Proof.
  intros Hnd.
  assert (Hkeys : ∀ l, (omap (λ id, pair id <$> g id) l).*1
                       = filter (λ id, is_Some (g id)) l).
  { induction l as [|x l IH]; [done|].
    rewrite filter_cons. case_decide as Hd.
    - destruct Hd as [y Hy]. simpl. rewrite Hy. simpl. f_equal. apply IH.
    - simpl. destruct (g x) eqn:Hx; [by destruct Hd|]. apply IH. }
  assert (Hnd' : NoDup (omap (λ id, pair id <$> g id) ids).*1).
  { rewrite Hkeys. by apply NoDup_filter. }
  destruct (fromEntries _ !! k) as [v|] eqn:Hlk.
  - apply lookup_fromEntries in Hlk; [|done].
    apply list_elem_of_omap in Hlk as (id & Hin & Hid).
    destruct (g id) eqn:Hg; simplify_eq/=.
    by rewrite decide_True.
  - case_decide as Hin; [|done].
    destruct (g k) as [v|] eqn:Hg; [|done].
    assert (fromEntries (omap (λ id, pair id <$> g id) ids) !! k = Some v)
      as Hsome; [|congruence].
    apply lookup_fromEntries; [done|].
    apply list_elem_of_omap. exists k. by rewrite Hg.
Qed.

End FromEntries.

Section MergeFacts.
Import LWW ConsistentMap.

Variable reports : FieldMeta → FieldMeta → bool.

(** Merging two present envelopes never yields [null]. *)
Lemma mergeLWW_present ignore l r :
  is_Some (LWW.resolved (mergeLWW reports ignore (Some l) (Some r))).
Proof. simpl. eauto. Qed.

(** Every field of the resolved envelope is the field of one of the two
    sides. *)
Lemma mergeLWW_field ignore l r e k :
  LWW.resolved (mergeLWW reports ignore (Some l) (Some r)) = Some e →
  fields e !! k = fields l !! k ∨ fields e !! k = fields r !! k.
Proof.
  intros [= <-]. simpl. rewrite map_lookup_imap.
  destruct (fields l !! k) as [v|] eqn:Hl; simpl; [|by left].
  destruct (takes_remote reports ignore l r k); auto.
Qed.

Lemma mergeLWW_id ignore l r e id :
  fields l !! "id" = Some (JStr id) →
  fields r !! "id" = Some (JStr id) →
  LWW.resolved (mergeLWW reports ignore (Some l) (Some r)) = Some e →
  env_id e = id.
Proof.
  intros Hl Hr He. unfold env_id.
  destruct (mergeLWW_field _ _ _ _ "id" He) as [-> | ->].
  - by rewrite Hl.
  - by rewrite Hr.
Qed.

Variables (local remote : ConsistentMap) (ignore : list string).
Hypothesis Hlocal : keyed local.
Hypothesis Hremote : keyed remote.

(** The per-id merge that [mergeMap] runs on a shared id. *)
Let merged (id : string) : LWWMergeResult :=
  mergeLWW reports ignore (values local !! id) (values remote !! id).

Lemma merged_id id e :
  id ∈ dom (values local) → id ∈ dom (values remote) →
  LWW.resolved (merged id) = Some e → env_id e = id.
Proof.
  intros [l Hl]%elem_of_dom [r Hr]%elem_of_dom. unfold merged.
  rewrite Hl, Hr. apply mergeLWW_id; [by eapply Hlocal | by eapply Hremote].
Qed.

(** The ids read off a filtered list of merge results are the shared ids
    whose result passes the filter. *)
Lemma elem_of_resolved_ids (P : LWWMergeResult → Prop)
    `{!∀ x, Decision (P x)} (ids : list string) id :
  (∀ i, i ∈ ids → i ∈ dom (values local) ∧ i ∈ dom (values remote)) →
  id ∈ resolved_ids (filter P (merged <$> ids)) ↔ id ∈ ids ∧ P (merged id).
Proof.
  intros Hshared. unfold resolved_ids. rewrite list_elem_of_omap. split.
  - intros (res & [Hres [i [-> Hi]]%list_elem_of_fmap]%list_elem_of_filter & Hid).
    destruct (LWW.resolved (merged i)) as [e|] eqn:He; simplify_eq/=.
    destruct (Hshared i Hi) as [HL HR].
    rewrite (merged_id i e HL HR He). done.
  - intros [Hi HP]. exists (merged id). split.
    + apply list_elem_of_filter. split; [done|].
      apply list_elem_of_fmap. eauto.
    + destruct (Hshared id Hi) as [[l Hl]%elem_of_dom [r Hr]%elem_of_dom].
      pose proof (merged_id id) as Hm. unfold merged in *.
      rewrite Hl, Hr in *. simpl.
      rewrite (Hm _ ltac:(by apply elem_of_dom) ltac:(by apply elem_of_dom) eq_refl).
      done.
Qed.

Lemma shared_entries (ids : list string) :
  (∀ i, i ∈ ids → i ∈ dom (values local) ∧ i ∈ dom (values remote)) →
  omap (λ result, (λ e, (env_id e, e)) <$> LWW.resolved result)
       (merged <$> ids)
  = omap (λ id, pair id <$> LWW.resolved (merged id)) ids.
Proof.
  induction ids as [|i ids IH]; intros Hin; [done|]. csimpl.
  rewrite IH by (intros ? ?; apply Hin; by right).
  destruct (LWW.resolved (merged i)) as [e|] eqn:He; [|done].
  destruct (Hin i ltac:(by left)) as [HL HR].
  simpl. by rewrite (merged_id i e HL HR He).
Qed.

(** The resolved values are, id by id, the resolved envelope of the per-id
    merge (with the null rules for an id only one side has). *)
Lemma mergeMap_resolved_lookup id :
  values (resolved (mergeMap reports local remote ignore)) !! id
  = LWW.resolved (merged id).
Proof.
  unfold mergeMap. cbn [resolved values].
  set (L := dom (values local)). set (R := dom (values remote)).
  fold merged. rewrite shared_entries
    by (intros i; rewrite elem_of_elements; set_solver).
  rewrite !lookup_union.
  rewrite !lookup_fromEntries_omap by apply NoDup_elements.
  unfold merged.
  assert (HL : id ∈ elements (L ∖ R)
               ↔ is_Some (values local !! id) ∧ values remote !! id = None).
  { rewrite elem_of_elements. subst L R.
    rewrite elem_of_difference, !elem_of_dom, eq_None_not_Some. done. }
  assert (HR : id ∈ elements (R ∖ L)
               ↔ is_Some (values remote !! id) ∧ values local !! id = None).
  { rewrite elem_of_elements. subst L R.
    rewrite elem_of_difference, !elem_of_dom, eq_None_not_Some. done. }
  assert (HS : id ∈ elements (L ∩ R)
               ↔ is_Some (values local !! id) ∧ is_Some (values remote !! id)).
  { rewrite elem_of_elements. subst L R.
    rewrite elem_of_intersection, !elem_of_dom. done. }
  destruct (values local !! id) as [l|] eqn:Hl;
    destruct (values remote !! id) as [r|] eqn:Hr;
    repeat destruct (decide _) as [?|?]; try reflexivity; naive_solver.
Qed.

End MergeFacts.

Section MergeMapClaims.
Import LWW ConsistentMap.

Variable reports : FieldMeta → FieldMeta → bool.

Lemma length_pos_nonempty {A : Type} (l : list A) : 0 < length l ↔ l ≠ [].
Proof. destruct l; simpl; split; (done || lia). Qed.

(** C2: for consistent maps, the ids [mergeMap] returns in [remote.values]
    are, as a set, the ids that only [local.values] has together with the
    shared ids whose per-id merge has a non-empty [rejected] list; the ids
    it returns in [local.values] are the ids that only [remote.values] has
    together with the shared ids whose per-id merge has a non-empty
    [changed] list. *)
Theorem mergeMap_push_directions local remote ignore :
  consistent ignore local → consistent ignore remote →
  let result := mergeMap reports local remote ignore in
  let L := dom (values local) in
  let R := dom (values remote) in
  let merged id := mergeLWW reports ignore (values local !! id) (values remote !! id) in
  list_to_set (Ids.values (ConsistentMap.remote result))
  = (L ∖ R) ∪ filter (λ id, rejected (merged id) ≠ []) (L ∩ R)
  ∧ list_to_set (Ids.values (ConsistentMap.local result))
    = (R ∖ L) ∪ filter (λ id, changed (merged id) ≠ []) (L ∩ R).
Proof.
  intros (Hl & _ & _) (Hr & _ & _). cbv zeta.
  assert (Hsh : ∀ i, i ∈ elements (dom (values local) ∩ dom (values remote))
                → i ∈ dom (values local) ∧ i ∈ dom (values remote)).
  { intros i. rewrite elem_of_elements. set_solver. }
  split; apply set_eq; intros id;
    rewrite elem_of_list_to_set, elem_of_union, elem_of_filter;
    unfold mergeMap; cbn [ConsistentMap.remote ConsistentMap.local Ids.values];
    rewrite elem_of_app, !elem_of_elements;
    rewrite (elem_of_resolved_ids reports local remote ignore Hl Hr) by done;
    rewrite elem_of_elements, length_pos_nonempty; tauto.
Qed.

End MergeMapClaims.

Section Commutativity.
Import LWW ConsistentMap.

Variable reports : FieldMeta → FieldMeta → bool.

Lemma ltb_total (a b : string) :
  a ≠ b → String.ltb a b = negb (String.ltb b a).
Proof.
  intros Hne. unfold String.ltb. rewrite (String.compare_antisym b a).
  destruct (String.compare a b) eqn:Hc; try reflexivity.
  by apply String.compare_eq_iff in Hc.
Qed.

(** On an untied key the two merge orders pick the same side. *)
Lemma verdict_untied l r k lm rm :
  consistency l !! k = Some lm → consistency r !! k = Some rm →
  untied l r k →
  (verdict reports l r k = TakeRemote ∧ verdict reports r l k ≠ TakeRemote)
  ∨ (verdict reports l r k ≠ TakeRemote ∧ verdict reports r l k = TakeRemote)
  ∨ (verdict reports l r k ≠ TakeRemote ∧ verdict reports r l k ≠ TakeRemote
     ∧ fields l !! k = fields r !! k ∧ lm = rm).
Proof.
  intros Hl Hr. unfold untied, verdict. rewrite Hl, Hr. intros Hu.
  destruct (LWW.count rm <? LWW.count lm)%N eqn:E1;
    destruct (LWW.count lm <? LWW.count rm)%N eqn:E2;
    rewrite ?N.ltb_lt, ?N.ltb_ge in E1, E2.
  - lia.
  - right; left. split; [|done]. by destruct (reports _ _).
  - left. split; [done|]. by destruct (reports _ _).
  - assert (LWW.count lm = LWW.count rm) as Heq by lia.
    destruct Hu as [?|[[Hv Hp]|[Hv ->]]]; [done|..].
    + rewrite decide_False by done. rewrite decide_False by done.
      rewrite (ltb_total (peer lm) (peer rm)) by done.
      destruct (String.ltb (peer rm) (peer lm)); simpl; auto.
    + rewrite !decide_True by done. right; right. done.
Qed.

Lemma takes_remote_ignored ignore l r k :
  k ∈ ignore → takes_remote reports ignore l r k = false.
Proof.
  intros Hk. unfold takes_remote. by rewrite bool_decide_eq_false_2 by auto.
Qed.

Lemma takes_remote_true ignore l r k :
  k ∉ ignore → verdict reports l r k = TakeRemote → takes_remote reports ignore l r k = true.
Proof.
  intros Hk Hv. unfold takes_remote.
  by rewrite !bool_decide_eq_true_2.
Qed.

Lemma takes_remote_false ignore l r k :
  verdict reports l r k ≠ TakeRemote → takes_remote reports ignore l r k = false.
Proof.
  intros Hv. unfold takes_remote.
  rewrite (bool_decide_eq_false_2 (verdict reports l r k = TakeRemote)) by done.
  apply andb_false_r.
Qed.

Lemma wf_envelope_lookup ignore e k :
  wf_envelope ignore e →
  is_Some (consistency e !! k) ↔ is_Some (fields e !! k) ∧ k ∉ ignore.
Proof.
  unfold wf_envelope. intros Hwf.
  rewrite <- !elem_of_dom, Hwf, elem_of_filter. tauto.
Qed.

(** The resolved envelope does not depend on the order of the operands when
    no key ties. *)
Lemma mergeLWW_comm ignore l r :
  wf_envelope ignore l → wf_envelope ignore r → compatible ignore l r →
  LWW.resolved (mergeLWW reports ignore (Some l) (Some r))
  = LWW.resolved (mergeLWW reports ignore (Some r) (Some l)).
Proof.
  intros Hwl Hwr (Hdom & Himm & Hun). cbn [mergeLWW LWW.resolved].
  assert (Hkeys : ∀ k, is_Some (fields l !! k) ↔ is_Some (fields r !! k)).
  { intros k. by rewrite <- !elem_of_dom, Hdom. }
  assert (Hcase : ∀ k,
    (k ∈ ignore ∧ fields l !! k = fields r !! k)
    ∨ (consistency l !! k = None ∧ consistency r !! k = None
       ∧ fields l !! k = None ∧ fields r !! k = None)
    ∨ ((k ∉ ignore) ∧ ∃ lm rm, consistency l !! k = Some lm
                             ∧ consistency r !! k = Some rm
                             ∧ is_Some (fields l !! k)
                             ∧ is_Some (fields r !! k)
                             ∧ untied l r k)).
  { intros k. destruct (decide (k ∈ ignore)) as [Hk|Hk].
    { left. split; [done|]. by eapply Forall_forall in Himm. }
    right. destruct (fields l !! k) as [vl|] eqn:Hfl.
    - right. split; [done|].
      assert (is_Some (consistency l !! k)) as [lm Hlm].
      { apply (wf_envelope_lookup ignore); [done|]. rewrite Hfl. eauto. }
      assert (is_Some (fields r !! k)) as Hfr by (apply Hkeys; rewrite Hfl; eauto).
      assert (is_Some (consistency r !! k)) as [rm Hrm].
      { by apply (wf_envelope_lookup ignore). }
      exists lm, rm. split_and!; eauto.
      apply Hun. apply elem_of_dom. eauto.
    - left. assert (fields r !! k = None) as Hfr.
      { apply eq_None_not_Some. rewrite <- Hkeys, Hfl. by intros [? ?]. }
      repeat split; try done; apply eq_None_not_Some;
        rewrite (wf_envelope_lookup ignore) by done;
        rewrite ?Hfl, ?Hfr; by intros [[? ?] _]. }
  f_equal. f_equal.
  - apply map_eq. intros k. rewrite !map_lookup_imap.
    destruct (Hcase k) as [[Hk Heq]|[(_ & _ & Hfl & Hfr)|(Hk & lm & rm & Hlm & Hrm & [vl Hfl] & [vr Hfr] & Hu)]].
    + rewrite !takes_remote_ignored by done. rewrite <- Heq.
      by destruct (fields l !! k).
    + by rewrite Hfl, Hfr.
    + rewrite Hfl, Hfr. simpl.
      destruct (verdict_untied l r k lm rm Hlm Hrm Hu)
        as [[H1 H2]|[[H1 H2]|(H1 & H2 & Heq & _)]].
      * rewrite takes_remote_true, takes_remote_false by done. done.
      * rewrite takes_remote_false, takes_remote_true by done. done.
      * rewrite !takes_remote_false by done. congruence.
  - apply map_eq. intros k. rewrite !map_lookup_imap.
    destruct (Hcase k) as [[Hk Heq]|[(Hl & Hr & _)|(Hk & lm & rm & Hlm & Hrm & _ & _ & Hu)]].
    + assert (consistency l !! k = None) as ->.
      { apply eq_None_not_Some. rewrite (wf_envelope_lookup ignore) by done. tauto. }
      assert (consistency r !! k = None) as ->.
      { apply eq_None_not_Some. rewrite (wf_envelope_lookup ignore) by done. tauto. }
      done.
    + by rewrite Hl, Hr.
    + rewrite Hlm, Hrm. simpl.
      destruct (verdict_untied l r k lm rm Hlm Hrm Hu)
        as [[H1 H2]|[[H1 H2]|(H1 & H2 & _ & Heq)]].
      * rewrite takes_remote_true, takes_remote_false by done. done.
      * rewrite takes_remote_false, takes_remote_true by done. done.
      * rewrite !takes_remote_false by done. congruence.
Qed.

End Commutativity.

Section ResolvedClaims.
Import LWW ConsistentMap.

Variable reports : FieldMeta → FieldMeta → bool.

Lemma elem_of_mergeGrowSet_resolved local remote id :
  id ∈ GrowSet.resolved (GrowSet.mergeGrowSet local remote)
  ↔ id ∈ local ∨ id ∈ remote.
Proof.
  unfold GrowSet.mergeGrowSet. cbn [GrowSet.resolved].
  rewrite elem_of_app, list_elem_of_filter.
  destruct (decide (id ∈ local)); tauto.
Qed.

(** C1, corrected: [mergeMap] does not filter the resolved values by the
    tombstones.  For consistent maps, an id of the resolved tombstone list
    is absent from the resolved values exactly when it is a key of neither
    [local.values] nor [remote.values]; the resolved tombstone list holds
    the ids of both lists. *)
Theorem mergeMap_tombstones_not_filtered local remote ignore :
  consistent ignore local → consistent ignore remote →
  let result := mergeMap reports local remote ignore in
  ∀ id,
    (id ∈ deleted (resolved result)
     ↔ id ∈ deleted local ∨ id ∈ deleted remote)
    ∧ (values (resolved result) !! id = None
       ↔ values local !! id = None ∧ values remote !! id = None).
Proof.
  intros (Hl & _ & _) (Hr & _ & _) result id. split.
  - apply elem_of_mergeGrowSet_resolved.
  - subst result. rewrite mergeMap_resolved_lookup by done.
    destruct (values local !! id) as [l|], (values remote !! id) as [r|];
      simpl; naive_solver.
Qed.

(** With the merge of envelopes and the merge of grow-sets modelled from
    sections 4.1 and 4.2 of the specification: the resolved output of
    [mergeMap] does not depend on the order of the two maps when no key of a
    shared id ties.  The resolved values are then equal and the resolved
    tombstone lists hold the same ids. *)
Lemma mergeMap_resolved_comm a b ignore :
  consistent ignore a → consistent ignore b → tie_free ignore a b →
  values (resolved (mergeMap reports a b ignore))
  = values (resolved (mergeMap reports b a ignore))
  ∧ ∀ id, id ∈ deleted (resolved (mergeMap reports a b ignore))
          ↔ id ∈ deleted (resolved (mergeMap reports b a ignore)).
Proof.
  intros (Ha & Hwa & _) (Hb & Hwb & _) Hfree. split.
  - apply map_eq. intros id. rewrite !mergeMap_resolved_lookup by done.
    destruct (values a !! id) as [l|] eqn:Hl,
             (values b !! id) as [r|] eqn:Hr; try done.
    apply mergeLWW_comm; [by eapply Hwa | by eapply Hwb |].
    specialize (Hfree id l Hl). cbv beta in Hfree. by rewrite Hr in Hfree.
  - intros id. unfold mergeMap. cbn [resolved deleted].
    rewrite !elem_of_mergeGrowSet_resolved. tauto.
Qed.

End ResolvedClaims.

Section MergeLWWExamples.
Import LWW Fixtures.

(** Evaluates both sides for either answer of the reporting rule. *)
Ltac by_cases_of reports :=
  cbv zeta; split_and!; vm_compute; try done;
  repeat destruct (reports _ _); by vm_compute.

(** lww.test.ts, "greater-count local value persists" *)
Example test_greater_count_local reports :
  let local := baseObject (JStr "Local Value") "A" 1 [] in
  let remote := baseObject (JStr "Remote Value") "A" 0 [] in
  let result := mergeLWW reports ["constant"] (Some local) (Some remote) in
  resolved result = Some local
  ∧ changed result = []
  ∧ resolved (mergeLWW reports ["constant"] (Some remote) (Some local))
    = resolved result.
Proof. by_cases_of reports. Qed.

(** lww.test.ts, "greater-count remote value persists" *)
Example test_greater_count_remote reports :
  let local := baseObject (JStr "Local Value") "A" 0 [] in
  let remote := baseObject (JStr "Remote Value") "A" 2 [] in
  let result := mergeLWW reports ["constant"] (Some local) (Some remote) in
  resolved result = Some remote
  ∧ changed result = ["a"]
  ∧ resolved (mergeLWW reports ["constant"] (Some remote) (Some local))
    = resolved result.
Proof. by_cases_of reports. Qed.

(** lww.test.ts, "tie goes to higher peer value" *)
Example test_tie_higher_peer reports :
  let local := baseObject (JStr "Local Value") "A" 0 [] in
  let remote := baseObject (JStr "Remote Value") "Z" 0 [] in
  let result := mergeLWW reports ["constant"] (Some local) (Some remote) in
  resolved result = Some remote
  ∧ changed result = ["a"]
  ∧ resolved (mergeLWW reports ["constant"] (Some remote) (Some local))
    = resolved result.
Proof. by_cases_of reports. Qed.

(** lww.test.ts, "lww is resolved on a key-by-key basis" *)
Example test_key_by_key reports :
  let initA := {| count := 0; peer := "A"; history := [] |} in
  let localA := {| count := 1; peer := "local-A";
                   history := [(JObj [("b", JNum 1)], "local-A")] |} in
  let remoteC := {| count := 1; peer := "remote-A";
                    history := [(JStr "remote prev", "remote-A")] |} in
  let local := complexObject 10 "local" localA initA in
  let remote := complexObject 1000 "remote" initA remoteC in
  let result := mergeLWW reports ["constant"] (Some local) (Some remote) in
  resolved result = Some (complexObject 10 "remote" localA remoteC)
  ∧ changed result = ["c"]
  ∧ resolved (mergeLWW reports ["constant"] (Some remote) (Some local))
    = resolved result.
Proof. by_cases_of reports. Qed.

(** lww.test.ts, "handles null and undefined" *)
Example test_null_operands reports :
  let local := baseObject (JStr "Local Value") "A" 0 [] in
  resolved (mergeLWW reports ["constant"] (Some local) None) = Some local
  ∧ changed (mergeLWW reports ["constant"] (Some local) None) = []
  ∧ resolved (mergeLWW reports ["constant"] None (Some local)) = Some local
  ∧ changed (mergeLWW reports ["constant"] None (Some local)) = ["a"]
  ∧ resolved (mergeLWW reports [] None None) = None
  ∧ changed (mergeLWW reports [] None None) = [].
Proof. by_cases_of reports. Qed.

End MergeLWWExamples.

Section MergeMapExamples.
Import LWW ConsistentMap Fixtures.

(** The expectations of map.test.ts, "new local entries uploaded". *)
Example test_new_local_entries_uploaded reports :
  let result := mergeMap reports uploaded_local uploaded_remote ignore in
  deleted (resolved result) = ["incident12"]
  ∧ values (resolved result) = values uploaded_local
  ∧ Ids.deleted (local result) = ["incident12"]
  ∧ Ids.values (local result) = []
  ∧ Ids.deleted (remote result) = []
  ∧ Ids.values (remote result) = ["incident1"].
Proof. by vm_compute. Qed.

(** The expectations of map.test.ts, "remote update handled". *)
Example test_remote_update_handled :
  let result := mergeMap reports_always edited_local edited_remote ignore in
  deleted (resolved result) = ["incident12"]
  ∧ (fields <$> values (resolved result) !! "incident1")
    = Some (<["rule" := JStr "<SG8>"]>
              (<["note" := JStr "Expansion BMM EDIT"]> incident1))
  ∧ Ids.deleted (remote result) = ["incident12"]
  ∧ Ids.values (remote result) = ["incident1"]
  ∧ Ids.deleted (local result) = []
  ∧ Ids.values (local result) = ["incident1"].
Proof. by vm_compute. Qed.

(** The expectations of map.test.ts, "deleted values merged". *)
Example test_deleted_values_merged reports :
  let result := mergeMap reports deleted_local deleted_remote ignore in
  deleted (resolved result)
  = ["incident1"; "incident2"; "incident3"; "incident4"; "incident5"]
  ∧ values (resolved result) = ∅
  ∧ Ids.deleted (local result) = ["incident4"; "incident5"]
  ∧ Ids.deleted (remote result) = ["incident1"; "incident2"].
Proof. by vm_compute. Qed.

(** C1 fails as stated (scenario A): an incident that one side still holds
    and the other side has tombstoned is both in the resolved tombstone list
    and in the resolved values. *)
Lemma mergeMap_tombstoned_value_survives :
  consistent ignore uploaded_local
  ∧ consistent ignore tombstoned_remote
  ∧ let result :=
      mergeMap reports_by_history uploaded_local tombstoned_remote ignore in
    "incident1" ∈ deleted (resolved result)
    ∧ values (resolved result) !! "incident1"
      = Some (initLWW incident1 "LOCAL" ignore).
Proof.
  split; [by_compute|]. split; [by_compute|].
  split; [by_compute | by vm_compute].
Qed.

Lemma mergeMap_tombstones_not_filtered_witness :
  consistent ignore uploaded_local
  ∧ consistent ignore tombstoned_remote
  ∧ let result :=
      mergeMap reports_by_history uploaded_local tombstoned_remote ignore in
    ("incident1" ∈ deleted (resolved result)
     ↔ "incident1" ∈ deleted uploaded_local
       ∨ "incident1" ∈ deleted tombstoned_remote)
    ∧ (values (resolved result) !! "incident1" = None
       ↔ values uploaded_local !! "incident1" = None
         ∧ values tombstoned_remote !! "incident1" = None).
Proof.
  assert (Hl : consistent ignore uploaded_local) by by_compute.
  assert (Hr : consistent ignore tombstoned_remote) by by_compute.
  split; [exact Hl|]. split; [exact Hr|].
  exact (mergeMap_tombstones_not_filtered reports_by_history
           uploaded_local tombstoned_remote ignore Hl Hr "incident1").
Defined.

Lemma mergeMap_push_directions_witness :
  consistent ignore edited_local
  ∧ consistent ignore edited_remote
  ∧ list_to_set (Ids.values (remote (mergeMap reports_always edited_local
                                              edited_remote ignore)))
    = (dom (values edited_local) ∖ dom (values edited_remote))
      ∪ filter (λ id, rejected (mergeLWW reports_always ignore
                                  (values edited_local !! id)
                                  (values edited_remote !! id)) ≠ [])
               (dom (values edited_local) ∩ dom (values edited_remote)).
Proof.
  assert (Hl : consistent ignore edited_local) by by_compute.
  assert (Hr : consistent ignore edited_remote) by by_compute.
  split; [exact Hl|]. split; [exact Hr|].
  exact (proj1 (mergeMap_push_directions reports_always edited_local
                  edited_remote ignore Hl Hr)).
Defined.

(** The ties of section 4.1, step 4, on the modelled merge of envelopes.
    Two peers made the same edit of the note: the counts tie and the values
    are equal, the local side wins, so each merge order keeps the metadata
    of its own local side, and the writers differ. *)
Example mergeMap_tie_keeps_local_metadata :
  consistent ignore (same_edit "A")
  ∧ consistent ignore (same_edit "B")
  ∧ resolved (mergeMap reports_by_history (same_edit "A") (same_edit "B")
                       ignore)
    ≠ resolved (mergeMap reports_by_history (same_edit "B") (same_edit "A")
                         ignore).
Proof.
  split; [by_compute|]. split; [by_compute|].
  intros Heq.
  apply (f_equal (λ m, peer <$> (values m !! "incident1"
                                 ≫= λ e, consistency e !! "note"))) in Heq.
  vm_compute in Heq. discriminate Heq.
Qed.

(** The other tie: the same peer initialised the incident twice with
    different notes.  Counts and writers are equal, so no rule that looks at
    counts and writers only can pick the same side in both orders. *)
Example mergeMap_tie_same_writer :
  consistent ignore (initialised "Expansion")
  ∧ consistent ignore (initialised "Trapping")
  ∧ resolved (mergeMap reports_by_history (initialised "Expansion")
                       (initialised "Trapping") ignore)
    ≠ resolved (mergeMap reports_by_history (initialised "Trapping")
                         (initialised "Expansion") ignore).
Proof.
  split; [by_compute|]. split; [by_compute|].
  intros Heq.
  apply (f_equal (λ m, values m !! "incident1"
                       ≫= λ e, fields e !! "note")) in Heq.
  vm_compute in Heq. discriminate Heq.
Qed.

Lemma mergeMap_resolved_comm_witness :
  consistent ignore edited_local
  ∧ consistent ignore edited_remote
  ∧ tie_free ignore edited_local edited_remote
  ∧ values (resolved (mergeMap reports_by_history edited_local edited_remote
                               ignore))
    = values (resolved (mergeMap reports_by_history edited_remote
                                 edited_local ignore)).
Proof.
  assert (Hl : consistent ignore edited_local) by by_compute.
  assert (Hr : consistent ignore edited_remote) by by_compute.
  assert (Hf : tie_free ignore edited_local edited_remote) by by_compute.
  split; [exact Hl|]. split; [exact Hr|]. split; [exact Hf|].
  exact (proj1 (mergeMap_resolved_comm reports_by_history edited_local
                  edited_remote ignore Hl Hr Hf)).
Defined.

End MergeMapExamples.

(** * Further properties of [mergeMap] *)

Section MergeMapIds.
Import LWW ConsistentMap.

Variable reports : FieldMeta → FieldMeta → bool.
Variables (local remote : ConsistentMap) (ignore : list string).

Let merged (id : string) : LWWMergeResult :=
  mergeLWW reports ignore (values local !! id) (values remote !! id).

(** The ids read off the filtered merge results of shared ids are the
    shared ids whose result passes the filter, in their order. *)
Lemma resolved_ids_filter (P : LWWMergeResult → Prop)
    `{!∀ x, Decision (P x)} (ids : list string) :
  keyed local → keyed remote →
  (∀ i, i ∈ ids → i ∈ dom (values local) ∧ i ∈ dom (values remote)) →
  resolved_ids (filter P (merged <$> ids)) = filter (λ id, P (merged id)) ids.
Proof.
  intros Hl Hr. induction ids as [|i ids IH]; intros Hshared; [done|].
  rewrite fmap_cons, !filter_cons.
  assert (Hrest : ∀ j, j ∈ ids
                       → j ∈ dom (values local) ∧ j ∈ dom (values remote))
    by (intros j Hj; apply Hshared; by right).
  destruct (Hshared i) as [HL HR]; [by left|].
  destruct (decide (P (merged i))) as [HP|HP]; [|by apply IH].
  unfold resolved_ids in *. cbn [omap list_omap]. rewrite IH by done.
  pose proof (merged_id reports local remote ignore Hl Hr i) as Hid.
  apply elem_of_dom in HL as [l Hlk]. apply elem_of_dom in HR as [r Hrk].
  unfold merged in *. rewrite Hlk, Hrk in *. cbn.
  f_equal. apply Hid; try done; apply elem_of_dom; eauto.
Qed.

(** X1: for maps whose envelopes are stored under their own id, neither
    list of ids that [mergeMap] returns for the values names an id twice,
    and every id they name has a value in the resolved map (so looking the
    resolved value of a pushed id up never comes back empty).  Of [mergeLWW]
    this uses only that the resolved envelope of two present envelopes
    exists and carries their id. *)
Theorem mergeMap_pushed_ids_resolve :
  keyed local → keyed remote →
  let result := mergeMap reports local remote ignore in
  NoDup (Ids.values (ConsistentMap.local result))
  ∧ NoDup (Ids.values (ConsistentMap.remote result))
  ∧ ∀ id,
      id ∈ Ids.values (ConsistentMap.local result)
           ++ Ids.values (ConsistentMap.remote result) →
      is_Some (values (resolved result) !! id).
Proof.
  intros Hl Hr result.
  assert (Hsh : ∀ i, i ∈ elements (dom (values local) ∩ dom (values remote))
                → i ∈ dom (values local) ∧ i ∈ dom (values remote)).
  { intros i. rewrite elem_of_elements. set_solver. }
  assert (Hsome : ∀ id, id ∈ dom (values local) ∪ dom (values remote) →
                        is_Some (values (resolved result) !! id)).
  { intros id Hid. unfold result.
    rewrite (mergeMap_resolved_lookup reports local remote ignore Hl Hr).
    apply elem_of_union in Hid.
    destruct (values local !! id) as [l|] eqn:Hlk;
      destruct (values remote !! id) as [r|] eqn:Hrk; cbn; eauto.
    destruct Hid as [[? ?]%elem_of_dom|[? ?]%elem_of_dom]; congruence. }
  unfold result, mergeMap in *.
  cbn [ConsistentMap.remote ConsistentMap.local Ids.values] in *.
  fold merged. rewrite !resolved_ids_filter by done.
  split_and!.
  - apply NoDup_app. split_and!.
    + apply NoDup_elements.
    + intros id Hid%elem_of_elements [_ Hin%elem_of_elements]%list_elem_of_filter.
      set_solver.
    + apply NoDup_filter, NoDup_elements.
  - apply NoDup_app. split_and!.
    + apply NoDup_elements.
    + intros id Hid%elem_of_elements [_ Hin%elem_of_elements]%list_elem_of_filter.
      set_solver.
    + apply NoDup_filter, NoDup_elements.
  - intros id Hid. apply Hsome.
    rewrite !elem_of_app, !list_elem_of_filter, !elem_of_elements in Hid.
    set_solver.
Qed.

End MergeMapIds.

Section MergeMapEmpty.
Import LWW ConsistentMap.

Variable reports : FieldMeta → FieldMeta → bool.

Lemma lookup_fromEntries_all {A : Type} (m : gmap string A) :
  fromEntries (omap (λ id, pair id <$> m !! id) (elements (dom m))) = m.
Proof.
  apply map_eq. intros k.
  rewrite lookup_fromEntries_omap by apply NoDup_elements.
  case_decide as Hin; [done|]. symmetry. apply not_elem_of_dom.
  by rewrite elem_of_elements in Hin.
Qed.

(** X2: merging with a side that holds no value runs no per-id merge: when
    the remote map has no value, the resolved values are the local ones,
    every local id is pushed to the remote side and none is to be saved
    locally; when the local map has no value, the resolved values are the
    remote ones, every remote id is to be saved locally and none is
    pushed. *)
Theorem mergeMap_empty_side (m : ConsistentMap) (deleted' : list string)
    (ignore : list string) :
  let empty := {| deleted := deleted'; values := ∅ |} in
  let up := mergeMap reports m empty ignore in
  let down := mergeMap reports empty m ignore in
  values (resolved up) = values m
  ∧ Ids.values (ConsistentMap.remote up) = elements (dom (values m))
  ∧ Ids.values (ConsistentMap.local up) = []
  ∧ values (resolved down) = values m
  ∧ Ids.values (ConsistentMap.local down) = elements (dom (values m))
  ∧ Ids.values (ConsistentMap.remote down) = [].
Proof.
  intros empty up down. unfold up, down, mergeMap, empty.
  cbn [values resolved ConsistentMap.remote ConsistentMap.local Ids.values
       deleted].
  rewrite dom_empty_L.
  assert (H1 : dom (values m) ∩ (∅ : gset string) = ∅) by set_solver.
  assert (H2 : (∅ : gset string) ∩ dom (values m) = ∅) by set_solver.
  assert (H3 : dom (values m) ∖ (∅ : gset string) = dom (values m))
    by set_solver.
  assert (H4 : (∅ : gset string) ∖ dom (values m) = ∅) by set_solver.
  rewrite H1, H2, H3, H4, elements_empty. cbn.
  rewrite lookup_fromEntries_all.
  unfold fromEntries. cbn.
  rewrite !(left_id_L ∅ (∪)), !(right_id_L ∅ (∪)), !app_nil_r.
  done.
Qed.

End MergeMapEmpty.

(** * Properties of the sync server *)

Section SyncFacts.
Import Api Sync.

(** Unfolds the handler monad. *)
Ltac run :=
  repeat (progress
            (cbn [forEach];
             cbv beta iota zeta delta
               [mbind mret handler_bind handler_ret gets asks modify emit
                createPayload getActiveUsers getInvitationList
                getDeletedIncidents getIncident getIncidentList findClient
                addIncident editIncident deleteIncident setScratchpad])).

(** Two server states with the same components are equal. *)
Lemma server_eq (a b : Server) :
  sku a = sku b → records a = records b → incidents a = incidents b →
  deleted_incidents a = deleted_incidents b →
  scratchpad_list a = scratchpad_list b →
  scratchpad_store a = scratchpad_store b →
  clients a = clients b → inactive a = inactive b → a = b.
Proof. destruct a, b; cbn; intros; by subst. Qed.

Ltac same_server := apply server_eq; cbn; try done; try set_solver.

Lemma result_eq {A : Type} (x : A) (s s' : Server) (o o' : list Effect) :
  s = s' → o = o' → (x, s, o) = (x, s', o').
Proof. by intros -> ->. Qed.

Ltac same_result :=
  apply result_eq;
  [same_server | cbn [app]; rewrite ?app_nil_r; try done].

Lemma forEach_trySend env payload (current : list SessionClient) st :
  forEach current (trySend payload) env st
  = (tt,
     set_inactive
       (λ s, s ∪ list_to_set
                   (socket <$> filter (λ c, throws env (socket c) = true)
                                      current)) st,
     sends payload (filter (healthy env) current)).
Proof.
  revert st. induction current as [|c cs IH]; intros st.
  - run. same_result.
  - unfold healthy. rewrite !filter_cons.
    destruct (decide (throws env (socket c) = true)) as [Ht|Ht];
      destruct (decide (throws env (socket c) = false)) as [Hf|Hf];
      try congruence.
    + run. unfold trySend at 1. run. rewrite Ht. run. rewrite IH. unfold healthy. same_result.
    + run. unfold trySend at 1. run. rewrite Hf. run. rewrite IH. done.
    + by destruct (throws env (socket c)).
Qed.

Lemma broadcast_fuel_unfold fuel message sender :
  broadcast_fuel (S fuel) message sender
  = (payload ← createPayload message sender;
     current ← gets clients;
     forEach current (trySend payload) ;;
     failing ← asks throws;
     modify (set_clients
               (λ _, filter (λ client, failing (socket client) = false)
                            current)) ;;
     activeUsers ← getActiveUsers;
     invitations ← getInvitationList;
     forEach (filter (λ client, failing (socket client) = true) current)
       (λ client,
          broadcast_fuel fuel
            (server_user_remove (user client) activeUsers invitations)
            SenderServer)).
Proof. reflexivity. Qed.

Lemma filter_failing_healthy env (cs : list SessionClient) :
  Forall (healthy env) cs →
  filter (λ c, throws env (socket c) = true) cs = []
  ∧ filter (λ c, throws env (socket c) = false) cs = cs.
Proof.
  induction 1 as [|c cs Hc _ [IH1 IH2]]; [done|].
  unfold healthy in Hc. rewrite !filter_cons, IH1, IH2.
  rewrite decide_False by congruence. by rewrite decide_True.
Qed.

(** On clients that all accept the payload, a broadcast is one [send] per
    client and leaves the server as it is. *)
Lemma broadcast_fuel_healthy fuel m s env st :
  Forall (healthy env) (clients st) →
  broadcast_fuel (S fuel) m s env st
  = (tt, st, sends (payloadOf env m s) (clients st)).
Proof.
  intros Hall. destruct (filter_failing_healthy env _ Hall) as [Hf Hk].
  rewrite broadcast_fuel_unfold. run. rewrite forEach_trySend. run.
  unfold healthy. rewrite Hf, Hk. run.
  rewrite !app_nil_r. same_result.
Qed.

Lemma forEach_broadcast_healthy fuel env st (ls : list SessionClient)
    (msg : SessionClient → WebSocketMessage) :
  Forall (healthy env) (clients st) →
  forEach ls (λ client, broadcast_fuel (S fuel) (msg client) SenderServer)
          env st
  = (tt, st,
     mjoin ((λ client, sends (payloadOf env (msg client) SenderServer)
                             (clients st)) <$> ls)).
Proof.
  intros Hall. induction ls as [|c ls IH]; [done|].
  cbn [forEach].
  cbv beta iota zeta delta [mbind handler_bind].
  rewrite broadcast_fuel_healthy by done. rewrite IH. done.
Qed.

Lemma Forall_healthy_filter env (cs : list SessionClient) :
  Forall (healthy env) (filter (healthy env) cs).
Proof. apply Forall_forall. by intros c [? _]%list_elem_of_filter. Qed.

Lemma broadcast_fuel_drop fuel m s env st :
  broadcast_fuel (S (S fuel)) m s env st
  = (tt, afterBroadcast env st, broadcastTrace env st m s).
Proof.
  rewrite broadcast_fuel_unfold. run. rewrite forEach_trySend. run.
  rewrite forEach_broadcast_healthy by apply Forall_healthy_filter.
  done.
Qed.

Lemma broadcast_eq m s env st :
  broadcast m s env st
  = (tt, afterBroadcast env st, broadcastTrace env st m s).
Proof.
  unfold broadcast. run. destruct (clients st) as [|c cs] eqn:Hcs.
  - cbn [length]. rewrite broadcast_fuel_healthy by (rewrite Hcs; constructor).
    unfold broadcastTrace, afterBroadcast. rewrite Hcs. same_result.
  - cbn [length]. by rewrite broadcast_fuel_drop.
Qed.

(** The fuel [broadcast] starts with is never used up: any larger fuel
    gives the same result. *)
Lemma broadcast_fuel_enough fuel m s env st :
  broadcast_fuel (S (length (clients st)) + fuel) m s env st
  = broadcast m s env st.
Proof.
  rewrite broadcast_eq. destruct (clients st) as [|c cs] eqn:Hcs.
  - cbn [length plus]. rewrite broadcast_fuel_healthy by (rewrite Hcs; constructor).
    unfold broadcastTrace, afterBroadcast. rewrite Hcs. same_result.
  - cbn [length plus]. by rewrite broadcast_fuel_drop.
Qed.

(** *** What a broadcast does *)

Lemma broadcast_delivers m s env st c :
  c ∈ clients st → healthy env c →
  Send (socket c) (payloadOf env m s) ∈ broadcastTrace env st m s.
Proof.
  intros Hc Hh. unfold broadcastTrace. apply elem_of_app. left.
  unfold sends. apply list_elem_of_fmap. exists c. split; [done|].
  by apply list_elem_of_filter.
Qed.

Lemma afterBroadcast_storage env st :
  sku (afterBroadcast env st) = sku st
  ∧ records (afterBroadcast env st) = records st
  ∧ incidents (afterBroadcast env st) = incidents st
  ∧ deleted_incidents (afterBroadcast env st) = deleted_incidents st
  ∧ scratchpad_list (afterBroadcast env st) = scratchpad_list st
  ∧ scratchpad_store (afterBroadcast env st) = scratchpad_store st.
Proof. done. Qed.

Lemma afterBroadcast_clients env st :
  clients (afterBroadcast env st) = filter (healthy env) (clients st).
Proof. done. Qed.

(** *** Storage operations *)

Lemma addIncident_eq incident env st :
  addIncident incident env st
  = (tt,
     set_incidents
       (λ list, if decide (id incident ∈ list) then list
                else list ++ [id incident])
       (set_records (<[id incident := incident]>) st),
     []).
Proof. run. same_result. Qed.

Lemma deleteIncident_eq id env st :
  deleteIncident id env st
  = (negb (length (incidents st)
           =? length (filter (λ value, value ≠ id) (incidents st))),
     set_deleted_incidents (λ deleted, deleted ∪ {[id]})
       (set_incidents (filter (λ value, value ≠ id)) st),
     []).
Proof.
  run.
  destruct (decide (id ∈ deleted_incidents (set_incidents _ st)))
    as [Hin|Hin]; run; same_result.
Qed.

Lemma filter_absent (id : string) (list : list string) :
  id ∉ list → filter (λ value, value ≠ id) list = list.
Proof.
  induction list as [|x l IH]; [done|]. intros Hnot.
  rewrite filter_cons_True by (intros ->; apply Hnot; by left).
  rewrite IH; [done|]. intros ?. apply Hnot. by right.
Qed.

(** Deleting an id reports success exactly when the id was listed. *)
Lemma deleteIncident_success (id : string) (list : list string) :
  negb (length list =? length (filter (λ value, value ≠ id) list)) = true
  ↔ id ∈ list.
Proof.
  rewrite negb_true_iff, Nat.eqb_neq. split.
  - intros Hlen. destruct (decide (id ∈ list)) as [|Hnot]; [done|].
    destruct Hlen. by rewrite filter_absent.
  - intros Hin.
    pose proof (length_filter_lt (λ value, value ≠ id) list id Hin
                  (λ H, H eq_refl)) as Hlt.
    lia.
Qed.

Lemma not_elem_of_filter_ne (id : string) (list : list string) :
  id ∉ filter (λ value, value ≠ id) list.
Proof. by intros [? _]%list_elem_of_filter. Qed.

(** *** HTTP and socket handlers *)

(** C4: while an id is tombstoned, [PUT /incident] refuses the incident,
    stores nothing and sends nothing; an [add_incident] frame with the same
    incident, received on an active session, stores the incident, lists its
    id and sends [add_incident] to every client that accepts it, and the id
    stays tombstoned.  The id is the id of an incident: it is none of the
    keys under which the storage keeps its lists, its sku and its
    scratchpads. *)
Theorem tombstoned_add_refused_by_http_accepted_by_socket
    env st request incident client :
  getRequestBody request = Some incident →
  incidentKey (id incident) →
  id incident ∈ deleted_incidents st →
  socket client ∉ inactive st →
  let sender :=
    SenderClient (user_name (user client)) (user_id (user client)) in
  handleAddIncident request env st
  = (Failure bad_request "That incident has been deleted.", st, [])
  ∧ ∃ st' out,
      onMessage client (add_incident incident) env st = (tt, st', out)
      ∧ records st' !! id incident = Some incident
      ∧ id incident ∈ incidents st'
      ∧ id incident ∈ deleted_incidents st'
      ∧ ∀ c, c ∈ clients st → healthy env c →
             Send (socket c) (payloadOf env (add_incident incident) sender)
             ∈ out.
Proof.
  intros Hbody _ Hdel Hact sender. split.
  - unfold handleAddIncident. rewrite Hbody. run.
    by rewrite decide_True.
  - unfold onMessage. run. rewrite bool_decide_eq_true_2 by done.
    cbn [negb]. run. rewrite broadcast_eq.
    eexists _, _. split; [reflexivity|]. split_and!.
    + cbn. apply lookup_insert_eq.
    + cbn. case_decide; [done|]. apply elem_of_app. right. by left.
    + done.
    + intros c Hc Hh. apply broadcast_delivers; [exact Hc | exact Hh].
Qed.

(** What an accepted PATCH does: the incident is stored under its id with
    its effective revision, [update_incident] is broadcast, and the revision
    is returned. *)
Lemma handleEditIncident_accepts env st request incident :
  getRequestBody request = Some incident →
  id incident ∉ deleted_incidents st →
  is_Some (records st !! id incident) →
  (∀ r, revision incident = Some r →
        (currentRevision st (id incident) ≤ count r)%Z) →
  let stored :=
    with_revision incident (effectiveRevision st request incident) in
  handleEditIncident request env st
  = (Success (DataRevision (effectiveRevision st request incident)),
     afterBroadcast env (set_records (<[id incident := stored]>) st),
     broadcastTrace env st (update_incident stored)
       (requestSender st request)).
Proof.
  intros Hbody Hdel [current Hcur] Hfresh stored.
  unfold handleEditIncident. rewrite Hbody. run.
  rewrite decide_False by done. run.
  change (default 0%Z (count <$> option_bind _ _ revision
                                    (records st !! id incident)))
    with (currentRevision st (id incident)).
  fold (requestSender st request).
  assert (match revision incident with
          | Some r => bool_decide (count r < currentRevision st (id incident))%Z
          | None => false
          end = false) as ->.
  { destruct (revision incident) as [r|] eqn:Hr; [|done].
    apply bool_decide_eq_false_2. specialize (Hfresh r eq_refl). lia. }
  fold (effectiveRevision st request incident).
  cbn [id with_revision]. rewrite Hcur. run. cbn [negb].
  run. rewrite broadcast_eq. same_result.
Qed.

(** C5, corrected: a PATCH whose revision count is below the stored count
    is refused with an unsuccessful response whose reason is [bad_request]
    (the handler has no other reason), the server is left as it is and
    nothing is sent; any other PATCH for a stored id that is not tombstoned
    stores the incident and broadcasts [update_incident]. *)
Theorem handleEditIncident_stale_refused_else_stored
    env st request incident current :
  getRequestBody request = Some incident →
  records st !! id incident = Some current →
  let currentCount := default 0%Z (count <$> revision current) in
  (∀ r, revision incident = Some r → (count r < currentCount)%Z →
     handleEditIncident request env st
     = (Failure bad_request
          (if decide (id incident ∈ deleted_incidents st)
           then "That incident has been deleted."
           else "The incident has been edited more recently."),
        st, []))
  ∧ (id incident ∉ deleted_incidents st →
     (∀ r, revision incident = Some r → (currentCount ≤ count r)%Z) →
     let stored :=
       with_revision incident (effectiveRevision st request incident) in
     handleEditIncident request env st
     = (Success (DataRevision (effectiveRevision st request incident)),
        afterBroadcast env (set_records (<[id incident := stored]>) st),
        broadcastTrace env st (update_incident stored)
          (requestSender st request))).
Proof.
  intros Hbody Hcur currentCount.
  assert (Hcount : currentRevision st (id incident) = currentCount).
  { unfold currentRevision. by rewrite Hcur. }
  split.
  - intros r Hr Hlt. unfold handleEditIncident. rewrite Hbody. run.
    destruct (decide (id incident ∈ deleted_incidents st)); [done|]. run.
    change (default 0%Z (count <$> option_bind _ _ revision
                                      (records st !! id incident)))
      with (currentRevision st (id incident)).
    rewrite Hcount, Hr. by rewrite bool_decide_eq_true_2.
  - intros Hdel Hfresh. apply handleEditIncident_accepts; try done.
    by rewrite Hcount.
Qed.

(** C9: a PATCH whose body carries no revision is never refused as stale:
    whatever the stored incident and its revision count are, the answer is
    the revision [{ count: 1, user: sender, history: [] }]; the record
    stored under the id becomes the body with that revision (every other
    field as in the body), no other record, list or tombstone changes, and
    [update_incident] with that record is sent to every client that accepts
    it, provided the id is stored and not tombstoned. *)
Theorem handleEditIncident_without_revision
    env st request incident current :
  getRequestBody request = Some incident →
  revision incident = None →
  records st !! id incident = Some current →
  id incident ∉ deleted_incidents st →
  let sender := requestSender st request in
  let assigned := {| count := 1; Api.user := sender; history := [] |} in
  let stored :=
    {| id := id incident; time := time incident; event := event incident;
       match_ := match_ incident; team := team incident;
       outcome := outcome incident; rules := rules incident;
       notes := notes incident; revision := Some assigned |} in
  ∃ st' out,
    handleEditIncident request env st
    = (Success (DataRevision assigned), st', out)
    ∧ records st' !! id incident = Some stored
    ∧ (∀ other, other ≠ id incident →
         records st' !! other = records st !! other)
    ∧ incidents st' = incidents st
    ∧ deleted_incidents st' = deleted_incidents st
    ∧ ∀ c, c ∈ clients st → healthy env c →
           Send (socket c)
                {| body := update_incident stored; Api.sender := sender;
                   date := now env |}
           ∈ out.
Proof.
  intros Hbody Hrev Hcur Hdel sender assigned stored.
  pose proof (handleEditIncident_accepts env st request incident Hbody Hdel
                (mk_is_Some _ _ Hcur)) as Heq.
  unfold effectiveRevision in Heq. rewrite Hrev in Heq.
  rewrite Heq by (intros r Hr; discriminate Hr).
  eexists _, _. split; [reflexivity|]. split_and!; try done.
  - cbn. apply lookup_insert_eq.
  - intros other Hne. cbn. by apply lookup_insert_ne.
  - intros c Hc Hh. by apply broadcast_delivers.
Qed.

(** C6, corrected: after a first successful DELETE of an id, a second
    DELETE of the same id is refused with [bad_request] ("Could not find
    incident with that ID"); it sends nothing and leaves the server as it
    is, the id still tombstoned and not listed. *)
Theorem handleDeleteIncident_twice env env' st request request' id :
  param_id request = Some id → param_id request' = Some id →
  id ≠ EmptyString → id ∈ incidents st →
  ∃ st1,
    handleDeleteIncident request env st
    = (Success DataEmpty, st1,
       broadcastTrace env st (remove_incident id) (requestSender st request))
    ∧ handleDeleteIncident request' env' st1
      = (Failure bad_request "Could not find incident with that ID", st1, [])
    ∧ id ∈ deleted_incidents st1
    ∧ id ∉ incidents st1.
Proof.
  intros Hp Hp' Hne Hin.
  assert (Hfirst : ∀ req e s, param_id req = Some id →
    handleDeleteIncident req e s
    = (let '(ok, s1, _) := deleteIncident id e s in
       if negb ok
       then (Failure bad_request "Could not find incident with that ID",
             s1, [])
       else (Success DataEmpty, afterBroadcast e s1,
             broadcastTrace e s1 (remove_incident id) (requestSender s req)))).
  { intros req e s Hreq. unfold handleDeleteIncident. rewrite Hreq.
    destruct id as [|a id']; [done|].
    cbv beta iota zeta delta [mbind handler_bind findClient gets mret handler_ret].
    rewrite deleteIncident_eq.
    destruct (negb (negb _)); [done|].
    cbv beta iota zeta delta [mbind handler_bind mret handler_ret].
    rewrite broadcast_eq. same_result. }
  eexists. split_and!.
  - rewrite Hfirst by done. rewrite deleteIncident_eq.
    rewrite (proj2 (deleteIncident_success id (incidents st)) Hin).
    cbn [negb]. reflexivity.
  - rewrite Hfirst by done. rewrite deleteIncident_eq.
    cbn [incidents afterBroadcast set_clients set_inactive
         set_deleted_incidents set_incidents].
    destruct (negb (length _ =? length _)) eqn:Hok.
    { apply deleteIncident_success in Hok.
      by apply not_elem_of_filter_ne in Hok. }
    cbn [negb]. apply result_eq; [|done]. apply server_eq; cbn; try done.
    + apply filter_absent, not_elem_of_filter_ne.
    + set_solver.
  - cbn. set_solver.
  - cbn. apply not_elem_of_filter_ne.
Qed.

(** *** Sessions *)

Lemma getAllIncidents_readonly env st :
  getAllIncidents env st = ((getAllIncidents env st).1.1, st, []).
Proof. done. Qed.

Lemma getData_readonly env st :
  getData env st = ((getData env st).1.1, st, []).
Proof. done. Qed.

Lemma getAllScratchpads_readonly env st :
  getAllScratchpads env st = ((getAllScratchpads env st).1.1, st, []).
Proof. done. Qed.

Lemma handleSession_eq socket ip user env st :
  let st0 := joined socket ip user st in
  let st' := afterBroadcast env st0 in
  let snapshot :=
    payloadOf env
      (server_share_info ((getActiveUsers env st').1.1) (invitationList env)
         ((getData env st').1.1) ((getAllScratchpads env st').1.1))
      SenderServer in
  handleSession socket ip user env st
  = (negb (throws env socket), st',
     broadcastTrace env st0
       (server_user_add user ((getActiveUsers env st0).1.1)
          (invitationList env))
       SenderServer
     ++ (if throws env socket then [] else [Send socket snapshot])).
Proof.
  intros st0 st' snapshot. unfold handleSession.
  cbv beta iota zeta delta
    [mbind handler_bind mret handler_ret modify gets asks getInvitationList
     createPayload emit].
  change (getActiveUsers env _) with (getActiveUsers env st0) at 1.
  change (getActiveUsers env st0)
    with ((getActiveUsers env st0).1.1, st0, @nil Effect).
  cbv beta iota. rewrite broadcast_eq. fold st'.
  change (getActiveUsers env st')
    with ((getActiveUsers env st').1.1, st', @nil Effect).
  cbv beta iota.
  rewrite (getData_readonly env st'). cbv beta iota.
  rewrite (getAllScratchpads_readonly env st'). cbv beta iota.
  destruct (throws env socket); cbn [negb app]; rewrite ?app_nil_r; done.
Qed.

Lemma sessionIds_filter env st :
  NoDup (sessionIds st) → NoDup (sessionIds (afterBroadcast env st)).
Proof.
  unfold sessionIds. rewrite afterBroadcast_clients.
  intros Hnd. eapply sublist_NoDup; [exact Hnd|apply fmap_sublist, sublist_filter].
Qed.

(** *** Handlers that only drop sessions *)

Lemma shrinks_ret {A : Type} (x : A) : shrinks (mret x).
Proof. by intros env st. Qed.

Lemma shrinks_gets {A : Type} (f : Server → A) : shrinks (gets f).
Proof. by intros env st. Qed.

Lemma shrinks_asks {A : Type} (f : Env → A) : shrinks (asks f).
Proof. by intros env st. Qed.

Lemma shrinks_emit e : shrinks (emit e).
Proof. by intros env st. Qed.

Lemma shrinks_modify f :
  (∀ st, clients (f st) `sublist_of` clients st) → shrinks (modify f).
Proof. intros Hf env st. apply Hf. Qed.

Lemma shrinks_bind {A B : Type} (m : Handler A) (f : A → Handler B) :
  shrinks m → (∀ x, shrinks (f x)) → shrinks (m ≫= f).
Proof.
  intros Hm Hf env st. specialize (Hm env st).
  unfold mbind, handler_bind.
  destruct (m env st) as [[x st1] out1] eqn:Hrun. cbn in Hm.
  specialize (Hf x env st1).
  destruct (f x env st1) as [[y st2] out2]. cbn in Hf |- *.
  by etrans.
Qed.

Lemma shrinks_broadcast m s : shrinks (broadcast m s).
Proof.
  intros env st. rewrite broadcast_eq. cbn [fst snd].
  rewrite afterBroadcast_clients. apply sublist_filter.
Qed.

(** Applies the rules above along the structure of a handler. *)
Ltac shrink :=
  repeat first
    [ apply shrinks_ret | apply shrinks_gets | apply shrinks_asks
    | apply shrinks_emit | apply shrinks_broadcast
    | apply shrinks_modify; intros ?; reflexivity
    | apply shrinks_bind; [|intros ?]
    | match goal with
      | |- shrinks (match ?x with _ => _ end) => destruct x
      | |- shrinks (if ?b then _ else _) => destruct b
      end ].

Lemma shrinks_handle event :
  (∀ socket ip user, event ≠ SocketOpen socket ip user) →
  shrinks (handle event).
Proof.
  intros Hopen. destruct event; cbn [handle];
    try (by exfalso; eapply Hopen).
  - unfold handleGet, createServerShareMessage, getData, getAllIncidents,
      getAllScratchpads, getActiveUsers, getInvitationList,
      getDeletedIncidents, getIncidentList. shrink.
  - unfold handleCSV, getAllIncidents, getIncidentList. shrink.
  - unfold handleJSON, getAllIncidents, getIncidentList. shrink.
  - unfold handleAddIncident, findClient, getDeletedIncidents, addIncident.
    shrink.
  - unfold handleEditIncident, findClient, getDeletedIncidents, getIncident,
      editIncident. shrink.
  - unfold handleDeleteIncident, findClient, deleteIncident,
      getDeletedIncidents. shrink.
  - unfold onMessage, addIncident, editIncident, deleteIncident,
      getDeletedIncidents, setScratchpad. shrink.
  - unfold quitHandler, getActiveUsers, getInvitationList. shrink.
    apply shrinks_modify. intros st. apply sublist_filter.
Qed.

(** In every reachable state no peer id is registered twice. *)
Lemma reachable_sessions_unique st : reachable st → NoDup (sessionIds st).
Proof.
  induction 1 as [|st env event _ IH]; [constructor|].
  assert ((∃ socket ip user, event = SocketOpen socket ip user)
          ∨ (∀ socket ip user, event ≠ SocketOpen socket ip user))
    as [(socket & ip & user & ->)|Hother]
    by (destruct event; eauto; right; by intros).
  - cbn [handle]. unfold mbind, handler_bind, mret, handler_ret.
    rewrite handleSession_eq. cbn [fst snd].
    apply sessionIds_filter. unfold sessionIds, joined. cbn.
    rewrite fmap_app. apply NoDup_app. split_and!.
    + eapply sublist_NoDup; [exact IH|apply fmap_sublist, sublist_filter].
    + intros x [c [-> [Hne _]%list_elem_of_filter]]%list_elem_of_fmap.
      cbn. by intros Hin%list_elem_of_singleton.
    + cbn. apply NoDup_singleton.
  - eapply sublist_NoDup; [exact IH|]. apply fmap_sublist.
    by apply shrinks_handle.
Qed.

(** C7: when a peer opens a session, the sessions registered before under
    its peer id are gone from the client list by the time the
    [server_share_info] snapshot is built and sent: the snapshot is the last
    thing sent, it lists the active users of the final client list, in that
    list the only session of the peer id is the new one, and no peer id is
    registered twice. *)
Theorem handleSession_dedupes socket ip user env st :
  NoDup (sessionIds st) →
  ∃ st' out,
    handleSession socket ip user env st = (negb (throws env socket), st', out)
    ∧ (∀ c, c ∈ clients st' → user_id (Sync.user c) = user_id user →
            c = {| socket := socket; ip := ip; user := user |})
    ∧ NoDup (sessionIds st')
    ∧ (throws env socket = false →
       ∃ before data scratchpads,
         out = before
               ++ [Send socket
                     (payloadOf env
                        (server_share_info
                           (Sync.user <$> filter (λ c, Sync.socket c
                                                       ∉ inactive st')
                                                 (clients st'))
                           (invitationList env) data scratchpads)
                        SenderServer)]).
Proof.
  intros Hnd. rewrite handleSession_eq. eexists _, _.
  split; [reflexivity|]. split_and!.
  - intros c. rewrite afterBroadcast_clients.
    intros [_ Hc]%list_elem_of_filter. cbn in Hc.
    apply elem_of_app in Hc as [[Hne _]%list_elem_of_filter|Hc]; [done|].
    by apply list_elem_of_singleton in Hc.
  - apply sessionIds_filter. unfold sessionIds, joined. cbn.
    rewrite fmap_app. apply NoDup_app. split_and!.
    + eapply sublist_NoDup; [exact Hnd|apply fmap_sublist, sublist_filter].
    + intros x [c [-> [Hne _]%list_elem_of_filter]]%list_elem_of_fmap.
      cbn. by intros Hin%list_elem_of_singleton.
    + cbn. apply NoDup_singleton.
  - intros ->. eexists _, _, _. reflexivity.
Qed.

(** *** Chunked reads *)

Lemma take_add {A : Type} (l : list A) n m :
  take (n + m) l = take n l ++ take m (drop n l).
Proof.
  revert l. induction n as [|n IH]; intros [|x l]; cbn; try done.
  - by rewrite take_nil.
  - by rewrite IH.
Qed.

Lemma chunks_take {A : Type} (l : list A) size k :
  mjoin ((λ i, take size (drop (i * size) l)) <$> seq 0 k)
  = take (k * size) l.
Proof.
  induction k as [|k IH]; [done|].
  rewrite seq_S, fmap_app, join_app, IH. cbn [fmap list_fmap mjoin list_join plus].
  rewrite app_nil_r.
  replace (S k * size) with (k * size + size) by lia.
  by rewrite take_add.
Qed.

Lemma chunkCount_bounds n size :
  0 < size →
  let k := (n + size - 1) `div` size in
  n ≤ k * size ∧ ∀ i, i < k → i * size < n.
Proof.
  intros Hsize k.
  pose proof (Nat.div_mod_eq (n + size - 1) size) as Hdm.
  pose proof (Nat.mod_upper_bound (n + size - 1) size) as Hub.
  fold k in Hdm. split; [nia|]. intros i Hi. nia.
Qed.

Lemma groupIds_join (ids : list string) (size : nat) :
  0 < size → mjoin (groupIds ids size) = ids.
Proof.
  intros Hsize. unfold groupIds.
  destruct (chunkCount_bounds (length ids) size Hsize) as [Hcover _].
  rewrite chunks_take. by apply take_ge.
Qed.

(** The keys a bulk read looks up: the requested ids, each once. *)
Lemma getMany_keys (ids : list string) :
  merge_sort keyLe (remove_dups ids) ≡ₚ remove_dups ids.
Proof. apply merge_sort_Permutation. Qed.

Lemma elem_of_getMany {A : Type} (store : gmap string A) ids key value :
  (key, value) ∈ getMany store ids ↔ key ∈ ids ∧ store !! key = Some value.
Proof.
  unfold getMany. rewrite list_elem_of_omap. split.
  - intros (id & Hid & Hsome).
    rewrite getMany_keys, elem_of_remove_dups in Hid.
    destruct (store !! id) as [v|] eqn:Hv; [|done].
    cbn in Hsome. injection Hsome as <- <-. by split.
  - intros [Hid Hv]. exists key. rewrite getMany_keys, elem_of_remove_dups.
    split; [done|]. by rewrite Hv.
Qed.

Lemma elem_of_getMany_values {A : Type} (store : gmap string A) ids value :
  value ∈ (getMany store ids).*2
  ↔ ∃ id, id ∈ ids ∧ store !! id = Some value.
Proof.
  rewrite list_elem_of_fmap. split.
  - intros ([key v] & -> & Hin). apply elem_of_getMany in Hin. by exists key.
  - intros (id & Hid & Hv). exists (id, value). split; [done|].
    by apply elem_of_getMany.
Qed.

(** [getAllIncidents] returns the stored records of the listed ids. *)
Lemma elem_of_getAllIncidents env st i :
  i ∈ (getAllIncidents env st).1.1
  ↔ ∃ id, id ∈ incidents st ∧ records st !! id = Some i.
Proof.
  unfold getAllIncidents, getIncidentList.
  cbv beta iota zeta delta [mbind mret handler_bind handler_ret gets].
  cbn [fst snd]. rewrite list_elem_of_join. split.
  - intros (l & Hi & Hl).
    apply list_elem_of_fmap in Hl as (entries & -> & Hl).
    apply list_elem_of_fmap in Hl as (chunk & -> & Hchunk).
    apply elem_of_getMany_values in Hi as (id & Hid & Hrec).
    exists id. split; [|done].
    rewrite <- (groupIds_join (incidents st) 128) by lia.
    apply list_elem_of_join. by exists chunk.
  - intros (id & Hid & Hrec).
    rewrite <- (groupIds_join (incidents st) 128) in Hid by lia.
    apply list_elem_of_join in Hid as (chunk & Hid & Hchunk).
    exists ((getMany (records st) chunk).*2). split.
    + apply elem_of_getMany_values. by exists id.
    + apply list_elem_of_fmap. exists (getMany (records st) chunk).
      split; [done|]. apply list_elem_of_fmap. by exists chunk.
Qed.

(** *** CSV export *)

Lemma replaceAll_cons class by_ a s :
  replaceAll class (String by_ EmptyString) (String a s)
  = String (if class a then by_ else a)
           (replaceAll class (String by_ EmptyString) s).
Proof. cbn [replaceAll]. by destruct (class a). Qed.

(** Replacing a character class by one character keeps every position. *)
Lemma replaceAll_get class by_ s n c :
  String.get n s = Some c →
  String.get n (replaceAll class (String by_ EmptyString) s)
  = Some (if class c then by_ else c).
Proof.
  revert n. induction s as [|a s IH]; intros n Hget; [done|].
  rewrite replaceAll_cons. destruct n as [|n]; cbn in Hget |- *.
  - by injection Hget as ->.
  - by apply IH.
Qed.

Lemma replaceAll_length class by_ s :
  String.length (replaceAll class (String by_ EmptyString) s)
  = String.length s.
Proof.
  induction s as [|a s IH]; [done|]. rewrite replaceAll_cons.
  cbn [String.length]. by rewrite IH.
Qed.

Lemma firstLine_header rest :
  firstLine (csvHeader +:+ LF +:+ rest) = csvHeader.
Proof. reflexivity. Qed.

Lemma mapM_csvRow iso (incidents : list Incident) :
  match mapM (csvRow iso) incidents with
  | Some rows =>
      ∃ times, mapM (λ i, iso (time i)) incidents = Some times
               ∧ rows = zip_with (λ t i, String.concat "," (csvCells t i))
                                 times incidents
  | None => ∃ i, i ∈ incidents ∧ iso (time i) = None
  end.
Proof.
  induction incidents as [|i l IH]; [by exists []|].
  assert (Hstep : mapM (csvRow iso) (i :: l)
                  = t ← iso (time i);
                    rows ← mapM (csvRow iso) l;
                    Some (String.concat "," (csvCells t i) :: rows)).
  { cbn [mapM]. unfold csvRow. destruct (iso (time i)); reflexivity. }
  rewrite Hstep. clear Hstep.
  destruct (iso (time i)) as [t|] eqn:Ht; cbn [mbind option_bind].
  - destruct (mapM (csvRow iso) l) as [rows|]; cbn [mbind option_bind].
    + destruct IH as (times & Hts & ->). exists (t :: times).
      split; [|done]. cbn [mapM]. rewrite Ht. cbn. by rewrite Hts.
    + destruct IH as (j & Hj & Hn). exists j. split; [by right|done].
  - exists i. split; [by left|done].
Qed.

Lemma mapM_csvRow_rows iso (incidents : list Incident) :
  Forall (λ i, is_Some (iso (time i))) incidents →
  ∃ rows,
    mapM (csvRow iso) incidents = Some rows
    ∧ Forall2 (λ i row, ∃ t, iso (time i) = Some t
                             ∧ row = String.concat "," (csvCells t i))
              incidents rows.
Proof.
  intros Hall.
  assert (Hsome : is_Some (mapM (csvRow iso) incidents)).
  { apply mapM_is_Some. eapply Forall_impl; [exact Hall|].
    intros i [t Ht]. cbn. unfold csvRow. rewrite Ht. by eexists. }
  destruct Hsome as [rows Hrows]. exists rows. split; [done|].
  apply mapM_Some in Hrows. eapply Forall2_impl; [exact Hrows|].
  intros i row Hrow. cbv beta in Hrow. unfold csvRow in Hrow.
  destruct (iso (time i)) as [t|]; [|done].
  exists t. split; [done|]. by injection Hrow as <-.
Qed.

(** C8, corrected: when the time of every listed stored incident is a valid
    date (and the listed ids are ids of incidents, none of them a key that
    the storage uses for another value), the CSV export exists; its first
    line is the header
    [Date,Time,ID,SKU,Division,Match,Team,Outcome,Rules,Notes]; after the
    header and a line feed come the data rows, separated by line feeds, one
    for each incident that [getAllIncidents] returns and in that order, and
    these are the stored records of the listed ids.  A data row is ten cells
    joined by commas: the ISO time twice, the id, the event, the division,
    the match cell, the team, the outcome, the rules joined by one space,
    and the notes cell.  The match cell is [Auto Skills n] or
    [Driver Skills n] for a skills reference ([n] in decimal digits), the
    match name for a match reference and empty without a match.  The notes
    cell is the notes with every white-space character (the code units 9 to
    13, so the tab, the line feed and the carriage return, and 32 and 160)
    replaced by a space and every other character kept in place. *)
Theorem handleCSV_format env st :
  let decimal (n : N) := NilZero.string_of_uint (N.to_uint n) in
  let header := "Date,Time,ID,SKU,Division,Match,Team,Outcome,Rules,Notes" in
  let lineFeed := String (Ascii.ascii_of_nat 10) EmptyString in
  Forall incidentKey (incidents st) →
  (∀ id incident,
     id ∈ incidents st → records st !! id = Some incident →
     is_Some (toISOString env (time incident))) →
  ∃ output rows,
    (handleCSV env st).1.1 = Some output
    ∧ firstLine output = header
    ∧ output = header +:+ lineFeed +:+ String.concat lineFeed rows
    ∧ (∀ i, i ∈ (getAllIncidents env st).1.1
            ↔ ∃ id, id ∈ incidents st ∧ records st !! id = Some i)
    ∧ Forall2
        (λ (i : Incident) row,
           ∃ isoTime division matchCell notesCell,
             toISOString env (time i) = Some isoTime
             ∧ row
               = String.concat ","
                   [isoTime; isoTime; id i; event i; division; matchCell;
                    team i; outcome i; String.concat " " (rules i);
                    notesCell]
             ∧ division
               = match match_ i with
                 | Some (MatchRef division _ _) => decimal division
                 | _ => ""
                 end
             ∧ matchCell
               = match match_ i with
                 | Some (SkillsRef programming n) =>
                     "Auto Skills " +:+ decimal n
                 | Some (SkillsRef driver n) =>
                     "Driver Skills " +:+ decimal n
                 | Some (MatchRef _ name _) => name
                 | None => ""
                 end
             ∧ String.length notesCell = String.length (notes i)
             ∧ ∀ n c,
                 String.get n (notes i) = Some c →
                 String.get n notesCell
                 = Some (if bool_decide
                              (Ascii.nat_of_ascii c
                               ∈ [9; 10; 11; 12; 13; 32; 160])
                         then Ascii.ascii_of_nat 32 else c))
        (getAllIncidents env st).1.1 rows.
Proof.
  intros decimal header lineFeed _ Hvalid.
  set (exported := (getAllIncidents env st).1.1).
  assert (Hexported : ∀ i, i ∈ exported
            ↔ ∃ id, id ∈ incidents st ∧ records st !! id = Some i)
    by apply elem_of_getAllIncidents.
  assert (Htimes : Forall (λ i, is_Some (toISOString env (time i))) exported).
  { apply Forall_forall. intros i (id & Hid & Hrec)%Hexported.
    by apply (Hvalid id). }
  destruct (mapM_csvRow_rows (toISOString env) exported Htimes)
    as (rows & Hrows & Hcells).
  assert (Hrun : (handleCSV env st).1.1
                 = Some (header +:+ lineFeed +:+ String.concat lineFeed rows)).
  { unfold handleCSV.
    cbv beta iota zeta delta [mbind handler_bind mret handler_ret asks].
    rewrite getAllIncidents_readonly. fold exported. cbn [fst snd].
    by rewrite Hrows. }
  eexists _, rows. split; [exact Hrun|]. split; [reflexivity|].
  split; [reflexivity|]. split; [exact Hexported|].
  eapply Forall2_impl; [exact Hcells|].
  intros i row (t & Ht & ->). eexists t, _, _, _.
  split; [exact Ht|]. split; [reflexivity|]. split_and!.
  - by destruct (match_ i) as [[]|].
  - by destruct (match_ i) as [[? ? ?|[] ?]|].
  - apply replaceAll_length.
  - intros n c Hget. apply (replaceAll_get isSpace _ _ n c Hget).
Qed.

End SyncFacts.

(** * Further properties of the sync server *)

Section SyncStorage.
Import Api Sync.

(** *** Chunked reads *)

(** X3: for a positive chunk size, [groupIds] cuts the ids into chunks that
    put back together give the ids in their order, and every chunk holds at
    least one id and at most [size] ids; no ids give no chunk. *)
Theorem groupIds_partition (ids : list string) (size : nat) :
  0 < size →
  mjoin (groupIds ids size) = ids
  ∧ Forall (λ chunk, 0 < length chunk ≤ size) (groupIds ids size)
  ∧ (groupIds ids size = [] ↔ ids = []).
Proof.
  intros Hsize. split; [by apply groupIds_join|]. unfold groupIds.
  destruct (chunkCount_bounds (length ids) size Hsize) as [Hcover Hfull].
  set (k := (length ids + size - 1) `div` size) in *.
  split.
  - apply Forall_fmap, Forall_forall. intros i Hi%elem_of_seq. cbn.
    rewrite length_take, length_drop. specialize (Hfull i). lia.
  - split.
    + intros Hnil%fmap_nil_inv. destruct k as [|k]; [|done].
      apply length_zero_iff_nil. lia.
    + intros ->. cbn [length] in *. destruct k as [|k]; [done|].
      specialize (Hfull 0). lia.
Qed.

Lemma omap_entries_values {A : Type} (store : gmap string A)
    (ids : list string) :
  (omap (λ id, pair id <$> store !! id) ids).*2
  = omap (λ id, store !! id) ids.
Proof.
  induction ids as [|id ids IH]; [done|].
  cbn [omap list_omap]. destruct (store !! id); cbn; by rewrite IH.
Qed.

(** A bulk read of ids that are all different returns their values, in
    the order of the keys. *)
Lemma getMany_values {A : Type} (store : gmap string A) (ids : list string) :
  NoDup ids → (getMany store ids).*2 ≡ₚ omap (λ id, store !! id) ids.
Proof.
  intros Hnd. unfold getMany. rewrite omap_entries_values, getMany_keys.
  apply omap_Permutation, NoDup_Permutation;
    [apply NoDup_remove_dups | done | apply elem_of_remove_dups].
Qed.

Lemma getMany_chunks {A : Type} (store : gmap string A)
    (chunks : list (list string)) :
  NoDup (mjoin chunks) →
  mjoin ((λ map : list (string * A), map.*2)
           <$> ((λ ids, getMany store ids) <$> chunks))
  ≡ₚ omap (λ id, store !! id) (mjoin chunks).
Proof.
  induction chunks as [|chunk chunks IH]; [done|].
  change (mjoin (chunk :: chunks)) with (chunk ++ mjoin chunks).
  intros (Hchunk & _ & Hrest)%NoDup_app.
  rewrite !fmap_cons, omap_app.
  change (mjoin (?l :: ?ls)) with (l ++ mjoin ls).
  by rewrite IH, getMany_values.
Qed.

(** With an incident list that names no id twice, [getAllIncidents]
    returns the stored records of the listed ids, each once. *)
Lemma getAllIncidents_Permutation env st :
  NoDup (incidents st) →
  (getAllIncidents env st).1.1
  ≡ₚ omap (λ id, records st !! id) (incidents st).
Proof.
  intros Hnd. unfold getAllIncidents, getIncidentList.
  cbv beta iota zeta delta [mbind mret handler_bind handler_ret gets].
  cbn [fst snd]. rewrite getMany_chunks; rewrite groupIds_join by lia; done.
Qed.

End SyncStorage.

(** *** Reasoning about handlers by their postconditions *)

Section Postconditions.
Import Api Sync.

Lemma wp_ret {A : Type} (x : A) env st (Q : A → Server → list Effect → Prop) :
  Q x st [] → wp (mret x) env st Q.
Proof. done. Qed.

Lemma wp_bind {A B : Type} (m : Handler A) (f : A → Handler B) env st
    (Q : B → Server → list Effect → Prop) :
  wp m env st
     (λ x st1 out1,
        wp (f x) env st1 (λ y st2 out2, Q y st2 (out1 ++ out2))) →
  wp (m ≫= f) env st Q.
Proof.
  unfold wp, mbind, handler_bind.
  destruct (m env st) as [[x st1] out1]. cbn.
  by destruct (f x env st1) as [[y st2] out2].
Qed.

Lemma wp_gets {A : Type} (f : Server → A) env st
    (Q : A → Server → list Effect → Prop) :
  Q (f st) st [] → wp (gets f) env st Q.
Proof. done. Qed.

Lemma wp_asks {A : Type} (f : Env → A) env st
    (Q : A → Server → list Effect → Prop) :
  Q (f env) st [] → wp (asks f) env st Q.
Proof. done. Qed.

Lemma wp_modify f env st (Q : unit → Server → list Effect → Prop) :
  Q tt (f st) [] → wp (modify f) env st Q.
Proof. done. Qed.

Lemma wp_emit e env st (Q : unit → Server → list Effect → Prop) :
  Q tt st [e] → wp (emit e) env st Q.
Proof. done. Qed.

Lemma wp_broadcast m s env st (Q : unit → Server → list Effect → Prop) :
  Q tt (afterBroadcast env st) (broadcastTrace env st m s) →
  wp (broadcast m s) env st Q.
Proof. unfold wp. by rewrite broadcast_eq. Qed.

Lemma wp_addIncident incident env st
    (Q : unit → Server → list Effect → Prop) :
  Q tt
    (set_incidents
       (λ list, if decide (id incident ∈ list) then list
                else list ++ [id incident])
       (set_records (<[id incident := incident]>) st))
    [] →
  wp (addIncident incident) env st Q.
Proof. unfold wp. by rewrite addIncident_eq. Qed.

Lemma editIncident_eq incident env st :
  editIncident incident env st
  = match records st !! id incident with
    | Some _ => (true, set_records (<[id incident := incident]>) st, [])
    | None => (false, st, [])
    end.
Proof.
  unfold editIncident.
  cbv beta iota zeta delta [mbind handler_bind gets].
  by destruct (records st !! id incident).
Qed.

Lemma wp_editIncident incident env st
    (Q : bool → Server → list Effect → Prop) :
  match records st !! id incident with
  | Some _ => Q true (set_records (<[id incident := incident]>) st) []
  | None => Q false st []
  end →
  wp (editIncident incident) env st Q.
Proof.
  unfold wp. rewrite editIncident_eq.
  by destruct (records st !! id incident).
Qed.

Lemma wp_deleteIncident id env st (Q : bool → Server → list Effect → Prop) :
  Q (bool_decide (id ∈ incidents st))
    (set_deleted_incidents (λ deleted, deleted ∪ {[id]})
       (set_incidents (filter (λ value, value ≠ id)) st))
    [] →
  wp (deleteIncident id) env st Q.
Proof.
  unfold wp. rewrite deleteIncident_eq. cbn [fst snd].
  assert (negb (length (incidents st)
                =? length (filter (λ value, value ≠ id) (incidents st)))
          = bool_decide (id ∈ incidents st)) as ->; [|done].
  case_bool_decide as Hin.
  - by apply deleteIncident_success.
  - apply not_true_is_false. by rewrite deleteIncident_success.
Qed.

Lemma wp_getAllIncidents env st
    (Q : list Incident → Server → list Effect → Prop) :
  Q (getAllIncidents env st).1.1 st [] →
  wp getAllIncidents env st Q.
Proof. done. Qed.

Lemma wp_getAllScratchpads env st
    (Q : gmap string Json → Server → list Effect → Prop) :
  Q (getAllScratchpads env st).1.1 st [] →
  wp getAllScratchpads env st Q.
Proof. done. Qed.

(** One step of a handler, towards its postcondition. *)
Ltac wp_step :=
  lazymatch goal with
  | |- wp (mbind _ _) _ _ _ => apply wp_bind
  | |- wp (mret _) _ _ _ => apply wp_ret
  | |- wp (gets _) _ _ _ => apply wp_gets
  | |- wp (asks _) _ _ _ => apply wp_asks
  | |- wp (modify _) _ _ _ => apply wp_modify
  | |- wp (emit _) _ _ _ => apply wp_emit
  | |- wp (broadcast _ _) _ _ _ => apply wp_broadcast
  | |- wp (addIncident _) _ _ _ => apply wp_addIncident
  | |- wp (editIncident _) _ _ _ => apply wp_editIncident
  | |- wp (deleteIncident _) _ _ _ => apply wp_deleteIncident
  | |- wp getAllIncidents _ _ _ => apply wp_getAllIncidents
  | |- wp getAllScratchpads _ _ _ => apply wp_getAllScratchpads
  | |- wp (if decide ?P then _ else _) _ _ _ => destruct (decide P)
  | |- wp (if negb (bool_decide ?P) then _ else _) _ _ _ =>
      destruct (decide P);
      [rewrite (bool_decide_eq_true_2 P) by done
      |rewrite (bool_decide_eq_false_2 P) by done];
      cbn [negb]
  | |- wp (if ?b then _ else _) _ _ _ => destruct b eqn:?
  | |- wp (match ?x with _ => _ end) _ _ _ => destruct x eqn:?
  | |- match ?x with _ => _ end => destruct x eqn:?
  end; cbv beta; cbn [negb id with_revision].

Ltac wp_run :=
  unfold handleGet, handleCSV, handleJSON, handleAddIncident,
    handleEditIncident, handleDeleteIncident, handleSession, onMessage,
    quitHandler, createServerShareMessage, getData, createPayload,
    getActiveUsers, getInvitationList, getDeletedIncidents, getIncident,
    getIncidentList, findClient, setScratchpad, getScratchpad;
  repeat wp_step.

Lemma listed_stored_put (records : gmap string Incident)
    (list : list string) key incident :
  id incident = key →
  map_Forall (λ key incident, id incident = key) records →
  Forall (λ id, is_Some (records !! id)) list →
  map_Forall (λ key incident, id incident = key) (<[key := incident]> records)
  ∧ Forall (λ id, is_Some (<[key := incident]> records !! id)) list.
Proof.
  intros Hid Hkey Hall. split.
  - by apply map_Forall_insert_2.
  - eapply Forall_impl; [exact Hall|]. intros k Hk. cbn in Hk |- *.
    destruct (decide (key = k)) as [->|Hne].
    + rewrite lookup_insert_eq. eauto.
    + by rewrite lookup_insert_ne.
Qed.

Lemma handle_listed_stored event env st :
  listed_stored st → listed_stored (handle event env st).1.2.
Proof.
  intros (Hnd & Hkey & Hall).
  change (wp (handle event) env st (λ _ st' _, listed_stored st')).
  assert (Hadd : ∀ incident,
    NoDup (if decide (id incident ∈ incidents st) then incidents st
           else incidents st ++ [id incident])
    ∧ map_Forall (λ key incident, id incident = key)
        (<[id incident := incident]> (records st))
    ∧ Forall (λ k, is_Some (<[id incident := incident]> (records st) !! k))
        (if decide (id incident ∈ incidents st) then incidents st
         else incidents st ++ [id incident])).
  { intros incident.
    destruct (listed_stored_put (records st) (incidents st) (id incident)
                incident eq_refl Hkey Hall) as [Hkey' Hall'].
    case_decide as Hin; split_and!; try done.
    - apply NoDup_app. split_and!; [done| |apply NoDup_singleton].
      intros k Hk ->%list_elem_of_singleton. done.
    - apply Forall_app. split; [done|]. apply Forall_singleton.
      rewrite lookup_insert_eq. eauto. }
  assert (Hdel : ∀ id,
    NoDup (filter (λ value, value ≠ id) (incidents st))
    ∧ map_Forall (λ key incident, Api.id incident = key) (records st)
    ∧ Forall (λ k, is_Some (records st !! k))
        (filter (λ value, value ≠ id) (incidents st))).
  { intros id. split_and!; [by apply NoDup_filter|done|].
    apply Forall_forall. intros k [_ Hk]%list_elem_of_filter.
    by eapply Forall_forall in Hall. }
  destruct event; cbn [handle]; wp_run.
  all: try done.
  all: unfold listed_stored; cbn.
  all: try apply Hadd; try apply Hdel.
  all: split; [done|]; by apply listed_stored_put.
Qed.

Lemma drive_invariant (I : Server → Prop) (allowed : Event → Prop) :
  (∀ event env st, allowed event → I st → I (handle event env st).1.2) →
  ∀ events st,
    Forall (λ step, allowed step.2) events → I st → I (drive events st).
Proof.
  intros Hstep events. induction events as [|[env event] events IH];
    intros st Hall HI; [done|].
  apply Forall_cons in Hall as [Hevent Hall]. cbn [drive].
  apply IH; [done|]. by apply Hstep.
Qed.

Lemma Forall_any {A : Type} (l : list A) : Forall (λ _, True) l.
Proof. by apply Forall_forall. Qed.

(** The fresh durable object satisfies the invariants below. *)
Lemma initial_invariants :
  listed_stored initial ∧ sessions_active initial ∧ apart initial
  ∧ scratchpads_indexed initial.
Proof. split_and!; by_compute. Qed.

Lemma handle_records_apart event env st :
  plain event → records_apart st → records_apart (handle event env st).1.2.
Proof.
  intros Hplain Hst. unfold plain in Hplain.
  change (wp (handle event) env st (λ _ st' _, records_apart st')).
  destruct event; cbn [handle storedIds] in *; wp_run.
  all: try done.
  all: repeat match goal with
         | H : getRequestBody _ = _ |- _ => rewrite ?H in Hplain; clear H
         end.
  all: apply Forall_inv in Hplain.
  all: unfold records_apart; cbn.
  all: by apply map_Forall_insert_2.
Qed.

(** X4: as long as no incident is stored under a key that the storage uses
    for another value (a fixed key or the key of a scratchpad), whatever
    requests and session events the server handles, a storage whose
    incident list names no id twice, whose records are stored under their
    own id and whose listed ids all have a record keeps these properties
    (the fresh storage has them); [getAllIncidents] then returns exactly
    one incident per listed id. *)
Theorem drive_listed_stored events env st :
  listed_stored st →
  records_apart st →
  Forall (λ step, plain step.2) events →
  listed_stored (drive events st)
  ∧ records_apart (drive events st)
  ∧ id <$> (getAllIncidents env (drive events st)).1.1
    ≡ₚ incidents (drive events st).
Proof.
  intros Hst Hapart Hplain.
  assert (Hafter : listed_stored (drive events st)).
  { apply (drive_invariant listed_stored (λ _, True)); [|apply Forall_any|done].
    intros event env' st' _. apply handle_listed_stored. }
  assert (Hkeys : records_apart (drive events st)).
  { apply (drive_invariant records_apart plain); [|done|done].
    intros event env' st'. apply handle_records_apart. }
  split; [done|]. split; [done|].
  destruct Hafter as (Hnd & Hkey & Hall).
  rewrite getAllIncidents_Permutation by done.
  clear Hnd. induction Hall as [|k l [incident Hk] _ IH]; [done|].
  cbn [omap list_omap]. rewrite Hk. cbn. rewrite IH.
  by rewrite (Hkey k incident Hk).
Qed.

(** *** Sessions *)

Lemma active_afterBroadcast env (inactive : gset nat)
    (cs : list SessionClient) :
  Forall (λ client, socket client ∉ inactive) cs →
  Forall
    (λ client,
       socket client
       ∉ inactive
         ∪ list_to_set
             (socket <$> filter (λ c, throws env (socket c) = true) cs))
    (filter (healthy env) cs).
Proof.
  intros Hact. apply Forall_forall.
  intros c [Hhealthy Hc]%list_elem_of_filter.
  eapply Forall_forall in Hact; [|exact Hc].
  intros [Hin|Hin]%elem_of_union; [done|].
  apply elem_of_list_to_set, list_elem_of_fmap in Hin as (c' & Heq & Hc').
  apply list_elem_of_filter in Hc' as [Hthrows _].
  unfold healthy in Hhealthy. congruence.
Qed.

Lemma handle_sessions_active event env st :
  sessions_active st → sessions_active (handle event env st).1.2.
Proof.
  intros Hact.
  change (wp (handle event) env st (λ _ st' _, sessions_active st')).
  destruct event; cbn [handle]; wp_run.
  all: try done.
  all: unfold sessions_active; cbn.
  all: apply active_afterBroadcast; try done.
  - apply Forall_app. split.
    + apply Forall_forall. intros c [_ Hc]%list_elem_of_filter.
      eapply Forall_forall in Hact; [|exact Hc]. set_solver.
    + apply Forall_singleton. cbn. set_solver.
  - apply Forall_app. split.
    + apply Forall_forall. intros c [_ Hc]%list_elem_of_filter.
      eapply Forall_forall in Hact; [|exact Hc]. set_solver.
    + apply Forall_singleton. cbn. set_solver.
  - apply Forall_forall. intros c [Hne Hc]%list_elem_of_filter.
    eapply Forall_forall in Hact; [|exact Hc]. set_solver.
Qed.

(** X5: whatever requests and session events the server handles, if every
    registered session is active before, every registered session is active
    after (a session is unregistered in the step that marks it inactive), so
    the active users that snapshots and user notices list are the users of
    all registered sessions. *)
Theorem drive_sessions_active events env st :
  sessions_active st →
  sessions_active (drive events st)
  ∧ (getActiveUsers env (drive events st)).1.1
    = user <$> clients (drive events st).
Proof.
  intros Hst.
  assert (Hafter : sessions_active (drive events st)).
  { apply (drive_invariant sessions_active (λ _, True));
      [|apply Forall_any|done].
    intros event env' st' _. apply handle_sessions_active. }
  split; [done|]. unfold getActiveUsers, gets. cbn [fst snd]. f_equal.
  induction Hafter as [|c cs Hc _ IH]; [done|].
  by rewrite filter_cons_True, IH.
Qed.

(** *** Tombstones *)

Lemma handle_grows event env st :
  deleted_incidents st ⊆ deleted_incidents (handle event env st).1.2
  ∧ dom (records st) ⊆ dom (records (handle event env st).1.2)
  ∧ scratchpad_list st ⊆ scratchpad_list (handle event env st).1.2.
Proof.
  change (wp (handle event) env st
            (λ _ st' _, deleted_incidents st ⊆ deleted_incidents st'
                        ∧ dom (records st) ⊆ dom (records st')
                        ∧ scratchpad_list st ⊆ scratchpad_list st')).
  destruct event; cbn [handle]; wp_run.
  all: cbn; try done.
  all: rewrite ?dom_insert; set_solver.
Qed.

Lemma drive_grows events st :
  deleted_incidents st ⊆ deleted_incidents (drive events st)
  ∧ dom (records st) ⊆ dom (records (drive events st))
  ∧ scratchpad_list st ⊆ scratchpad_list (drive events st).
Proof.
  revert st. induction events as [|[env event] events IH]; intros st; [done|].
  cbn [drive]. specialize (IH (handle event env st).1.2).
  pose proof (handle_grows event env st). set_solver.
Qed.

(** X6: as long as no incident is stored under a key that the storage uses
    for another value, no request and no session event removes a tombstone,
    a stored record or a listed scratchpad id (only [destroy], which clears
    the whole storage, would); so once an id is tombstoned, whatever such
    requests and session events follow, a PUT and a PATCH of an incident
    with that id are refused ("That incident has been deleted."), store
    nothing and send nothing. *)
Theorem tombstones_are_permanent events env st request incident :
  records_apart st →
  Forall (λ step, plain step.2) events →
  id incident ∈ deleted_incidents st →
  getRequestBody request = Some incident →
  let st' := drive events st in
  deleted_incidents st ⊆ deleted_incidents st'
  ∧ dom (records st) ⊆ dom (records st')
  ∧ scratchpad_list st ⊆ scratchpad_list st'
  ∧ handleAddIncident request env st'
    = (Failure bad_request "That incident has been deleted.", st', [])
  ∧ handleEditIncident request env st'
    = (Failure bad_request "That incident has been deleted.", st', []).
Proof.
  intros _ _ Hdel Hbody st'.
  destruct (drive_grows events st) as (Hd & Hr & Hs). fold st' in Hd, Hr, Hs.
  split_and!; try done.
  - unfold handleAddIncident. rewrite Hbody.
    cbv beta iota zeta delta
      [mbind mret handler_bind handler_ret gets findClient
       getDeletedIncidents].
    rewrite decide_True by set_solver. done.
  - unfold handleEditIncident. rewrite Hbody.
    cbv beta iota zeta delta
      [mbind mret handler_bind handler_ret gets getDeletedIncidents].
    rewrite decide_True by set_solver. done.
Qed.

Lemma handle_apart event env st :
  isSocketAdd event = false → apart st → apart (handle event env st).1.2.
Proof.
  intros Hevent Hapart.
  change (wp (handle event) env st (λ _ st' _, apart st')).
  assert (Hdel : ∀ id,
    Forall (λ k, k ∉ deleted_incidents st ∪ {[id]})
           (filter (λ value, value ≠ id) (incidents st))).
  { intros id. apply Forall_forall. intros k [Hne Hk]%list_elem_of_filter.
    eapply Forall_forall in Hapart; [|exact Hk]. set_solver. }
  destruct event; cbn [handle]; wp_run.
  all: try done.
  all: unfold apart; cbn.
  all: try apply Hdel.
  case_decide; [done|]. apply Forall_app. split; [done|].
  by apply Forall_singleton.
Qed.

(** X7: as long as no [add_incident] frame arrives on a session, an
    incident list that names no tombstoned id stays so: the HTTP routes, the
    other frames and the session events never list a tombstoned id. *)
Theorem drive_apart events st :
  Forall (λ step, isSocketAdd step.2 = false) events →
  apart st → apart (drive events st).
Proof.
  apply (drive_invariant apart (λ event, isSocketAdd event = false)).
  intros event env st'. apply handle_apart.
Qed.

(** *** Scratchpads *)

Lemma append_inj (prefix a b : string) :
  prefix +:+ a = prefix +:+ b → a = b.
Proof.
  induction prefix as [|c prefix IH]; [done|].
  intros Heq. apply IH. by injection Heq.
Qed.

Lemma append_length (a b : string) :
  String.length (a +:+ b) = String.length a + String.length b.
Proof.
  induction a as [|c a IH]; [done|].
  change (S (String.length (a +:+ b)) = S (String.length a + String.length b)).
  by rewrite IH.
Qed.

Lemma prefixed_ne (id : string) : "scratchpad_" +:+ id ≠ id.
Proof.
  intros Heq. apply (f_equal String.length) in Heq.
  rewrite append_length in Heq. cbn in Heq. lia.
Qed.

Lemma getAllScratchpads_lookup env st key :
  (getAllScratchpads env st).1.1 !! key
  = if decide (key ∈ scratchpad_list st) then scratchpad_store st !! key
    else None.
Proof.
  unfold getAllScratchpads.
  cbv beta iota zeta delta [mbind mret handler_bind handler_ret gets].
  cbn [fst snd].
  set (entries := mjoin ((λ ids, getMany (scratchpad_store st) ids)
                           <$> groupIds (elements (scratchpad_list st)) 128)).
  assert (Hentries : ∀ k v,
    (k, v) ∈ entries
    ↔ k ∈ scratchpad_list st ∧ scratchpad_store st !! k = Some v).
  { intros k v. unfold entries. rewrite list_elem_of_join. split.
    - intros (l & Hkv & (chunk & -> & Hchunk)%list_elem_of_fmap).
      apply elem_of_getMany in Hkv as [Hk Hv]. split; [|done].
      rewrite <- elem_of_elements.
      rewrite <- (groupIds_join (elements (scratchpad_list st)) 128) by lia.
      apply list_elem_of_join. by exists chunk.
    - intros [Hk Hv]. rewrite <- elem_of_elements in Hk.
      rewrite <- (groupIds_join (elements (scratchpad_list st)) 128) in Hk
        by lia.
      apply list_elem_of_join in Hk as (chunk & Hk & Hchunk).
      exists (getMany (scratchpad_store st) chunk). split.
      + by apply elem_of_getMany.
      + apply list_elem_of_fmap. by exists chunk. }
  unfold fromEntries.
  destruct (list_to_map (reverse entries) !! key) as [v|] eqn:Hlk.
  - apply elem_of_list_to_map_2, elem_of_reverse, Hentries in Hlk
      as [Hk Hv].
    by rewrite decide_True.
  - case_decide as Hk; [|done].
    destruct (scratchpad_store st !! key) as [v|] eqn:Hv; [|done].
    apply not_elem_of_list_to_map_2 in Hlk. destruct Hlk.
    apply list_elem_of_fmap. exists (key, v). split; [done|].
    apply elem_of_reverse, Hentries. done.
Qed.

(** X8: a scratchpad written by [setScratchpad] is read back by
    [getScratchpad] under the same id, and the scratchpads of the other ids
    are as before. *)
Theorem setScratchpad_getScratchpad id scratchpad other env env' st :
  let st' := (setScratchpad id scratchpad env st).1.2 in
  (getScratchpad id env' st').1.1 = Some scratchpad
  ∧ id ∈ scratchpad_list st'
  ∧ (other ≠ id →
     (getScratchpad other env' st').1.1 = (getScratchpad other env' st).1.1).
Proof.
  intros st'. split_and!.
  - cbn. apply lookup_insert_eq.
  - cbn. set_solver.
  - intros Hne. cbn. apply lookup_insert_ne.
    intros Heq%append_inj. done.
Qed.

(** X9: [getAllScratchpads] looks every listed id up under the id itself,
    whereas [setScratchpad] stores under the prefixed key: for an id that is
    no fixed key of the storage and under which no incident is stored, its
    result maps a listed id to the scratchpad that the storage holds under
    that very key.  So after [setScratchpad id scratchpad] on a storage that
    holds nothing under the key [id], the result has no entry for [id],
    although [getScratchpad id] returns the scratchpad. *)
Theorem getAllScratchpads_reads_unprefixed id scratchpad env env' st :
  id ∉ storageKeys →
  records st !! id = None →
  ((getAllScratchpads env st).1.1 !! id
   = if decide (id ∈ scratchpad_list st) then scratchpad_store st !! id
     else None)
  ∧ (scratchpad_store st !! id = None →
     let st' := (setScratchpad id scratchpad env st).1.2 in
     (getAllScratchpads env' st').1.1 !! id = None
     ∧ (getScratchpad id env' st').1.1 = Some scratchpad).
Proof.
  intros _ _. split; [apply getAllScratchpads_lookup|].
  intros Hfree st'. split.
  - rewrite getAllScratchpads_lookup. case_decide; [|done].
    cbn. rewrite lookup_insert_ne by apply prefixed_ne. done.
  - cbn. apply lookup_insert_eq.
Qed.

Lemma handle_scratchpads_indexed event env st :
  scratchpads_indexed st → scratchpads_indexed (handle event env st).1.2.
Proof.
  intros Hidx.
  change (wp (handle event) env st (λ _ st' _, scratchpads_indexed st')).
  destruct event; cbn [handle]; wp_run.
  all: try done.
  unfold scratchpads_indexed in *. cbn.
  rewrite dom_insert_L, Hidx, set_map_union_L, set_map_singleton_L.
  set_solver.
Qed.

(** X10: as long as no incident is stored under a key that the storage
    uses for another value, whatever requests and session events the server
    handles, starting from a storage whose scratchpad entries are those of
    the listed ids (as in the fresh storage), an entry of
    [getAllScratchpads] under an id that is no fixed key of the storage and
    under which no incident is stored is never the scratchpad stored for
    that id: it is the scratchpad stored for the id that, prefixed by
    [scratchpad_], spells it. *)
Theorem drive_scratchpads_misread events env st id scratchpad :
  scratchpads_indexed st →
  records_apart st →
  Forall (λ step, plain step.2) events →
  id ∉ storageKeys →
  records (drive events st) !! id = None →
  (getAllScratchpads env (drive events st)).1.1 !! id = Some scratchpad →
  ∃ other,
    id = "scratchpad_" +:+ other
    ∧ other ≠ id
    ∧ other ∈ scratchpad_list (drive events st)
    ∧ (getScratchpad other env (drive events st)).1.1 = Some scratchpad.
Proof.
  intros Hst _ _ _ _.
  assert (Hidx : scratchpads_indexed (drive events st)).
  { apply (drive_invariant scratchpads_indexed (λ _, True));
      [|apply Forall_any|done].
    intros event env' st' _. apply handle_scratchpads_indexed. }
  rewrite getAllScratchpads_lookup. case_decide as Hlisted; [|done].
  intros Hget.
  assert (Hdom : id ∈ dom (scratchpad_store (drive events st)))
    by (apply elem_of_dom; eauto).
  rewrite Hidx in Hdom. apply elem_of_map in Hdom as (other & -> & Hother).
  exists other. split_and!; try done.
  intros Heq. by apply (prefixed_ne other).
Qed.

(** *** Requests and frames *)

Lemma wp_eq {A : Type} (h : Handler A) env st (x : A * Server * list Effect) :
  wp h env st (λ r st' out, (r, st', out) = x) → h env st = x.
Proof. unfold wp. by destruct (h env st) as [[r st'] out]. Qed.

(** X11: a PUT without a parsable body, a PATCH without one and a DELETE
    without an id are refused with their messages; and a PUT or a PATCH that
    is refused, for whatever reason, leaves the server as it is and sends
    nothing. *)
Theorem refused_requests_change_nothing request env st :
  (getRequestBody request = None →
   handleAddIncident request env st
   = (Failure bad_request "Must specify a valid incident.", st, [])
   ∧ handleEditIncident request env st
     = (Failure bad_request "Must specify a valid incident to edit.", st, []))
  ∧ (param_id request = None ∨ param_id request = Some "" →
     handleDeleteIncident request env st
     = (Failure bad_request "Must specify `id` of incident to delete", st,
        []))
  ∧ (success (handleAddIncident request env st).1.1 = false →
     (handleAddIncident request env st).1.2 = st
     ∧ (handleAddIncident request env st).2 = [])
  ∧ (success (handleEditIncident request env st).1.1 = false →
     (handleEditIncident request env st).1.2 = st
     ∧ (handleEditIncident request env st).2 = []).
Proof.
  split_and!.
  - intros Hbody. split; apply wp_eq; wp_run; by try congruence.
  - intros Hid. apply wp_eq. wp_run; try done.
    all: destruct Hid; congruence.
  - change (wp (handleAddIncident request) env st
              (λ r st' out, success r = false → st' = st ∧ out = [])).
    wp_run; by try done.
  - change (wp (handleEditIncident request) env st
              (λ r st' out, success r = false → st' = st ∧ out = [])).
    wp_run; by try done.
Qed.

(** X12: a DELETE of an id that is not listed is refused ("Could not find
    incident with that ID") and sends nothing, but it tombstones the id all
    the same: a later PUT of an incident with that id is refused as
    deleted. *)
Theorem handleDeleteIncident_unlisted request env st id :
  param_id request = Some id → id ≠ "" → id ∉ incidents st →
  let st' := set_deleted_incidents (λ deleted, deleted ∪ {[id]}) st in
  handleDeleteIncident request env st
  = (Failure bad_request "Could not find incident with that ID", st', [])
  ∧ ∀ request' env' incident,
      getRequestBody request' = Some incident → Api.id incident = id →
      handleAddIncident request' env' st'
      = (Failure bad_request "That incident has been deleted.", st', []).
Proof.
  intros Hid Hne Hnot st'. split.
  - apply wp_eq. wp_run; try congruence.
    all: assert (id = String a s0) as <- by congruence; try done.
    apply result_eq; [|done]. apply server_eq; cbn; try done.
    by apply filter_absent.
  - intros request' env' incident Hbody <-. apply wp_eq. wp_run.
    + done.
    + exfalso. cbn in *. set_solver.
    + congruence.
Qed.

(** X13: a PATCH for an id under which nothing is stored (the id is no key
    that the storage uses for another value and has no stored record) and
    that is not tombstoned is refused and changes nothing: with "The
    incident has been edited more recently." when its revision count is
    negative (the count of a missing record is read as 0), otherwise with
    "Could not edit incident with that ID". *)
Theorem handleEditIncident_unknown_id request env st incident :
  getRequestBody request = Some incident →
  incidentKey (id incident) →
  records st !! id incident = None →
  id incident ∉ deleted_incidents st →
  handleEditIncident request env st
  = (Failure bad_request
       match revision incident with
       | Some r =>
           if bool_decide (count r < 0)%Z
           then "The incident has been edited more recently."
           else "Could not edit incident with that ID"
       | None => "Could not edit incident with that ID"
       end,
     st, []).
Proof.
  intros Hbody _ Hnone Hdel. apply wp_eq. wp_run; try congruence.
  all: assert (i = incident) as -> by congruence.
  all: rewrite ?Hnone in *; cbn in *; try done.
  all: destruct (revision incident) as [r|]; try done.
  all: by rewrite Heqb.
Qed.

(** X14: a PUT of an incident whose id is not tombstoned, and is no key
    that the storage uses for another value, succeeds and echoes the
    incident; the incident is stored under its id, its id is listed
    (appended when it was not listed, left in place when it was),
    [add_incident] goes to every client whose socket accepts it, and a
    repeated PUT of the same incident changes nothing in the storage. *)
Theorem handleAddIncident_accepts request env env' st incident :
  getRequestBody request = Some incident →
  incidentKey (id incident) →
  id incident ∉ deleted_incidents st →
  let st1 := (handleAddIncident request env st).1.2 in
  let st2 := (handleAddIncident request env' st1).1.2 in
  (handleAddIncident request env st).1.1 = Success (DataIncident incident)
  ∧ records st1 = <[id incident := incident]> (records st)
  ∧ incidents st1
    = (if decide (id incident ∈ incidents st) then incidents st
       else incidents st ++ [id incident])
  ∧ (∀ c, c ∈ clients st → healthy env c →
       Send (socket c)
            {| body := add_incident incident;
               sender := requestSender st request; date := now env |}
       ∈ (handleAddIncident request env st).2)
  ∧ records st2 = records st1
  ∧ incidents st2 = incidents st1
  ∧ deleted_incidents st2 = deleted_incidents st.
Proof.
  intros Hbody _ Hdel.
  assert (Hrun : ∀ e s, id incident ∉ deleted_incidents s →
    handleAddIncident request e s
    = (Success (DataIncident incident),
       afterBroadcast e
         (set_incidents
            (λ list, if decide (id incident ∈ list) then list
                     else list ++ [id incident])
            (set_records (<[id incident := incident]>) s)),
       broadcastTrace e s (add_incident incident) (requestSender s request))).
  { intros e s Hs. apply wp_eq. wp_run; try congruence.
    assert (i = incident) as -> by congruence.
    cbn [app]. by rewrite app_nil_r. }
  intros st1 st2. unfold st2, st1. rewrite (Hrun env st Hdel).
  cbn [fst snd]. rewrite Hrun by done. cbn. split_and!; try done.
  - intros c Hc Hh. by apply broadcast_delivers.
  - apply insert_insert_eq.
  - destruct (decide (id incident ∈ incidents st)) as [Hin|Hin].
    + by rewrite decide_True.
    + rewrite decide_True; [done|]. apply elem_of_app. right. by left.
Qed.

(** X15: a frame received on a session that was marked inactive is not
    applied: the socket is closed with code 1011 and the server stays as it
    is.  That is the state [quitHandler] leaves its session in: the session
    is unregistered and marked inactive, the storage is untouched, and any
    later frame of that session only closes the socket. *)
Theorem inactive_session_is_closed client data data' env env' env'' st :
  (socket client ∈ inactive st →
   onMessage client data env st
   = (tt, st, [Close (socket client) 1011 "WebSocket broken."]))
  ∧ let st' := (quitHandler client env' st).1.2 in
    socket client ∈ inactive st'
    ∧ Forall (λ c, socket c ≠ socket client) (clients st')
    ∧ clients st' `sublist_of` clients st
    ∧ records st' = records st
    ∧ incidents st' = incidents st
    ∧ deleted_incidents st' = deleted_incidents st
    ∧ scratchpad_store st' = scratchpad_store st
    ∧ onMessage client data' env'' st'
      = (tt, st', [Close (socket client) 1011 "WebSocket broken."]).
Proof.
  assert (Hclosed : ∀ d e s, socket client ∈ inactive s →
    onMessage client d e s
    = (tt, s, [Close (socket client) 1011 "WebSocket broken."])).
  { intros d e s Hin. apply wp_eq. wp_run; done. }
  split; [apply Hclosed|]. intros st'.
  assert (Hquit : st'
    = afterBroadcast env'
        (set_clients (filter (λ member, socket member ≠ socket client))
           (set_inactive (λ s, s ∪ {[socket client]}) st))).
  { unfold st'.
    change (wp (quitHandler client) env' st (λ _ s _, s = afterBroadcast env'
        (set_clients (filter (λ member, socket member ≠ socket client))
           (set_inactive (λ s, s ∪ {[socket client]}) st)))).
    by wp_run. }
  split_and!; try (by rewrite Hquit).
  - rewrite Hquit. cbn. set_solver.
  - rewrite Hquit. cbn. apply Forall_forall.
    by intros c [_ [Hne _]%list_elem_of_filter]%list_elem_of_filter.
  - rewrite Hquit. cbn. etrans; apply sublist_filter.
  - apply Hclosed. rewrite Hquit. cbn. set_solver.
Qed.

(** X16: the frames of a session are applied without the checks of the HTTP
    routes.  An [update_incident] frame whose id is no key that the storage
    uses for another value overwrites the record stored under its id
    whatever the revision counts and the tombstones, stores nothing when no
    record is stored under the id, and is broadcast in both cases; a
    [remove_incident] frame unlists and tombstones the id and is broadcast
    whether or not the id was listed. *)
Theorem frames_are_not_checked client incident id' env st :
  socket client ∉ inactive st →
  incidentKey (id incident) →
  let sender :=
    SenderClient (user_name (user client)) (user_id (user client)) in
  onMessage client (update_incident incident) env st
  = (tt,
     afterBroadcast env
       (if decide (is_Some (records st !! id incident))
        then set_records (<[id incident := incident]>) st else st),
     broadcastTrace env st (update_incident incident) sender)
  ∧ onMessage client (remove_incident id') env st
    = (tt,
       afterBroadcast env
         (set_deleted_incidents (λ deleted, deleted ∪ {[id']})
            (set_incidents (filter (λ value, value ≠ id')) st)),
       broadcastTrace env st (remove_incident id') sender).
Proof.
  intros Hact _ sender. split; apply wp_eq; wp_run; done.
Qed.

(** *** Broadcast and sessions *)

Lemma elem_of_sends payload (cs : list SessionClient) e :
  e ∈ sends payload cs ↔ ∃ c, e = Send (socket c) payload ∧ c ∈ cs.
Proof. unfold sends. apply list_elem_of_fmap. Qed.

(** X17: a broadcast touches no storage; it keeps the clients whose socket
    accepts a [send], in their order, and marks the others inactive; it only
    sends, only to clients it keeps, and it sends them the payload made of
    the message, the sender and the clock; when every socket accepts, the
    server is left as it is and the effects are one [send] per client in
    order.  The nested broadcasts that announce the dropped clients end:
    the outcome is the same with any larger bound on the nesting. *)
Theorem broadcast_outcome m s env st fuel :
  let st' := (broadcast m s env st).1.2 in
  let out := (broadcast m s env st).2 in
  let payload := {| body := m; sender := s; date := now env |} in
  (sku st' = sku st ∧ records st' = records st
   ∧ incidents st' = incidents st
   ∧ deleted_incidents st' = deleted_incidents st
   ∧ scratchpad_list st' = scratchpad_list st
   ∧ scratchpad_store st' = scratchpad_store st)
  ∧ clients st' = filter (healthy env) (clients st)
  ∧ (∀ c, c ∈ clients st → ¬ healthy env c → socket c ∈ inactive st')
  ∧ (∀ e, e ∈ out →
       ∃ c p, e = Send (socket c) p ∧ c ∈ clients st' ∧ date p = now env)
  ∧ (∀ c, c ∈ clients st → healthy env c → Send (socket c) payload ∈ out)
  ∧ (Forall (healthy env) (clients st) →
     st' = st ∧ out = sends payload (clients st))
  ∧ broadcast_fuel (S (length (clients st)) + fuel) m s env st
    = broadcast m s env st.
Proof.
  intros st' out payload. unfold st', out. rewrite broadcast_eq.
  cbn [fst snd]. split_and!; try done.
  - intros c Hc Hbad. cbn. apply elem_of_union. right.
    apply elem_of_list_to_set, list_elem_of_fmap. exists c. split; [done|].
    apply list_elem_of_filter. split; [|done].
    unfold healthy in Hbad. by destruct (throws env (socket c)).
  - intros e. unfold broadcastTrace. rewrite afterBroadcast_clients.
    intros [He|He]%elem_of_app.
    + apply elem_of_sends in He as (c & -> & Hc). by eexists c, _.
    + apply list_elem_of_join in He as (l & He & Hl).
      apply list_elem_of_fmap in Hl as (dropped & -> & _).
      apply elem_of_sends in He as (c & -> & Hc). by eexists c, _.
  - intros c Hc Hh. by apply broadcast_delivers.
  - intros Hall. destruct (filter_failing_healthy env _ Hall) as [Hf Hk].
    unfold broadcastTrace, afterBroadcast, healthy in *.
    rewrite Hf, Hk. cbn. rewrite app_nil_r. split; [|done].
    apply server_eq; cbn; try done. set_solver.
  - by rewrite broadcast_fuel_enough, broadcast_eq.
Qed.

(** X18: opening a session touches no storage; the new session is
    registered exactly when its socket accepts a [send], and then it is the
    last of the client list, it is active and the snapshot was sent to it
    last. *)
Theorem handleSession_registers socket ip user env st :
  let client := {| socket := socket; ip := ip; user := user |} in
  let st' := (handleSession socket ip user env st).1.2 in
  (handleSession socket ip user env st).1.1 = negb (throws env socket)
  ∧ (records st' = records st ∧ incidents st' = incidents st
     ∧ deleted_incidents st' = deleted_incidents st
     ∧ scratchpad_list st' = scratchpad_list st
     ∧ scratchpad_store st' = scratchpad_store st)
  ∧ (client ∈ clients st' ↔ throws env socket = false)
  ∧ (throws env socket = false →
     last (clients st') = Some client
     ∧ (socket ∉ inactive st')
     ∧ ∃ payload activeUsers invitations data scratchpads,
         last (handleSession socket ip user env st).2
         = Some (Send socket payload)
         ∧ sender payload = SenderServer
         ∧ body payload
           = server_share_info activeUsers invitations data scratchpads).
Proof.
  intros client st'. unfold st'. rewrite handleSession_eq. cbn [fst snd].
  split_and!; try done.
  - rewrite afterBroadcast_clients. unfold joined. cbn.
    rewrite filter_app, elem_of_app, !list_elem_of_filter. split.
    + intros [[_ [Hne _]]|[Hh _]]; [done|exact Hh].
    + intros Hh. right. split; [exact Hh|]. by left.
  - intros Hok. split_and!.
    + rewrite afterBroadcast_clients. unfold joined. cbn.
      rewrite filter_app, filter_cons_True by exact Hok.
      by rewrite filter_nil, last_snoc.
    + cbn. intros [Hin|Hin]%elem_of_union; [set_solver|].
      apply elem_of_list_to_set, list_elem_of_fmap in Hin as (c & Heq & Hc).
      apply list_elem_of_filter in Hc as [Hthrows _]. congruence.
    + rewrite Hok. eexists _, _, _, _, _. rewrite last_snoc. done.
Qed.

(** *** Read-only routes *)

(** X19: the CSV export fails exactly when the time of a stored incident
    on the list is not a valid date ([toISOString] throws), and with an
    empty incident list it is the header line alone. *)
Theorem handleCSV_fails_on_invalid_time env st :
  ((handleCSV env st).1.1 = None
   ↔ ∃ id incident,
       id ∈ incidents st ∧ records st !! id = Some incident
       ∧ toISOString env (time incident) = None)
  ∧ (incidents st = [] → (handleCSV env st).1.1 = Some (csvHeader +:+ LF)).
Proof.
  assert (Hrun : (handleCSV env st).1.1
    = (rows ← mapM (csvRow (toISOString env)) (getAllIncidents env st).1.1;
       Some (csvHeader +:+ LF +:+ String.concat LF rows))).
  { change (wp handleCSV env st (λ r _ _, r
      = (rows ← mapM (csvRow (toISOString env))
                     (getAllIncidents env st).1.1;
         Some (csvHeader +:+ LF +:+ String.concat LF rows)))).
    by wp_run. }
  rewrite Hrun. split.
  - pose proof (elem_of_getAllIncidents env st) as Hstored.
    set (stored := (getAllIncidents env st).1.1) in *.
    pose proof (mapM_csvRow (toISOString env) stored) as Hrows.
    destruct (mapM (csvRow (toISOString env)) stored) as [rows|] eqn:Hmap.
    + split; [done|]. intros (id & incident & Hid & Hrec & Htime).
      assert (Hsome : is_Some (mapM (csvRow (toISOString env)) stored))
        by (rewrite Hmap; eauto).
      apply mapM_is_Some in Hsome.
      assert (Hin : incident ∈ stored)
        by (apply Hstored; by exists id).
      eapply Forall_forall in Hsome; [|exact Hin].
      cbn in Hsome. unfold csvRow in Hsome. rewrite Htime in Hsome.
      by destruct Hsome.
    + split; [|done]. intros _. destruct Hrows as (i & Hi & Htime).
      apply Hstored in Hi as (id & Hid & Hrec).
      by exists id, i.
  - intros Hnone.
    assert (Hempty : (getAllIncidents env st).1.1 = []).
    { destruct (getAllIncidents env st).1.1 as [|i l] eqn:Hl; [done|].
      assert (Hi : i ∈ (getAllIncidents env st).1.1) by (rewrite Hl; by left).
      apply elem_of_getAllIncidents in Hi as (id & Hid & _).
      rewrite Hnone in Hid. by apply elem_of_nil in Hid. }
    by rewrite Hempty.
Qed.

(** X20: the read-only routes (the snapshot, the CSV export, the JSON
    export) change nothing in the server and send nothing; the incidents of
    the JSON export and of the snapshot are the stored records of the listed
    ids, and the snapshot carries the stored sku (empty when there is none)
    and every tombstone. *)
Theorem read_only_routes env st :
  let listed (i : Incident) :=
    ∃ id, id ∈ incidents st ∧ records st !! id = Some i in
  ((handleGet env st).1.2 = st ∧ (handleGet env st).2 = []
   ∧ (handleCSV env st).1.2 = st ∧ (handleCSV env st).2 = []
   ∧ (handleJSON env st).1.2 = st ∧ (handleJSON env st).2 = [])
  ∧ (∃ exported,
       (handleJSON env st).1.1 = Success (DataIncidents exported)
       ∧ ∀ i, i ∈ exported ↔ listed i)
  ∧ ∃ users invitations data scratchpads,
      (handleGet env st).1.1
      = Success
          (DataShareInfo
             (server_share_info users invitations data scratchpads))
      ∧ data_sku data = default "" (sku st)
      ∧ list_to_set (data_deleted data) = deleted_incidents st
      ∧ ∀ i, i ∈ data_incidents data ↔ listed i.
Proof.
  intros listed.
  assert (Hlisted : ∀ i, i ∈ (getAllIncidents env st).1.1 ↔ listed i).
  { intros i. apply elem_of_getAllIncidents. }
  assert (Hget : ∃ users invitations scratchpads,
    handleGet env st
    = (Success
         (DataShareInfo
            (server_share_info users invitations
               {| data_sku := default "" (sku st);
                  data_incidents := (getAllIncidents env st).1.1;
                  data_deleted := elements (deleted_incidents st) |}
               scratchpads)),
       st, [])).
  { eexists _, _, _. apply wp_eq. wp_run. reflexivity. }
  destruct Hget as (users & invitations & scratchpads & Hget).
  assert (Hjson : handleJSON env st
    = (Success (DataIncidents (getAllIncidents env st).1.1), st, [])).
  { apply wp_eq. by wp_run. }
  rewrite Hget, Hjson. cbn [fst snd]. split_and!; try done.
  - by eexists.
  - eexists _, _, _, _. split; [reflexivity|]. split_and!; try done.
    cbn. apply list_to_set_elements_L.
Qed.

(** *** The sender of a request *)

Lemma NoDup_fmap_eq {A B : Type} (f : A → B) (l : list A) x y :
  NoDup (f <$> l) → x ∈ l → y ∈ l → f x = f y → x = y.
Proof.
  induction l as [|a l IH]; intros Hnd Hx Hy Heq.
  - by apply elem_of_nil in Hx.
  - rewrite fmap_cons in Hnd. apply NoDup_cons in Hnd as [Ha Hnd].
    apply elem_of_cons in Hx as [->|Hx]; apply elem_of_cons in Hy as [->|Hy].
    + done.
    + destruct Ha. rewrite Heq. apply list_elem_of_fmap. eauto.
    + destruct Ha. rewrite <- Heq. apply list_elem_of_fmap. eauto.
    + by apply IH.
Qed.

(** X21: the sender that the HTTP routes attach to a broadcast is read off
    the registered sessions by the [X-Referee-User-Key] header alone: it is
    the server exactly when no session is registered under that key;
    otherwise it is the client with the id and the name of a session
    registered under the key (the session, when no peer id is registered
    twice), never the name given in the [X-Referee-User-Name] header. *)
Theorem requestSender_identity st request name :
  (requestSender st request = SenderServer
   ↔ key (getRequestUser request) ∉ sessionIds st)
  ∧ (key (getRequestUser request) ∈ sessionIds st →
     ∃ c, c ∈ clients st
          ∧ user_id (user c) = key (getRequestUser request)
          ∧ requestSender st request
            = SenderClient (user_name (user c)) (user_id (user c)))
  ∧ (NoDup (sessionIds st) →
     ∀ c, c ∈ clients st →
          user_id (user c) = key (getRequestUser request) →
          requestSender st request
          = SenderClient (user_name (user c)) (user_id (user c)))
  ∧ requestSender st
      {| content := content request; header_user_name := name;
         header_user_key := header_user_key request;
         param_id := param_id request |}
    = requestSender st request.
Proof.
  set (k := key (getRequestUser request)).
  assert (Hfind :
    match List.find (λ v, bool_decide (user_id (user v) = k)) (clients st) with
    | Some c => c ∈ clients st ∧ user_id (user c) = k
    | None => k ∉ sessionIds st
    end).
  { destruct (List.find _ _) as [c|] eqn:Hc.
    - apply find_some in Hc as [Hin Hk]. split.
      + by apply list_elem_of_In.
      + by apply bool_decide_eq_true_1 in Hk.
    - intros [c [Hk Hin]]%list_elem_of_fmap.
      eapply find_none in Hc; [|apply list_elem_of_In; exact Hin].
      apply bool_decide_eq_false_1 in Hc. by destruct Hc. }
  unfold requestSender, senderOf. fold k. split_and!.
  - destruct (List.find _ _) as [c|]; [|done].
    destruct Hfind as [Hin Hk]. split; [done|]. intros Hnot. destruct Hnot.
    apply list_elem_of_fmap. eauto.
  - intros Hin. destruct (List.find _ _) as [c|]; [|done].
    destruct Hfind as [Hc Hk]. by exists c.
  - intros Hnd c Hc Hk. destruct (List.find _ _) as [c'|].
    + destruct Hfind as [Hc' Hk'].
      assert (c' = c) as ->; [|done].
      apply (NoDup_fmap_eq (λ c, user_id (user c)) (clients st));
        try done. congruence.
    + destruct Hfind. apply list_elem_of_fmap. eauto.
  - done.
Qed.

End Postconditions.

(** * Properties of the local edit paths *)

Section ClientFacts.
Import Api Client.

Variable JSON_stringify : Json → string.

Lemma elem_of_scratchpadChanges current scratchpad change :
  change ∈ scratchpadChanges JSON_stringify current scratchpad
  ↔ ∃ key value,
      (key, value) ∈ scratchpad
      ∧ (key ∉ ["event"; "match"; "revision"; "game"])
      ∧ stringify JSON_stringify (Some value)
        ≠ stringify JSON_stringify (props current !! key)
      ∧ change = {| property := key; old := Some value;
                    new := props current !! key |}.
Proof.
  unfold scratchpadChanges. rewrite list_elem_of_omap. split.
  - intros ([key value] & Hin & Hsome). cbn in Hsome.
    repeat case_decide; simplify_eq. eauto 10.
  - intros (key & value & Hin & Hkey & Hne & ->).
    exists (key, value). split; [done|]. cbn.
    rewrite decide_False by done. by rewrite decide_True.
Qed.

Lemma elem_of_incidentChanges current incident change :
  change ∈ incidentChanges JSON_stringify current incident
  ↔ ∃ key value,
      props current !! key = Some value
      ∧ ¬ (key = "revision" ∨ key = "team" ∨ key = "event")
      ∧ stringify JSON_stringify (Some value)
        ≠ stringify JSON_stringify (fromEntries incident !! key)
      ∧ change = {| property := key; old := Some value;
                    new := fromEntries incident !! key |}.
Proof.
  unfold incidentChanges. rewrite list_elem_of_omap. split.
  - intros ([key value] & Hin%elem_of_map_to_list & Hsome). cbn in Hsome.
    repeat case_decide; simplify_eq. eauto 10.
  - intros (key & value & Hin & Hkey & Hne & ->).
    exists (key, value). split; [by apply elem_of_map_to_list|]. cbn.
    rewrite decide_False by done. by rewrite decide_True.
Qed.

(** C10: when some property of the patch that is not skipped differs from
    the stored scratchpad, [editScratchpad] appends one history item; every
    change of that item has the value of the patch as [old] and the value
    stored before as [new].  In [editIncident] it is the other way round:
    [old] is the stored value and [new] the value of the patch. *)
Theorem editScratchpad_changes_reversed
    id scratchpad user date store current key value :
  objects store !! id = Some current →
  (key, value) ∈ scratchpad →
  key ∉ ["event"; "match"; "revision"; "game"] →
  stringify JSON_stringify (Some value)
  ≠ stringify JSON_stringify (props current !! key) →
  (∃ written item,
     editScratchpad JSON_stringify id scratchpad user date store
     = (setMatchScratchpad id written store, [updateScratchpad id written])
     ∧ (history <$> revision written)
       = Some (default [] (history <$> revision current) ++ [item])
     ∧ item_user item = user ∧ item_date item = date
     ∧ changes item ≠ []
     ∧ ∀ change, change ∈ changes item →
         ∃ patched,
           (property change, patched) ∈ scratchpad
           ∧ old change = Some patched
           ∧ new change = props current !! property change)
  ∧ ∀ incidentId patch stored change,
      getIncident incidentId store = Some stored →
      change ∈ incidentChanges JSON_stringify stored patch →
      old change = props stored !! property change
      ∧ new change = fromEntries patch !! property change.
Proof.
  intros Hcur Hin Hkey Hne. split.
  - set (cs := scratchpadChanges JSON_stringify current scratchpad).
    assert (Hcs : {| property := key; old := Some value;
                     new := props current !! key |} ∈ cs).
    { apply elem_of_scratchpadChanges. eauto 10. }
    unfold editScratchpad. rewrite Hcur. fold cs.
    destruct cs as [|c cs'] eqn:Hcs'; [by apply elem_of_nil in Hcs|].
    cbn [length Nat.ltb Nat.leb]. eexists _, _. split; [reflexivity|].
    cbn [revision bump history fmap option_fmap option_map].
    split_and!.
    + by destruct (revision current).
    + done.
    + done.
    + done.
    + cbn [changes]. intros change Hchange. rewrite <- Hcs' in Hchange.
      apply elem_of_scratchpadChanges in Hchange
        as (k & v & Hk & _ & _ & ->).
      exists v. done.
  - intros incidentId patch stored change _ Hchange.
    apply elem_of_incidentChanges in Hchange as (k & v & Hk & _ & _ & ->).
    done.
Qed.

End ClientFacts.

(** * Further properties of the local edit paths *)

Section ClientEdits.
Import Api Client.

Variable JSON_stringify : Json → string.

Lemma scratchpadChanges_nil current scratchpad :
  scratchpadChanges JSON_stringify current scratchpad = []
  ↔ Forall (λ entry,
              entry.1 ∈ ["event"; "match"; "revision"; "game"]
              ∨ stringify JSON_stringify (Some entry.2)
                = stringify JSON_stringify (props current !! entry.1))
           scratchpad.
Proof.
  unfold scratchpadChanges.
  induction scratchpad as [|[key value] scratchpad IH].
  - split; [constructor|done].
  - cbn [omap list_omap fst snd]. rewrite Forall_cons. cbn [fst snd].
    destruct (decide (key ∈ ["event"; "match"; "revision"; "game"]))
      as [Hkey|Hkey].
    + rewrite IH. naive_solver.
    + destruct (decide (stringify JSON_stringify (Some value)
                        ≠ stringify JSON_stringify (props current !! key)))
        as [Hne|Heq].
      * split; [done|]. intros [[?|?] _]; done.
      * apply dec_stable in Heq. rewrite IH. naive_solver.
Qed.

Lemma bump_count current user date changes :
  count (bump current user date changes)
  = (default 0%Z (count <$> current) + 1)%Z
  ∧ length (history (bump current user date changes))
    = S (length (default [] (history <$> current))).
Proof.
  unfold bump.
  destruct current as [r|]; (split; [done|]); cbn [history];
    rewrite length_app; cbn; lia.
Qed.

Lemma bump_history current user date changes :
  history (bump current user date changes)
  = default [] (history <$> current)
    ++ [{| item_user := user; item_date := date; changes := changes |}].
Proof. unfold bump. by destruct current. Qed.

Lemma fromEntries_None {A : Type} (entries : list (string * A)) key :
  fromEntries entries !! key = None ↔ key ∉ entries.*1.
Proof.
  unfold fromEntries. rewrite <- not_elem_of_list_to_map.
  by rewrite fmap_reverse, elem_of_reverse.
Qed.

Lemma lookup_spread object patch key :
  fromEntries patch !! key = None →
  spread object patch !! key = object !! key.
Proof.
  rewrite fromEntries_None. unfold spread. revert object.
  induction patch as [|[k v] patch IH]; intros object Hkey; [done|].
  apply not_elem_of_cons in Hkey as [Hne Hrest]. cbn [foldl fst snd].
  rewrite IH by done. cbn in Hne.
  case_decide; [done|]. by rewrite lookup_insert_ne.
Qed.

(** X22: for an id that is no key of a list, [editScratchpad] does nothing
    at all (nothing stored, nothing sent) when nothing is stored under the
    id, and when every property of the patch is one of [event], [match],
    [revision], [game] or serializes as the stored value does.  Otherwise it
    sends one value and stores that value under the id, leaving the objects
    of the other ids as they are; it adds the id to the scratchpad index of
    the event of the value and leaves the indices of the other events as
    they are; the revision count of the value is the stored count (0 when
    there was no revision) plus one, its history is one item longer, and
    the properties that the patch does not name are those of the stored
    value. *)
Theorem editScratchpad_effective id scratchpad user date store :
  listKey id = false →
  let unchanged current :=
    Forall (λ entry,
              entry.1 ∈ ["event"; "match"; "revision"; "game"]
              ∨ stringify JSON_stringify (Some entry.2)
                = stringify JSON_stringify (props current !! entry.1))
           scratchpad in
  let result := editScratchpad JSON_stringify id scratchpad user date store in
  match objects store !! id with
  | None => result = (store, [])
  | Some current =>
      (unchanged current → result = (store, []))
      ∧ (¬ unchanged current →
         ∃ value r,
           result.2 = [updateScratchpad id value]
           ∧ objects result.1 !! id = Some value
           ∧ (∀ other, other ≠ id →
                objects result.1 !! other = objects store !! other)
           ∧ (∀ event,
                props value !! "event" = Some (JStr event) →
                scratchpad_idx result.1 !! event
                = Some (default ∅ (scratchpad_idx store !! event) ∪ {[id]})
                ∧ ∀ sku, sku ≠ event →
                    scratchpad_idx result.1 !! sku
                    = scratchpad_idx store !! sku)
           ∧ revision value = Some r
           ∧ count r = (default 0%Z (count <$> revision current) + 1)%Z
           ∧ length (history r)
             = S (length (default [] (history <$> revision current)))
           ∧ ∀ key, fromEntries scratchpad !! key = None →
               props value !! key = props current !! key)
  end.
Proof.
  intros _ unchanged result. unfold result, editScratchpad.
  destruct (objects store !! id) as [current|]; [|done].
  pose proof (scratchpadChanges_nil current scratchpad) as Hnil.
  fold (unchanged current) in Hnil.
  destruct (scratchpadChanges JSON_stringify current scratchpad)
    as [|change changes] eqn:Hchanges.
  - split; [done|]. intros Hne. destruct Hne. by apply Hnil.
  - split.
    + intros Hun. apply Hnil in Hun. done.
    + intros _. cbn [length Nat.ltb Nat.leb]. eexists _, _.
      cbn [fst snd]. split; [reflexivity|]. unfold setMatchScratchpad.
      cbn [objects scratchpad_idx props revision]. split_and!.
      * apply lookup_insert_eq.
      * intros other Hne. by apply lookup_insert_ne.
      * intros event ->. split; [apply lookup_insert_eq|].
        intros sku Hne. by apply lookup_insert_ne.
      * reflexivity.
      * apply bump_count.
      * apply bump_count.
      * intros key Hkey. by apply lookup_spread.
Qed.

Lemma counted_bump current user date changes :
  match current with
  | Some r => count r = Z.of_nat (length (history r))
  | None => True
  end →
  count (bump current user date changes)
  = Z.of_nat (length (history (bump current user date changes))).
Proof.
  destruct (bump_count current user date changes) as [-> ->].
  destruct current as [r|]; cbn; lia.
Qed.

(** X23: the revision of a default scratchpad has count 0 and no history
    item, and the edits keep the count of every stored revision equal to
    the number of its history items: [editScratchpad] and [editIncident]
    add one to the count exactly when they append a history item. *)
Theorem edits_keep_counted id patch updateRemote user date store match_ game :
  revision (getDefaultScratchpad match_ user game)
  = Some {| count := 0; Api.user := user; history := [] |}
  ∧ counted (getDefaultScratchpad match_ user game)
  ∧ (map_Forall (λ _, counted) (objects store) →
     map_Forall (λ _, counted)
       (objects (editScratchpad JSON_stringify id patch user date store).1)
     ∧ map_Forall (λ _, counted)
         (objects (editIncident JSON_stringify id patch updateRemote user
                     date store).1)).
Proof.
  split_and!.
  - by destruct game.
  - by destruct game.
  - intros Hall. split.
    + unfold editScratchpad.
      destruct (objects store !! id) as [current|] eqn:Hcur; [|done].
      destruct (length _ <? 1); [done|]. cbn.
      apply map_Forall_insert_2; [|done]. unfold counted. cbn.
      apply counted_bump. apply (Hall id current Hcur).
    + unfold editIncident, getIncident.
      destruct (objects store !! id) as [current|] eqn:Hcur; [|done]. cbn.
      apply map_Forall_insert_2; [|done]. unfold counted. cbn.
      apply counted_bump. apply (Hall id current Hcur).
Qed.

(** X24: [editIncident] never returns early on a stored incident: it stores
    the incident again with one more revision, whatever the patch.  Every
    stored property that the patch leaves out (other than [revision],
    [team] and [event]) is recorded in the new history item as changed to
    [undefined], although the property keeps its value; so is the [id] the
    incident is read with. *)
Theorem editIncident_records_omitted
    id patch updateRemote user date store stored :
  objects store !! id = Some stored →
  ∃ updated r item,
    editIncident JSON_stringify id patch updateRemote user date store
    = ({| objects := <[id := updated]> (objects store);
          scratchpad_idx := scratchpad_idx store |},
       if updateRemote then [editServerIncident updated] else [])
    ∧ revision updated = Some r
    ∧ count r = (default 0%Z (count <$> revision stored) + 1)%Z
    ∧ history r = default [] (history <$> revision stored) ++ [item]
    ∧ (∀ key value,
         <["id" := JStr id]> (props stored) !! key = Some value →
         key ∉ ["revision"; "team"; "event"] →
         fromEntries patch !! key = None →
         {| property := key; old := Some value; new := None |}
         ∈ changes item
         ∧ props updated !! key = Some value).
Proof.
  intros Hstored. unfold editIncident, getIncident. rewrite Hstored. cbn.
  eexists _, _, _. split; [reflexivity|]. cbn. split; [reflexivity|].
  split_and!.
  - apply bump_count.
  - apply bump_history.
  - intros key value Hkey Hskip Hpatch. split.
    + apply elem_of_incidentChanges. exists key, value. cbn.
      rewrite Hpatch. split_and!; try done.
      intros [Hk|[Hk|Hk]]; subst key; apply Hskip; set_solver.
    + by rewrite lookup_spread.
Qed.

End ClientEdits.

Section ClientScratchpads.
Import Api Client.

(** X25: a scratchpad of an event, written by [setMatchScratchpad] under an
    id that is no key of a list, is read back by [getMatchScratchpad] under
    its id, and its id is in the index of its event; the scratchpads of the
    other ids are as before, and the index of an event only grows, by that
    id and only for that event.  An event without index has no ids. *)
Theorem setMatchScratchpad_indexes id scratchpad store event sku other :
  listKey id = false →
  props scratchpad !! "event" = Some (JStr event) →
  let store' := setMatchScratchpad id scratchpad store in
  getMatchScratchpad id store' = Some scratchpad
  ∧ id ∈ getScratchpadIdsForEvent event store'
  ∧ (other ≠ id → listKey other = false →
     getMatchScratchpad other store' = getMatchScratchpad other store)
  ∧ getScratchpadIdsForEvent sku store'
    = (if decide (sku = event)
       then getScratchpadIdsForEvent sku store ∪ {[ id ]}
       else getScratchpadIdsForEvent sku store)
  ∧ (scratchpad_idx store !! sku = None →
     getScratchpadIdsForEvent sku store = ∅).
Proof.
  intros _ Hevent store'. unfold getMatchScratchpad, getScratchpadIdsForEvent.
  unfold store', setMatchScratchpad. rewrite Hevent.
  cbn [objects scratchpad_idx]. split_and!.
  - apply lookup_insert_eq.
  - rewrite lookup_insert_eq. cbn. set_solver.
  - intros Hne _. by apply lookup_insert_ne.
  - case_decide as Hsku.
    + subst sku. by rewrite lookup_insert_eq.
    + by rewrite lookup_insert_ne.
  - by intros ->.
Qed.

End ClientScratchpads.

(** * The incident indices of the device *)

Section ClientIndices.
Import Api Client.

Lemma index_keys_differ (event team : string) :
  "event_" +:+ event +:+ "_idx" ≠ "team_" +:+ team +:+ "_idx"
  ∧ "deleted_event_" +:+ event +:+ "_idx"
    ≠ "deleted_team_" +:+ team +:+ "_idx"
  ∧ (∀ a b, "deleted_event_" +:+ a +:+ "_idx" ≠ "event_" +:+ b +:+ "_idx")
  ∧ (∀ a b, "deleted_event_" +:+ a +:+ "_idx" ≠ "team_" +:+ b +:+ "_idx")
  ∧ (∀ a b, "deleted_team_" +:+ a +:+ "_idx" ≠ "event_" +:+ b +:+ "_idx")
  ∧ (∀ a b, "deleted_team_" +:+ a +:+ "_idx" ≠ "team_" +:+ b +:+ "_idx")
  ∧ (∀ a, "incidents" ≠ "event_" +:+ a +:+ "_idx")
  ∧ (∀ a, "incidents" ≠ "team_" +:+ a +:+ "_idx")
  ∧ (∀ a, "incidents" ≠ "deleted_event_" +:+ a +:+ "_idx")
  ∧ (∀ a, "incidents" ≠ "deleted_team_" +:+ a +:+ "_idx").
Proof.
  split_and!; intros; intros Heq.
  all: try (by apply (f_equal (String.get 0)) in Heq).
  by apply (f_equal (String.get 8)) in Heq.
Qed.

Lemma lookup_indices (lists : gmap string (list string))
    (event team : string) (es ts : list string) :
  let lists' :=
    <["team_" +:+ team +:+ "_idx" := ts]>
      (<["event_" +:+ event +:+ "_idx" := es]> lists) in
  lists' !! ("event_" +:+ event +:+ "_idx") = Some es
  ∧ lists' !! ("team_" +:+ team +:+ "_idx") = Some ts
  ∧ lists' !! "incidents" = lists !! "incidents"
  ∧ (∀ a, lists' !! ("deleted_event_" +:+ a +:+ "_idx")
          = lists !! ("deleted_event_" +:+ a +:+ "_idx"))
  ∧ (∀ a, lists' !! ("deleted_team_" +:+ a +:+ "_idx")
          = lists !! ("deleted_team_" +:+ a +:+ "_idx")).
Proof.
  destruct (index_keys_differ event team)
    as (Het & _ & Hde & Hdt & Hte & Htt & Hie & Hit & _).
  intros lists'. unfold lists'. split_and!.
  - rewrite lookup_insert_ne by done. apply lookup_insert_eq.
  - apply lookup_insert_eq.
  - rewrite !lookup_insert_ne; done.
  - intros a. rewrite !lookup_insert_ne; auto.
  - intros a. rewrite !lookup_insert_ne; auto.
Qed.

Lemma lookup_deleted_indices (lists : gmap string (list string))
    (event team : string) (es ts : list string) :
  let lists' :=
    <["deleted_team_" +:+ team +:+ "_idx" := ts]>
      (<["deleted_event_" +:+ event +:+ "_idx" := es]> lists) in
  lists' !! ("deleted_event_" +:+ event +:+ "_idx") = Some es
  ∧ lists' !! ("deleted_team_" +:+ team +:+ "_idx") = Some ts
  ∧ lists' !! "incidents" = lists !! "incidents"
  ∧ (∀ a, lists' !! ("event_" +:+ a +:+ "_idx")
          = lists !! ("event_" +:+ a +:+ "_idx"))
  ∧ (∀ a, lists' !! ("team_" +:+ a +:+ "_idx")
          = lists !! ("team_" +:+ a +:+ "_idx")).
Proof.
  destruct (index_keys_differ event team)
    as (_ & Het & Hde & Hdt & Hte & Htt & _ & _ & Hie & Hit).
  intros lists'. unfold lists'. split_and!.
  - rewrite lookup_insert_ne by done. apply lookup_insert_eq.
  - apply lookup_insert_eq.
  - rewrite !lookup_insert_ne; done.
  - intros a. rewrite !lookup_insert_ne; auto.
  - intros a. rewrite !lookup_insert_ne; auto.
Qed.

Lemma read_last (ids : list string) id kv value :
  objects (kv_store kv) !! id = Some value →
  last (omap (λ i, i) (getManyIncidents (ids ++ [id]) kv))
  = Some {| props := props value ∪ {[ "id" := JStr id ]};
            revision := revision value |}.
Proof.
  intros Hid. unfold getManyIncidents.
  rewrite fmap_app, omap_app. cbn [fmap list_fmap omap list_omap].
  rewrite Hid. cbn. by rewrite last_snoc.
Qed.

(** X26: [newIncident] with an id that is no key of a list stores the
    incident under the id and appends the id to the index of its event, to
    the index of its team and to the list of all incidents, without looking
    whether it is there; read back by event, by team or among all incidents,
    the incident comes last, with its id.  The incident is sent to the
    server exactly when asked to. *)
Theorem newIncident_indexed incident updateRemote id kv :
  listKey id = false →
  let kv' := (newIncident incident updateRemote id kv).1 in
  let read :=
    {| props := props incident ∪ {[ "id" := JStr id ]};
       revision := revision incident |} in
  hasIncident id kv' = true
  ∧ idx_event (getIncidentIndices incident kv')
    = idx_event (getIncidentIndices incident kv) ++ [id]
  ∧ idx_team (getIncidentIndices incident kv')
    = idx_team (getIncidentIndices incident kv) ++ [id]
  ∧ last (getIncidentsByEvent (eventOf incident) kv') = Some read
  ∧ last (getIncidentsByTeam (teamOf incident) kv') = Some read
  ∧ last (getAllIncidents kv') = Some read
  ∧ (newIncident incident updateRemote id kv).2
    = if updateRemote
      then [addServerIncident
              {| props := <["id" := JStr id]> (props incident);
                 revision := revision incident |}]
      else [].
Proof.
  intros _ kv' read.
  destruct (index_keys_differ (eventOf incident) (teamOf incident))
    as (_ & _ & _ & _ & _ & _ & Hie & Hit & _).
  assert (Hstored : objects (kv_store kv') !! id = Some incident)
    by apply lookup_insert_eq.
  pose proof (lookup_indices (kv_lists kv) (eventOf incident)
                (teamOf incident)
                (idx_event (getIncidentIndices incident kv) ++ [id])
                (idx_team (getIncidentIndices incident kv) ++ [id]))
    as (He & Ht & Hi & _).
  assert (Hevent :
    kv_lists kv' !! ("event_" +:+ eventOf incident +:+ "_idx")
    = Some (idx_event (getIncidentIndices incident kv) ++ [id])).
  { unfold kv', newIncident. cbn.
    rewrite lookup_insert_ne by apply Hie. exact He. }
  assert (Hteam :
    kv_lists kv' !! ("team_" +:+ teamOf incident +:+ "_idx")
    = Some (idx_team (getIncidentIndices incident kv) ++ [id])).
  { unfold kv', newIncident. cbn.
    rewrite lookup_insert_ne by apply Hit. exact Ht. }
  split_and!.
  - unfold hasIncident. rewrite Hstored. by apply bool_decide_eq_true_2.
  - unfold getIncidentIndices at 1. cbn [idx_event]. by rewrite Hevent.
  - unfold getIncidentIndices at 1. cbn [idx_team]. by rewrite Hteam.
  - unfold getIncidentsByEvent. rewrite Hevent. by apply read_last.
  - unfold getIncidentsByTeam. rewrite Hteam. by apply read_last.
  - unfold getAllIncidents.
    assert (kv_lists kv' !! "incidents"
            = Some (default [] (kv_lists kv !! "incidents") ++ [id])) as ->.
    { unfold kv', newIncident. cbn. rewrite lookup_insert_eq.
      do 2 f_equal. f_equal. exact Hi. }
    by apply read_last.
  - done.
Qed.

(** X27: for an id that is no key of a list, [deleteIncident] of an id
    under which nothing is stored does nothing.  Of a stored incident it
    removes the id from the indices of its event and of its team and
    appends it to their deleted indices; the stored incident and the list
    of all incidents stay, so [getAllIncidents] still returns the incident.
    The server is told exactly when asked to and the event has an accepted
    invitation. *)
Theorem deleteIncident_unindexes id updateRemote accepted kv :
  listKey id = false →
  match objects (kv_store kv) !! id with
  | None => deleteIncident id updateRemote accepted kv = (kv, [])
  | Some stored =>
      let kv' := (deleteIncident id updateRemote accepted kv).1 in
      kv_store kv' = kv_store kv
      ∧ idx_event (getIncidentIndices stored kv')
        = filter (λ i, i ≠ id) (idx_event (getIncidentIndices stored kv))
      ∧ idx_team (getIncidentIndices stored kv')
        = filter (λ i, i ≠ id) (idx_team (getIncidentIndices stored kv))
      ∧ idx_event (getDeletedIncidentIndices stored kv')
        = idx_event (getDeletedIncidentIndices stored kv) ++ [id]
      ∧ idx_team (getDeletedIncidentIndices stored kv')
        = idx_team (getDeletedIncidentIndices stored kv) ++ [id]
      ∧ getAllIncidents kv' = getAllIncidents kv
      ∧ (deleteIncident id updateRemote accepted kv).2
        = if updateRemote && accepted
          then [deleteServerIncident id (eventOf stored)]
          else []
  end.
Proof.
  intros _. unfold deleteIncident, getIncident.
  destruct (objects (kv_store kv) !! id) as [stored|] eqn:Hstored; [|done].
  cbn [mbind option_bind].
  set (incident := {| props := <["id" := JStr id]> (props stored);
                      revision := revision stored |}).
  assert (Hev : eventOf incident = eventOf stored).
  { unfold eventOf, incident. cbn. by rewrite lookup_insert_ne. }
  assert (Htm : teamOf incident = teamOf stored).
  { unfold teamOf, incident. cbn. by rewrite lookup_insert_ne. }
  unfold getIncidentIndices, getDeletedIncidentIndices, setIncidentIndices,
    setDeletedIncidentIndices, getAllIncidents, getManyIncidents.
  cbn [fst snd kv_lists kv_store set_lists idx_event idx_team].
  rewrite Hev, Htm.
  set (es := filter (λ i, i ≠ id)
               (default [] (kv_lists kv
                  !! ("event_" +:+ eventOf stored +:+ "_idx")))).
  set (ts := filter (λ i, i ≠ id)
               (default [] (kv_lists kv
                  !! ("team_" +:+ teamOf stored +:+ "_idx")))).
  pose proof (lookup_indices (kv_lists kv) (eventOf stored) (teamOf stored)
                es ts) as (He & Ht & Hi & Hde & Hdt).
  cbv zeta in He, Ht, Hi, Hde, Hdt.
  set (lists1 := <["team_" +:+ teamOf stored +:+ "_idx" := ts]>
                   (<["event_" +:+ eventOf stored +:+ "_idx" := es]>
                      (kv_lists kv))) in *.
  rewrite Hde, Hdt.
  match goal with
  | |- context [<[_ := ?ts']> (<[_ := ?es']> lists1)] =>
      pose proof (lookup_deleted_indices lists1 (eventOf stored)
                    (teamOf stored) es' ts') as (Hd1 & Hd2 & Hd3 & Hd4 & Hd5)
  end.
  cbv zeta in Hd1, Hd2, Hd3, Hd4, Hd5.
  rewrite Hd1, Hd2, Hd3, Hd4, Hd5, He, Ht, Hi. done.
Qed.

(** X28: [repairIndices] leaves the id in the index of the event and in the
    index of the team of the incident, adds it to neither when it is there
    already, keeps the indices free of duplicates, touches no stored object
    and changes nothing when run twice. *)
Theorem repairIndices_idempotent id incident kv :
  let kv' := repairIndices id incident kv in
  let before := getIncidentIndices incident kv in
  let after := getIncidentIndices incident kv' in
  id ∈ idx_event after
  ∧ id ∈ idx_team after
  ∧ idx_event after
    = (if decide (id ∈ idx_event before) then idx_event before
       else idx_event before ++ [id])
  ∧ idx_team after
    = (if decide (id ∈ idx_team before) then idx_team before
       else idx_team before ++ [id])
  ∧ (NoDup (idx_event before) → NoDup (idx_event after))
  ∧ (NoDup (idx_team before) → NoDup (idx_team after))
  ∧ kv_store kv' = kv_store kv
  ∧ repairIndices id incident kv' = kv'.
Proof.
  intros kv' before after.
  assert (Hafter :
    idx_event after
    = (if decide (id ∈ idx_event before) then idx_event before
       else idx_event before ++ [id])
    ∧ idx_team after
      = (if decide (id ∈ idx_team before) then idx_team before
         else idx_team before ++ [id])).
  { unfold after, kv', repairIndices. fold before.
    destruct (decide (id ∈ idx_event before)) as [He|He];
      destruct (decide (id ∈ idx_team before)) as [Ht|Ht].
    - rewrite !bool_decide_eq_true_2 by done. done.
    - rewrite bool_decide_eq_true_2, bool_decide_eq_false_2 by done.
      cbn [negb orb].
      pose proof (lookup_indices (kv_lists kv) (eventOf incident)
                    (teamOf incident) (idx_event before)
                    (idx_team before ++ [id])) as (H1 & H2 & _).
      cbv zeta in H1, H2. unfold getIncidentIndices, setIncidentIndices.
      cbn [kv_lists set_lists idx_event idx_team]. by rewrite H1, H2.
    - rewrite bool_decide_eq_false_2 by done. cbn [negb orb].
      pose proof (lookup_indices (kv_lists kv) (eventOf incident)
                    (teamOf incident) (idx_event before ++ [id])
                    (idx_team before)) as (H1 & H2 & _).
      cbv zeta in H1, H2. unfold getIncidentIndices, setIncidentIndices.
      cbn [kv_lists set_lists idx_event idx_team]. by rewrite H1, H2.
    - rewrite bool_decide_eq_false_2 by done. cbn [negb orb].
      pose proof (lookup_indices (kv_lists kv) (eventOf incident)
                    (teamOf incident) (idx_event before ++ [id])
                    (idx_team before ++ [id])) as (H1 & H2 & _).
      cbv zeta in H1, H2. unfold getIncidentIndices, setIncidentIndices.
      cbn [kv_lists set_lists idx_event idx_team]. by rewrite H1, H2. }
  destruct Hafter as [Hevent Hteam].
  assert (Hine : id ∈ idx_event after).
  { rewrite Hevent. destruct (decide (id ∈ idx_event before)); [done|].
    apply elem_of_app. right. by left. }
  assert (Hint : id ∈ idx_team after).
  { rewrite Hteam. destruct (decide (id ∈ idx_team before)); [done|].
    apply elem_of_app. right. by left. }
  split_and!; try done.
  - intros Hnd. rewrite Hevent.
    destruct (decide (id ∈ idx_event before)) as [Hin|Hin]; [done|].
    apply NoDup_app. split_and!; [done| |apply NoDup_singleton].
    by intros x Hx ->%list_elem_of_singleton.
  - intros Hnd. rewrite Hteam.
    destruct (decide (id ∈ idx_team before)) as [Hin|Hin]; [done|].
    apply NoDup_app. split_and!; [done| |apply NoDup_singleton].
    by intros x Hx ->%list_elem_of_singleton.
  - unfold kv', repairIndices. by destruct (_ || _).
  - unfold repairIndices at 1. fold after.
    by rewrite !bool_decide_eq_true_2 by done.
Qed.

End ClientIndices.

(** * The handlers on a concrete server *)

Section SyncExamples.
Import Api Sync Fixtures.

(** The CSV export of [server0]. *)
Example handleCSV_server0 :
  (handleCSV env0 server0).1.1
  = Some (csvHeader +:+ LF
          +:+ "2024-03-09T15:04:05.000Z,2024-03-09T15:04:05.000Z,incident1,"
          +:+ "RE-VRC-23-3690,1,Qualifier 12,3796B,Minor,<SG11> <G1>,"
          +:+ "Expansion early  second line").
Proof. by vm_compute. Qed.

(** A broadcast on [server0] reaches the first session, drops the second,
    whose socket is broken, and announces the loss to the first. *)
Example broadcast_server0 :
  let '(_, st, out) := broadcast (message "hi") SenderServer env0 server0 in
  clients st = [session1]
  ∧ inactive st = {[ 2 ]}
  ∧ out = [Send 1 (payloadOf env0 (message "hi") SenderServer);
           Send 1 (payloadOf env0 (server_user_remove bob [alice] [])
                             SenderServer)].
Proof. split_and!; by vm_compute. Qed.

Lemma tombstoned_add_refused_by_http_accepted_by_socket_witness :
  getRequestBody (requestOf (Some revived) None) = Some revived
  ∧ incidentKey (id revived)
  ∧ id revived ∈ deleted_incidents server0
  ∧ (socket session1 ∉ inactive server0)
  ∧ handleAddIncident (requestOf (Some revived) None) env0 server0
    = (Failure bad_request "That incident has been deleted.", server0, []).
Proof.
  assert (H1 : getRequestBody (requestOf (Some revived) None) = Some revived)
    by reflexivity.
  assert (Hk : incidentKey (id revived)) by by_compute.
  assert (H2 : id revived ∈ deleted_incidents server0) by by_compute.
  assert (H3 : socket session1 ∉ inactive server0) by by_compute.
  split; [exact H1|]. split; [exact Hk|]. split; [exact H2|].
  split; [exact H3|].
  exact (proj1 (tombstoned_add_refused_by_http_accepted_by_socket
                  env0 server0 _ revived session1 H1 Hk H2 H3)).
Defined.

(** C5 fails as stated: a PATCH made from revision 2 of an incident stored
    at revision 3 is refused with the reason [bad_request], not [stale]. *)
Lemma stale_patch_reason_is_bad_request :
  records server0 !! "incident1" = Some stored1
  ∧ revision stored1 ≫= (λ r, Some (count r)) = Some 3%Z
  ∧ revision stalePatch ≫= (λ r, Some (count r)) = Some 2%Z
  ∧ (handleEditIncident (requestOf (Some stalePatch) None) env0 server0).1.1
    = Failure bad_request "The incident has been edited more recently."
  ∧ ∀ details,
      (handleEditIncident (requestOf (Some stalePatch) None) env0 server0).1.1
      ≠ Failure stale details.
Proof.
  split; [by vm_compute|]. split; [done|]. split; [done|].
  split; [by vm_compute|].
  intros details Heq. vm_compute in Heq. discriminate Heq.
Qed.

Lemma handleEditIncident_stale_refused_else_stored_witness :
  getRequestBody (requestOf (Some stalePatch) None) = Some stalePatch
  ∧ records server0 !! id stalePatch = Some stored1
  ∧ handleEditIncident (requestOf (Some stalePatch) None) env0 server0
    = (Failure bad_request "The incident has been edited more recently.",
       server0, []).
Proof.
  assert (H1 : getRequestBody (requestOf (Some stalePatch) None)
               = Some stalePatch) by reflexivity.
  assert (H2 : records server0 !! id stalePatch = Some stored1)
    by (by vm_compute).
  split; [exact H1|]. split; [exact H2|].
  exact (proj1 (handleEditIncident_stale_refused_else_stored
                  env0 server0 _ stalePatch stored1 H1 H2)
           _ eq_refl ltac:(by vm_compute)).
Defined.

Lemma handleEditIncident_without_revision_witness :
  getRequestBody (requestOf (Some barePatch) None) = Some barePatch
  ∧ revision barePatch = None
  ∧ records server0 !! id barePatch = Some stored1
  ∧ (id barePatch ∉ deleted_incidents server0)
  ∧ ∃ st' out,
      handleEditIncident (requestOf (Some barePatch) None) env0 server0
      = (Success (DataRevision
                    {| count := 1; Api.user := SenderClient "Alice" "key-alice";
                       history := [] |}),
         st', out)
      ∧ records st' !! "incident1"
        = Some {| id := "incident1";
                  time := "2024-03-09T15:04:05.000Z";
                  event := "RE-VRC-23-3690";
                  match_ := None;
                  team := "3796B";
                  outcome := "Major";
                  rules := [];
                  notes := "late";
                  revision :=
                    Some {| count := 1;
                            Api.user := SenderClient "Alice" "key-alice";
                            history := [] |} |}.
Proof.
  assert (H1 : getRequestBody (requestOf (Some barePatch) None)
               = Some barePatch) by reflexivity.
  assert (H2 : revision barePatch = None) by reflexivity.
  assert (H3 : records server0 !! id barePatch = Some stored1)
    by (by vm_compute).
  assert (H4 : id barePatch ∉ deleted_incidents server0) by by_compute.
  split; [exact H1|]. split; [exact H2|]. split; [exact H3|].
  split; [exact H4|].
  destruct (handleEditIncident_without_revision
              env0 server0 _ barePatch stored1 H1 H2 H3 H4)
    as (st' & out & Heq & Hstored & _).
  exists st', out. split; [exact Heq | exact Hstored].
Defined.

(** C8 fails as stated: a PUT stores an incident whose time is no date;
    the incident list then has no CSV export at all, the handler throws
    where it renders the time, so no first line is the header. *)
Lemma handleCSV_invalid_time_no_export :
  let st := drive [(env1, HttpAdd (requestOf (Some undated) None))] initial in
  incidents st = ["incident3"]
  ∧ records st !! "incident3" = Some undated
  ∧ time undated = "yesterday"
  ∧ toISOString env1 (time undated) = None
  ∧ (handleCSV env1 st).1.1 = None
  ∧ ¬ ∃ output,
        (handleCSV env1 st).1.1 = Some output
        ∧ firstLine output
          = "Date,Time,ID,SKU,Division,Match,Team,Outcome,Rules,Notes".
Proof.
  cbv zeta. split_and!; try (by vm_compute).
  intros (output & Hout & _). vm_compute in Hout. discriminate Hout.
Qed.

Lemma handleCSV_format_witness :
  Forall incidentKey (incidents server0)
  ∧ (∀ id incident,
     id ∈ incidents server0 → records server0 !! id = Some incident →
     is_Some (toISOString env0 (time incident)))
  ∧ ∃ output,
      (handleCSV env0 server0).1.1 = Some output
      ∧ firstLine output
        = "Date,Time,ID,SKU,Division,Match,Team,Outcome,Rules,Notes".
Proof.
  assert (H1 : ∀ id incident,
     id ∈ incidents server0 → records server0 !! id = Some incident →
     is_Some (toISOString env0 (time incident)))
    by (intros id incident _ _; by eexists).
  assert (Hk : Forall incidentKey (incidents server0)) by by_compute.
  split; [exact Hk|]. split; [exact H1|].
  destruct (handleCSV_format env0 server0 Hk H1)
    as (output & rows & Hout & Hfirst & _).
  exists output. split; [exact Hout | exact Hfirst].
Defined.

(** C6 fails as stated: the second DELETE of an id is answered with an
    unsuccessful response. *)
Lemma second_delete_is_unsuccessful :
  let request := requestOf None (Some "incident1") in
  let first := handleDeleteIncident request env0 server0 in
  let second := handleDeleteIncident request env0 first.1.2 in
  success first.1.1 = true
  ∧ second.1.1 = Failure bad_request "Could not find incident with that ID"
  ∧ success second.1.1 = false
  ∧ second.2 = [].
Proof. cbv zeta. split_and!; by vm_compute. Qed.

Lemma handleDeleteIncident_twice_witness :
  param_id (requestOf None (Some "incident1")) = Some "incident1"
  ∧ "incident1" ≠ EmptyString
  ∧ "incident1" ∈ incidents server0
  ∧ ∃ st1,
      handleDeleteIncident (requestOf None (Some "incident1")) env0 st1
      = (Failure bad_request "Could not find incident with that ID", st1, [])
      ∧ "incident1" ∈ deleted_incidents st1
      ∧ ("incident1" ∉ incidents st1).
Proof.
  assert (H1 : param_id (requestOf None (Some "incident1"))
               = Some "incident1") by reflexivity.
  assert (H2 : "incident1" ≠ EmptyString) by discriminate.
  assert (H3 : "incident1" ∈ incidents server0) by by_compute.
  split; [exact H1|]. split; [exact H2|]. split; [exact H3|].
  destruct (handleDeleteIncident_twice env0 env0 server0 _ _ "incident1"
              H1 H1 H2 H3) as (st1 & _ & Hsecond & Hdel & Hlist).
  exists st1. split; [exact Hsecond|]. split; [exact Hdel | exact Hlist].
Defined.

Lemma handleSession_dedupes_witness :
  NoDup (sessionIds server0)
  ∧ ∃ st',
      (handleSession 3 "10.0.0.3" alice env0 server0).1.2 = st'
      ∧ NoDup (sessionIds st').
Proof.
  assert (H1 : NoDup (sessionIds server0)) by by_compute.
  split; [exact H1|].
  destruct (handleSession_dedupes 3 "10.0.0.3" alice env0 server0 H1)
    as (st' & out & Heq & _ & Hnd & _).
  exists st'. split; [by rewrite Heq | exact Hnd].
Defined.

(** A peer that reconnects replaces its former session; the snapshot it is
    sent lists it once. *)
Example handleSession_server0 :
  let '(sent, st, out) := handleSession 3 "10.0.0.3" alice env0 server0 in
  sent = true
  ∧ clients st = [{| user := alice; socket := 3; ip := "10.0.0.3" |}]
  ∧ last out
    = Some (Send 3 (payloadOf env0
                      (server_share_info [alice] []
                         {| data_sku := "RE-VRC-23-3690";
                            data_incidents := [stored1];
                            data_deleted := ["incident0"] |} ∅)
                      SenderServer)).
Proof. split_and!; by vm_compute. Qed.

End SyncExamples.

Section ClientExamples.
Import Api Client Fixtures.

(** An edit of the notes of [scratchpad1]: the change records the new notes
    as [old] and the stored notes as [new]. *)
Example editScratchpad_store0 :
  (editScratchpad showAtom "scratchpad_RE-VRC-23-3690_1_Q12"
     [("notes", JStr "blue climbed late")] SenderServer
     "2024-03-09T16:00:00.000Z" store0).2
  = [updateScratchpad "scratchpad_RE-VRC-23-3690_1_Q12"
       {| props := <["notes" := JStr "blue climbed late"]> (props scratchpad1);
          revision :=
            Some {| count := 1; Api.user := SenderServer;
                    history :=
                      [{| item_user := SenderServer;
                          item_date := "2024-03-09T16:00:00.000Z";
                          changes :=
                            [{| property := "notes";
                                old := Some (JStr "blue climbed late");
                                new := Some (JStr "") |}] |}] |} |}].
Proof. by vm_compute. Qed.

Lemma editScratchpad_changes_reversed_witness :
  objects store0 !! "scratchpad_RE-VRC-23-3690_1_Q12" = Some scratchpad1
  ∧ ("notes", JStr "late") ∈ [("notes", JStr "late")]
  ∧ ("notes" ∉ ["event"; "match"; "revision"; "game"])
  ∧ stringify showAtom (Some (JStr "late"))
    ≠ stringify showAtom (props scratchpad1 !! "notes")
  ∧ ∃ written item,
      editScratchpad showAtom "scratchpad_RE-VRC-23-3690_1_Q12"
        [("notes", JStr "late")] SenderServer "2024-03-09T16:00:00.000Z"
        store0
      = (setMatchScratchpad "scratchpad_RE-VRC-23-3690_1_Q12" written store0,
         [updateScratchpad "scratchpad_RE-VRC-23-3690_1_Q12" written])
      ∧ ∀ change, change ∈ changes item →
          ∃ patched,
            (property change, patched) ∈ [("notes", JStr "late")]
            ∧ old change = Some patched
            ∧ new change = props scratchpad1 !! property change.
Proof.
  assert (H1 : objects store0 !! "scratchpad_RE-VRC-23-3690_1_Q12"
               = Some scratchpad1) by (by vm_compute).
  assert (H2 : ("notes", JStr "late") ∈ [("notes", JStr "late")])
    by by_compute.
  assert (H3 : "notes" ∉ ["event"; "match"; "revision"; "game"])
    by by_compute.
  assert (H4 : stringify showAtom (Some (JStr "late"))
               ≠ stringify showAtom (props scratchpad1 !! "notes")).
  { intros Heq. vm_compute in Heq. discriminate Heq. }
  split; [exact H1|]. split; [exact H2|]. split; [exact H3|].
  split; [exact H4|].
  destruct (proj1 (editScratchpad_changes_reversed showAtom
                     "scratchpad_RE-VRC-23-3690_1_Q12"
                     [("notes", JStr "late")] SenderServer
                     "2024-03-09T16:00:00.000Z" store0 scratchpad1
                     "notes" (JStr "late") H1 H2 H3 H4))
    as (written & item & Heq & _ & _ & _ & _ & Hchanges).
  exists written, item. split; [exact Heq | exact Hchanges].
Defined.

End ClientExamples.

(** * The further properties on the fixtures *)

Section MoreSyncExamples.
Import Api Sync Fixtures.

Lemma groupIds_partition_witness :
  0 < 2
  ∧ mjoin (groupIds ["a"; "b"; "c"] 2) = ["a"; "b"; "c"]
  ∧ Forall (λ chunk, 0 < length chunk ≤ 2) (groupIds ["a"; "b"; "c"] 2).
Proof.
  assert (H : 0 < 2) by lia. split; [exact H|].
  destruct (groupIds_partition ["a"; "b"; "c"] 2 H) as (Hjoin & Hall & _).
  split; [exact Hjoin | exact Hall].
Defined.

(** What [script] leaves of [server0]. *)
Example drive_script :
  let st := drive script server0 in
  incidents st = ["incident2"]
  ∧ deleted_incidents st = {[ "incident0"; "incident1" ]}
  ∧ dom (records st) = {[ "incident1"; "incident2" ]}
  ∧ scratchpad_list st = {[ "Q12"; "scratchpad_Q12" ]}
  ∧ clients st = []
  ∧ inactive st = {[ 1; 2 ]}.
Proof. split_and!; by vm_compute. Qed.

Lemma drive_listed_stored_witness :
  listed_stored server0
  ∧ records_apart server0
  ∧ Forall (λ step, plain step.2) script
  ∧ listed_stored (drive script server0)
  ∧ records_apart (drive script server0)
  ∧ id <$> (getAllIncidents env0 (drive script server0)).1.1
    ≡ₚ incidents (drive script server0).
Proof.
  assert (H1 : listed_stored server0) by by_compute.
  assert (H2 : records_apart server0) by by_compute.
  assert (H3 : Forall (λ step : Env * Event, plain step.2) script)
    by by_compute.
  split; [exact H1|]. split; [exact H2|]. split; [exact H3|].
  exact (drive_listed_stored script env0 server0 H1 H2 H3).
Defined.

Lemma drive_sessions_active_witness :
  sessions_active server0
  ∧ sessions_active (drive script server0)
  ∧ (getActiveUsers env0 (drive script server0)).1.1
    = user <$> clients (drive script server0).
Proof.
  assert (H : sessions_active server0) by by_compute.
  split; [exact H|]. exact (drive_sessions_active script env0 server0 H).
Defined.

Lemma tombstones_are_permanent_witness :
  records_apart server0
  ∧ Forall (λ step, plain step.2) script
  ∧ id revived ∈ deleted_incidents server0
  ∧ getRequestBody (requestOf (Some revived) None) = Some revived
  ∧ deleted_incidents server0 ⊆ deleted_incidents (drive script server0)
  ∧ handleAddIncident (requestOf (Some revived) None) env0
      (drive script server0)
    = (Failure bad_request "That incident has been deleted.",
       drive script server0, []).
Proof.
  assert (Ha : records_apart server0) by by_compute.
  assert (Hp : Forall (λ step : Env * Event, plain step.2) script)
    by by_compute.
  assert (H1 : id revived ∈ deleted_incidents server0) by by_compute.
  assert (H2 : getRequestBody (requestOf (Some revived) None) = Some revived)
    by reflexivity.
  split; [exact Ha|]. split; [exact Hp|]. split; [exact H1|].
  split; [exact H2|].
  destruct (tombstones_are_permanent script env0 server0 _ revived Ha Hp
              H1 H2)
    as (Hgrow & _ & _ & Hput & _).
  split; [exact Hgrow | exact Hput].
Defined.

Lemma drive_apart_witness :
  Forall (λ step, isSocketAdd step.2 = false) script
  ∧ apart server0
  ∧ apart (drive script server0).
Proof.
  assert (H1 : Forall (λ step : Env * Event, isSocketAdd step.2 = false)
                      script) by by_compute.
  assert (H2 : apart server0) by by_compute.
  split; [exact H1|]. split; [exact H2|].
  exact (drive_apart script server0 H1 H2).
Defined.

Lemma getAllScratchpads_reads_unprefixed_witness :
  ("Q12" ∉ storageKeys)
  ∧ records server0 !! "Q12" = None
  ∧ scratchpad_store server0 !! "Q12" = None
  ∧ (getAllScratchpads env0
       (setScratchpad "Q12" (JObj [("notes", JStr "replay")]) env0
          server0).1.2).1.1
      !! "Q12"
    = None
  ∧ (getScratchpad "Q12" env0
       (setScratchpad "Q12" (JObj [("notes", JStr "replay")]) env0
          server0).1.2).1.1
    = Some (JObj [("notes", JStr "replay")]).
Proof.
  assert (H1 : "Q12" ∉ storageKeys) by by_compute.
  assert (H2 : records server0 !! "Q12" = None) by (by vm_compute).
  assert (H3 : scratchpad_store server0 !! "Q12" = None) by (by vm_compute).
  split; [exact H1|]. split; [exact H2|]. split; [exact H3|].
  exact (proj2 (getAllScratchpads_reads_unprefixed "Q12"
                  (JObj [("notes", JStr "replay")]) env0 env0 server0 H1 H2)
           H3).
Defined.

Lemma drive_scratchpads_misread_witness :
  scratchpads_indexed server0
  ∧ records_apart server0
  ∧ Forall (λ step, plain step.2) script
  ∧ ("scratchpad_Q12" ∉ storageKeys)
  ∧ records (drive script server0) !! "scratchpad_Q12" = None
  ∧ (getAllScratchpads env0 (drive script server0)).1.1 !! "scratchpad_Q12"
    = Some (JObj [("notes", JStr "red won the autonomous bonus")])
  ∧ (getScratchpad "scratchpad_Q12" env0 (drive script server0)).1.1
    = Some (JObj [("notes", JStr "replayed")])
  ∧ ∃ other,
      "scratchpad_Q12" = "scratchpad_" +:+ other
      ∧ other ≠ "scratchpad_Q12"
      ∧ other ∈ scratchpad_list (drive script server0)
      ∧ (getScratchpad other env0 (drive script server0)).1.1
        = Some (JObj [("notes", JStr "red won the autonomous bonus")]).
Proof.
  assert (H1 : scratchpads_indexed server0) by by_compute.
  assert (Ha : records_apart server0) by by_compute.
  assert (Hp : Forall (λ step : Env * Event, plain step.2) script)
    by by_compute.
  assert (Hk : "scratchpad_Q12" ∉ storageKeys) by by_compute.
  assert (Hr : records (drive script server0) !! "scratchpad_Q12" = None)
    by (by vm_compute).
  assert (H2 : (getAllScratchpads env0 (drive script server0)).1.1
                 !! "scratchpad_Q12"
               = Some (JObj [("notes", JStr "red won the autonomous bonus")]))
    by (by vm_compute).
  split; [exact H1|]. split; [exact Ha|]. split; [exact Hp|].
  split; [exact Hk|]. split; [exact Hr|]. split; [exact H2|].
  split; [by vm_compute|].
  exact (drive_scratchpads_misread script env0 server0 _ _ H1 Ha Hp Hk Hr
           H2).
Defined.

Lemma handleDeleteIncident_unlisted_witness :
  param_id (requestOf None (Some "incident7")) = Some "incident7"
  ∧ "incident7" ≠ ""
  ∧ ("incident7" ∉ incidents server0)
  ∧ handleDeleteIncident (requestOf None (Some "incident7")) env0 server0
    = (Failure bad_request "Could not find incident with that ID",
       set_deleted_incidents (λ deleted, deleted ∪ {[ "incident7" ]}) server0,
       []).
Proof.
  assert (H1 : param_id (requestOf None (Some "incident7"))
               = Some "incident7") by reflexivity.
  assert (H2 : "incident7" ≠ "") by by_compute.
  assert (H3 : "incident7" ∉ incidents server0) by by_compute.
  split; [exact H1|]. split; [exact H2|]. split; [exact H3|].
  exact (proj1 (handleDeleteIncident_unlisted _ env0 server0 _ H1 H2 H3)).
Defined.

Lemma handleEditIncident_unknown_id_witness :
  getRequestBody (requestOf (Some fresh) None) = Some fresh
  ∧ incidentKey (id fresh)
  ∧ records server0 !! id fresh = None
  ∧ (id fresh ∉ deleted_incidents server0)
  ∧ handleEditIncident (requestOf (Some fresh) None) env0 server0
    = (Failure bad_request "Could not edit incident with that ID",
       server0, []).
Proof.
  assert (H1 : getRequestBody (requestOf (Some fresh) None) = Some fresh)
    by reflexivity.
  assert (Hk : incidentKey (id fresh)) by by_compute.
  assert (H2 : records server0 !! id fresh = None) by (by vm_compute).
  assert (H3 : id fresh ∉ deleted_incidents server0) by by_compute.
  split; [exact H1|]. split; [exact Hk|]. split; [exact H2|].
  split; [exact H3|].
  exact (handleEditIncident_unknown_id _ env0 server0 fresh H1 Hk H2 H3).
Defined.

Lemma handleAddIncident_accepts_witness :
  getRequestBody (requestOf (Some fresh) None) = Some fresh
  ∧ incidentKey (id fresh)
  ∧ (id fresh ∉ deleted_incidents server0)
  ∧ (handleAddIncident (requestOf (Some fresh) None) env0 server0).1.1
    = Success (DataIncident fresh)
  ∧ incidents (handleAddIncident (requestOf (Some fresh) None) env0
                 server0).1.2
    = ["incident1"; "incident2"].
Proof.
  assert (H1 : getRequestBody (requestOf (Some fresh) None) = Some fresh)
    by reflexivity.
  assert (Hk : incidentKey (id fresh)) by by_compute.
  assert (H2 : id fresh ∉ deleted_incidents server0) by by_compute.
  split; [exact H1|]. split; [exact Hk|]. split; [exact H2|].
  destruct (handleAddIncident_accepts _ env0 env0 server0 fresh H1 Hk H2)
    as (Hresponse & _ & Hlist & _).
  split; [exact Hresponse|]. rewrite Hlist. by vm_compute.
Defined.

Lemma frames_are_not_checked_witness :
  (socket session1 ∉ inactive server0)
  ∧ incidentKey (id stalePatch)
  ∧ (count <$> revision stalePatch) = Some 2%Z
  ∧ currentRevision server0 (id stalePatch) = 3%Z
  ∧ records (onMessage session1 (update_incident stalePatch) env0
               server0).1.2
      !! id stalePatch
    = Some stalePatch.
Proof.
  assert (H : socket session1 ∉ inactive server0) by by_compute.
  assert (Hk : incidentKey (id stalePatch)) by by_compute.
  split; [exact H|]. split; [exact Hk|]. split; [reflexivity|].
  split; [by vm_compute|].
  rewrite (proj1 (frames_are_not_checked session1 stalePatch "" env0 server0
                    H Hk)).
  by vm_compute.
Defined.

End MoreSyncExamples.

Section MoreMergeExamples.
Import LWW ConsistentMap Fixtures.

Lemma mergeMap_pushed_ids_resolve_witness :
  keyed edited_local
  ∧ keyed edited_remote
  ∧ NoDup (Ids.values
             (ConsistentMap.remote
                (mergeMap reports_always edited_local edited_remote ignore)))
  ∧ ∀ id,
      id ∈ Ids.values
             (ConsistentMap.local
                (mergeMap reports_always edited_local edited_remote ignore))
           ++ Ids.values
                (ConsistentMap.remote
                   (mergeMap reports_always edited_local edited_remote
                      ignore)) →
      is_Some
        (values
           (resolved
              (mergeMap reports_always edited_local edited_remote ignore))
         !! id).
Proof.
  assert (H1 : keyed edited_local) by by_compute.
  assert (H2 : keyed edited_remote) by by_compute.
  split; [exact H1|]. split; [exact H2|].
  destruct (mergeMap_pushed_ids_resolve reports_always edited_local
              edited_remote ignore H1 H2) as (_ & Hremote & Hsome).
  split; [exact Hremote | exact Hsome].
Defined.

End MoreMergeExamples.

Section MoreClientExamples.
Import Api Client Fixtures.

Lemma editIncident_records_omitted_witness :
  objects store1 !! "incident_a" = Some incidentA
  ∧ ∃ updated r item,
      editIncident showAtom "incident_a" [("notes", JStr "late")] true
        SenderServer "2024-03-09T16:00:00.000Z" store1
      = ({| objects := <["incident_a" := updated]> (objects store1);
            scratchpad_idx := scratchpad_idx store1 |},
         [editServerIncident updated])
      ∧ revision updated = Some r
      ∧ count r = 1%Z
      ∧ {| property := "outcome"; old := Some (JStr "Minor"); new := None |}
        ∈ changes item
      ∧ {| property := "id"; old := Some (JStr "incident_a"); new := None |}
        ∈ changes item
      ∧ props updated !! "outcome" = Some (JStr "Minor").
Proof.
  assert (H : objects store1 !! "incident_a" = Some incidentA)
    by (by vm_compute).
  split; [exact H|].
  destruct (editIncident_records_omitted showAtom "incident_a"
              [("notes", JStr "late")] true SenderServer
              "2024-03-09T16:00:00.000Z" store1 incidentA H)
    as (updated & r & item & Heq & Hrev & Hcount & _ & Hkeys).
  exists updated, r, item. split; [exact Heq|]. split; [exact Hrev|].
  split; [exact Hcount|].
  assert (Hskip1 : "outcome" ∉ ["revision"; "team"; "event"]) by by_compute.
  assert (Hskip2 : "id" ∉ ["revision"; "team"; "event"]) by by_compute.
  destruct (Hkeys "outcome" (JStr "Minor") ltac:(by vm_compute) Hskip1
              ltac:(by vm_compute)) as [Hc1 Hp1].
  destruct (Hkeys "id" (JStr "incident_a") ltac:(by vm_compute) Hskip2
              ltac:(by vm_compute)) as [Hc2 _].
  split; [exact Hc1|]. split; [exact Hc2 | exact Hp1].
Defined.

Lemma editScratchpad_effective_witness :
  listKey "scratchpad_RE-VRC-23-3690_1_Q12" = false
  ∧ ∃ value,
      (editScratchpad showAtom "scratchpad_RE-VRC-23-3690_1_Q12"
         [("notes", JStr "AWP")] SenderServer "2024-03-09T16:00:00.000Z"
         store0).2
      = [updateScratchpad "scratchpad_RE-VRC-23-3690_1_Q12" value]
      ∧ objects
          (editScratchpad showAtom "scratchpad_RE-VRC-23-3690_1_Q12"
             [("notes", JStr "AWP")] SenderServer "2024-03-09T16:00:00.000Z"
             store0).1
          !! "scratchpad_RE-VRC-23-3690_1_Q12"
        = Some value
      ∧ props value !! "auto" = Some (JStr "none").
Proof.
  assert (H : listKey "scratchpad_RE-VRC-23-3690_1_Q12" = false)
    by reflexivity.
  split; [exact H|].
  pose proof (editScratchpad_effective showAtom
                "scratchpad_RE-VRC-23-3690_1_Q12" [("notes", JStr "AWP")]
                SenderServer "2024-03-09T16:00:00.000Z" store0 H) as Hedit.
  cbv zeta in Hedit.
  assert (Hcur : objects store0 !! "scratchpad_RE-VRC-23-3690_1_Q12"
                 = Some scratchpad1) by (by vm_compute).
  rewrite Hcur in Hedit. destruct Hedit as [_ Hedit].
  destruct Hedit as (value & r & Hsent & Hstored & _ & _ & _ & _ & _ & Hkept).
  { by_compute. }
  exists value. split; [exact Hsent|]. split; [exact Hstored|].
  rewrite Hkept; by vm_compute.
Defined.

Lemma setMatchScratchpad_indexes_witness :
  listKey "scratchpad_RE-VRC-23-3690_1_Q12" = false
  ∧ props scratchpad1 !! "event" = Some (JStr "RE-VRC-23-3690")
  ∧ getMatchScratchpad "scratchpad_RE-VRC-23-3690_1_Q12"
      (setMatchScratchpad "scratchpad_RE-VRC-23-3690_1_Q12" scratchpad1
         store0)
    = Some scratchpad1
  ∧ "scratchpad_RE-VRC-23-3690_1_Q12"
    ∈ getScratchpadIdsForEvent "RE-VRC-23-3690"
        (setMatchScratchpad "scratchpad_RE-VRC-23-3690_1_Q12" scratchpad1
           store0).
Proof.
  assert (H1 : listKey "scratchpad_RE-VRC-23-3690_1_Q12" = false)
    by reflexivity.
  assert (H2 : props scratchpad1 !! "event" = Some (JStr "RE-VRC-23-3690"))
    by (by vm_compute).
  split; [exact H1|]. split; [exact H2|].
  destruct (setMatchScratchpad_indexes "scratchpad_RE-VRC-23-3690_1_Q12"
              scratchpad1 store0 "RE-VRC-23-3690" "" "" H1 H2)
    as (Hread & Hindexed & _).
  split; [exact Hread | exact Hindexed].
Defined.

Lemma newIncident_indexed_witness :
  listKey "incident_b" = false
  ∧ hasIncident "incident_b"
      (newIncident incidentA true "incident_b"
         {| kv_store := store1; kv_lists := ∅ |}).1
    = true
  ∧ idx_event
      (getIncidentIndices incidentA
         (newIncident incidentA true "incident_b"
            {| kv_store := store1; kv_lists := ∅ |}).1)
    = ["incident_b"].
Proof.
  assert (H : listKey "incident_b" = false) by reflexivity.
  split; [exact H|].
  destruct (newIncident_indexed incidentA true "incident_b"
              {| kv_store := store1; kv_lists := ∅ |} H)
    as (Hhas & Hevent & _).
  split; [exact Hhas|]. rewrite Hevent. by vm_compute.
Defined.

Lemma deleteIncident_unindexes_witness :
  listKey "incident_a" = false
  ∧ objects store1 !! "incident_a" = Some incidentA
  ∧ kv_store
      (deleteIncident "incident_a" true true
         {| kv_store := store1; kv_lists := ∅ |}).1
    = store1.
Proof.
  assert (H : listKey "incident_a" = false) by reflexivity.
  assert (Hcur : objects store1 !! "incident_a" = Some incidentA)
    by (by vm_compute).
  split; [exact H|]. split; [exact Hcur|].
  pose proof (deleteIncident_unindexes "incident_a" true true
                {| kv_store := store1; kv_lists := ∅ |} H) as Hdelete.
  cbn [kv_store] in Hdelete. rewrite Hcur in Hdelete.
  exact (proj1 Hdelete).
Defined.

(** An incident made on the device, then deleted: it leaves the indices of
    its event and stays among all incidents. *)
Example newIncident_then_deleteIncident :
  let kv0 := {| kv_store := store1; kv_lists := ∅ |} in
  let kv1 := (newIncident incidentA true "incident_b" kv0).1 in
  let kv2 := (deleteIncident "incident_b" true true kv1).1 in
  kv_lists kv1 !! "event_RE-VRC-23-3690_idx" = Some ["incident_b"]
  ∧ kv_lists kv1 !! "team_3796B_idx" = Some ["incident_b"]
  ∧ kv_lists kv1 !! "incidents" = Some ["incident_b"]
  ∧ kv_lists kv2 !! "event_RE-VRC-23-3690_idx" = Some []
  ∧ kv_lists kv2 !! "deleted_event_RE-VRC-23-3690_idx" = Some ["incident_b"]
  ∧ length (getAllIncidents kv2) = 1
  ∧ getIncidentsByEvent "RE-VRC-23-3690" kv2 = []
  ∧ (deleteIncident "incident_b" true true kv1).2
    = [deleteServerIncident "incident_b" "RE-VRC-23-3690"].
Proof. split_and!; by vm_compute. Qed.

End MoreClientExamples.
